(** * Clustered Sugiyama layering (OGDF, sugiyama-cluster.cpp)

    A shallow embedding of the parts of [sugiyama-cluster.cpp] that the
    layering invariants talk about, followed by the proofs.

    Conventions.
    - C++ [int] is [Z]; where the source adds to an [int] that the input can
      make large (a level of [addEdge], the weight of an adjacency), the sum
      is wrapped to 32 bits by [int_wrap]; the levels of [tryEdge] and
      [moveDown] grow by at most the number of nodes in a call, and the
      theorems about them bound them by [INT_MAX].  Handles ([node], [edge],
      [cluster]) are their OGDF indices, a [nat]; [LHTreeNode*] is an address
      into a heap of tree nodes, [nullptr] being address 0.
    - [NodeArray<T>] with a default value is a total function from handles.
    - A loop that the C++ runs until a queue empties takes a fuel argument and
      returns [None] when the fuel runs out; dereferencing a dangling pointer
      or failing an [OGDF_ASSERT] is [None] as well. *)

From stdpp Require Import functions gmap list sorting.
From Stdlib Require Import ZArith Lia.

Abbreviation node := nat.
Abbreviation edge := nat.
Abbreviation cluster := nat.
Abbreviation ptr := nat.

Definition nullptr : ptr := 0.

(** The value of a 32-bit [int] that holds the integer [z]: [z] itself between
    [-2^31] and [2^31 - 1], wrapped around outside. *)
Definition int_wrap (z : Z) : Z := ((z + 2147483648) mod 4294967296 - 2147483648)%Z.
Arguments int_wrap : simpl never.

(** ** Layer hierarchy trees *)

(** [LHTreeNode::Type] *)
Inductive LHTreeNode_Type := Compound | Node | AuxNode.

#[global] Instance LHTreeNode_Type_eq_dec : EqDecision LHTreeNode_Type.
Proof. solve_decision. Defined.

(** [LHTreeNode::Adjacency] *)
Record Adjacency := mkAdjacency {
  m_u : node;
  m_v : ptr;
  m_weight : Z
}.

#[global] Instance Adjacency_eq_dec : EqDecision Adjacency.
Proof. solve_decision. Defined.

(** The fields of [LHTreeNode] that the functions below read or write. *)
Record LHTreeNode := mkLHTreeNode {
  m_parent : ptr;
  m_origCluster : cluster;
  m_node : node;
  m_type : LHTreeNode_Type;
  m_child : list ptr;
  m_storedChild : list ptr;
  m_upperAdj : list Adjacency;
  m_lowerAdj : list Adjacency
}.

Definition isCompound (nd : LHTreeNode) : bool :=
  bool_decide (m_type nd = Compound).

Definition numberOfChildren (nd : LHTreeNode) : nat := length (m_child nd).

Definition set_child (a : list ptr) (nd : LHTreeNode) : LHTreeNode :=
  mkLHTreeNode (m_parent nd) (m_origCluster nd) (m_node nd) (m_type nd)
    a (m_storedChild nd) (m_upperAdj nd) (m_lowerAdj nd).

Definition set_storedChild (a : list ptr) (nd : LHTreeNode) : LHTreeNode :=
  mkLHTreeNode (m_parent nd) (m_origCluster nd) (m_node nd) (m_type nd)
    (m_child nd) a (m_upperAdj nd) (m_lowerAdj nd).

Definition set_adj (up lo : list Adjacency) (nd : LHTreeNode) : LHTreeNode :=
  mkLHTreeNode (m_parent nd) (m_origCluster nd) (m_node nd) (m_type nd)
    (m_child nd) (m_storedChild nd) up lo.

(** [Array<E>::grow(add, x)]: the array helper enlarges the array by [add]
    entries initialised with [x]; with a negative [add] the high index moves
    down and the array loses its last [-add] entries. *)
Definition Array_grow {E} (a : list E) (add : Z) (x : E) : list E :=
  if decide (0 ≤ add)%Z then a ++ replicate (Z.to_nat add) x
  else take (Z.to_nat (Z.of_nat (length a) + add)) a.

(** One iteration of the loop of [LHTreeNode::removeAuxChildren]; the state is
    the child array, the write index [j] and the heap. *)
Definition removeAuxChildren_body
    (st : option (list ptr * nat * gmap ptr LHTreeNode)) (i : nat)
  : option (list ptr * nat * gmap ptr LHTreeNode) :=
  '(a, j, h) ← st;
  c ← a !! i;
  nd ← h !! c;
  if decide (m_type nd ≠ AuxNode)
  then Some (<[j := c]> a, S j, h)
  else Some (a, j, delete c h).

(** [void LHTreeNode::removeAuxChildren()] on the node at address [p]. *)
Definition LHTreeNode_removeAuxChildren (h : gmap ptr LHTreeNode) (p : ptr)
  : option (gmap ptr LHTreeNode) :=
  nd ← h !! p;
  if isCompound nd then
    let n := length (m_child nd) in
    '(a, j, h') ← foldl removeAuxChildren_body (Some (m_child nd, 0, h)) (seq 0 n);
    let add := (Z.of_nat j - Z.of_nat n)%Z in
    let a' := if decide (add ≠ 0)%Z then Array_grow a add nullptr else a in
    nd' ← h' !! p;
    Some (<[p := set_child a' nd']> h')
  else None.

(** The type of the child at address [c], as [removeAuxChildren] reads it. *)
Definition childType (h : gmap ptr LHTreeNode) (c : ptr) : option LHTreeNode_Type :=
  m_type <$> h !! c.

Definition nonAux (h : gmap ptr LHTreeNode) (c : ptr) : Prop :=
  childType h c ≠ Some AuxNode.

#[global] Instance nonAux_dec h c : Decision (nonAux h c).
Proof. unfold nonAux. apply _. Defined.

Definition isAux (h : gmap ptr LHTreeNode) (c : ptr) : Prop :=
  childType h c = Some AuxNode.

#[global] Instance isAux_dec h c : Decision (isAux h c).
Proof. unfold isAux. apply _. Defined.

(** State of the loop of [removeAuxChildren] after [i] iterations, started on
    the child array [orig] in the heap [h]. *)
Definition removeAux_inv (h : gmap ptr LHTreeNode) (orig : list ptr) (i : nat)
    (st : option (list ptr * nat * gmap ptr LHTreeNode)) : Prop :=
  ∃ a j h',
    st = Some (a, j, h') ∧
    length a = length orig ∧
    take j a = filter (nonAux h) (take i orig) ∧
    drop i a = drop i orig ∧
    j ≤ i ∧
    (∀ q, h' !! q =
          if decide (q ∈ take i orig ∧ isAux h q) then None else h !! q).

(** A small layer used in the examples: a compound root at address 1 with the
    leaves 2, 3 (an auxiliary top/bottom dummy) and 4. *)
Definition leafNode (par : ptr) (v : node) (ty : LHTreeNode_Type) : LHTreeNode :=
  mkLHTreeNode par 0 v ty [] [] [] [].

Definition compoundNode (par : ptr) (c : cluster) (ch : list ptr) : LHTreeNode :=
  mkLHTreeNode par c 0 Compound ch [] [] [].

Definition aux_layer : gmap ptr LHTreeNode :=
  <[1 := compoundNode nullptr 0 [2; 3; 4]]>
  (<[2 := leafNode 1 10 Node]>
  (<[3 := leafNode 1 11 AuxNode]>
  (<[4 := leafNode 1 12 Node]> ∅))).

(** ** ENGLayer: walks over a layer hierarchy tree *)

(** [ENGLayer::store], [restore], [permute] and [removeAuxNodes] are the same
    loop around a different member function of [LHTreeNode]: a queue that
    starts with the root; a popped compound node is acted on and its children,
    as they are after the action, are appended.  [act] is that member function,
    on the node at an address of the heap. *)
Fixpoint ENGLayer_walkCompound
    (act : gmap ptr LHTreeNode → ptr → option (gmap ptr LHTreeNode))
    (fuel : nat) (Q : list ptr) (h : gmap ptr LHTreeNode)
  : option (gmap ptr LHTreeNode) :=
  match Q with
  | [] => Some h
  | p :: Q' =>
    match fuel with
    | 0 => None
    | S fuel' =>
      nd ← h !! p;
      if isCompound nd then
        h' ← act h p;
        nd' ← h' !! p;
        ENGLayer_walkCompound act fuel' (Q' ++ m_child nd') h'
      else ENGLayer_walkCompound act fuel' Q' h
    end
  end.

(** Modelled from the spec: [LHTreeNode::store] (declared in the header, which
    is not part of the sources) snapshots the child order of the node. *)
Definition LHTreeNode_store (h : gmap ptr LHTreeNode) (p : ptr)
  : option (gmap ptr LHTreeNode) :=
  nd ← h !! p; Some (<[p := set_storedChild (m_child nd) nd]> h).

(** Modelled from the spec: [LHTreeNode::restore] (declared in the header)
    re-materializes the child order from the snapshot. *)
Definition LHTreeNode_restore (h : gmap ptr LHTreeNode) (p : ptr)
  : option (gmap ptr LHTreeNode) :=
  nd ← h !! p; Some (<[p := set_child (m_storedChild nd) nd]> h).

(** Modelled from the spec: [LHTreeNode::permute] (declared in the header)
    shuffles the child array; the random source is the function [shuffle]. *)
Definition LHTreeNode_permute (shuffle : list ptr → list ptr)
    (h : gmap ptr LHTreeNode) (p : ptr) : option (gmap ptr LHTreeNode) :=
  nd ← h !! p; Some (<[p := set_child (shuffle (m_child nd)) nd]> h).

(** [void ENGLayer::store()], [restore()], [permute()], [removeAuxNodes()],
    on the layer whose root is [root]. *)
Definition ENGLayer_store (fuel : nat) (h : gmap ptr LHTreeNode) (root : ptr) :=
  ENGLayer_walkCompound LHTreeNode_store fuel [root] h.

Definition ENGLayer_restore (fuel : nat) (h : gmap ptr LHTreeNode) (root : ptr) :=
  ENGLayer_walkCompound LHTreeNode_restore fuel [root] h.

Definition ENGLayer_permute (shuffle : list ptr → list ptr)
    (fuel : nat) (h : gmap ptr LHTreeNode) (root : ptr) :=
  ENGLayer_walkCompound (LHTreeNode_permute shuffle) fuel [root] h.

Definition ENGLayer_removeAuxNodes (fuel : nat) (h : gmap ptr LHTreeNode) (root : ptr) :=
  ENGLayer_walkCompound LHTreeNode_removeAuxChildren fuel [root] h.

(** [void ExtendedNestingGraph::assignPos(const LHTreeNode *vNode, int &count)];
    the state is [m_pos] and [count]. *)
Fixpoint ExtendedNestingGraph_assignPos (fuel : nat) (h : gmap ptr LHTreeNode)
    (vNode : ptr) (st : gmap node Z * Z) : option (gmap node Z * Z) :=
  match fuel with
  | 0 => None
  | S fuel' =>
    nd ← h !! vNode;
    if isCompound nd then
      foldl (λ acc c, st' ← acc; ExtendedNestingGraph_assignPos fuel' h c st')
            (Some st) (m_child nd)
    else Some (<[m_node nd := st.2]> st.1, (st.2 + 1)%Z)
  end.

(** [void ExtendedNestingGraph::storeCurrentPos()]; [m_layer] is the list of
    the layers' roots. *)
Definition ExtendedNestingGraph_storeCurrentPos (fuel : nat) (m_layer : list ptr)
    (h : gmap ptr LHTreeNode) : option (gmap ptr LHTreeNode) :=
  foldl (λ acc root, h' ← acc; ENGLayer_store fuel h' root) (Some h) m_layer.

(** [void ExtendedNestingGraph::restorePos()]: every layer is restored and its
    leaves are numbered again from 0. *)
Definition ExtendedNestingGraph_restorePos (fuel : nat) (m_layer : list ptr)
    (st : gmap ptr LHTreeNode * gmap node Z)
  : option (gmap ptr LHTreeNode * gmap node Z) :=
  foldl (λ acc root,
           '(h, m_pos) ← acc;
           h' ← ENGLayer_restore fuel h root;
           '(m_pos', _) ← ExtendedNestingGraph_assignPos fuel h' root (m_pos, 0%Z);
           Some (h', m_pos'))
        (Some st) m_layer.

(** [void ExtendedNestingGraph::permute()]: every layer is shuffled, and only
    the top layer is numbered again. *)
Definition ExtendedNestingGraph_permute (shuffle : list ptr → list ptr)
    (fuel : nat) (m_layer : list ptr)
    (st : gmap ptr LHTreeNode * gmap node Z)
  : option (gmap ptr LHTreeNode * gmap node Z) :=
  h' ← foldl (λ acc root, h ← acc; ENGLayer_permute shuffle fuel h root)
             (Some st.1) m_layer;
  root0 ← m_layer !! 0;
  '(m_pos', _) ← ExtendedNestingGraph_assignPos fuel h' root0 (st.2, 0%Z);
  Some (h', m_pos').

(** Two heaps with the same tree structure: the same addresses, and at every
    address the same fields except the snapshot [m_storedChild]. *)
Definition same_skeleton (h h' : gmap ptr LHTreeNode) : Prop :=
  ∀ p, set_storedChild [] <$> h !! p = set_storedChild [] <$> h' !! p.

(** A layer of two leaves 2 (vertex 10) and 3 (vertex 11) below the root 1, and
    a top layer with the single leaf 5 (vertex 12) below the root 4. *)
Definition two_layers : gmap ptr LHTreeNode :=
  <[1 := compoundNode nullptr 0 [2; 3]]>
  (<[2 := leafNode 1 10 Node]>
  (<[3 := leafNode 1 11 Node]>
  (<[4 := compoundNode nullptr 0 [5]]>
  (<[5 := leafNode 4 12 Node]> ∅)))).

Definition two_layers_pos : gmap node Z :=
  <[10 := 0%Z]> (<[11 := 1%Z]> (<[12 := 0%Z]> ∅)).

(** [h1] is [h] with some snapshots taken: at every address the node is the
    same, or the same with [m_storedChild] set to its [m_child]. *)
Definition snapshot_of (h h1 : gmap ptr LHTreeNode) : Prop :=
  ∀ p, h1 !! p = h !! p ∨
       ∃ nd, h !! p = Some nd ∧ h1 !! p = Some (set_storedChild (m_child nd) nd).

(** ** Adjacency lists of a compound node *)

#[global] Instance LHTreeNode_inhabited : Inhabited LHTreeNode :=
  populate (leafNode nullptr 0 Node).

(** [AdjacencyComparer::compare]; [x.m_v->...] reads the tree node at the
    address [m_v x] of the heap. *)
Definition AdjacencyComparer_compare (h : gmap ptr LHTreeNode) (x y : Adjacency) : Z :=
  if bool_decide (m_u x < m_u y) then (-1)%Z
  else if bool_decide (m_u x = m_u y) then
    if isCompound (h !!! m_v x) then
      if negb (isCompound (h !!! m_v y)) then (-1)%Z
      else if bool_decide (m_origCluster (h !!! m_v x) < m_origCluster (h !!! m_v y))
           then (-1)%Z else 1%Z
    else if isCompound (h !!! m_v y) then 1%Z
    else if bool_decide (m_node (h !!! m_v x) < m_node (h !!! m_v y))
         then (-1)%Z else 1%Z
  else 1%Z.

(** [OGDF_AUGMENT_STATICCOMPARER]: [less(x,y)] is [compare(x,y) < 0]. *)
Definition AdjacencyComparer_less (h : gmap ptr LHTreeNode) (x y : Adjacency) : bool :=
  bool_decide (AdjacencyComparer_compare h x y < 0)%Z.

(** The [while(itNext.valid())] loop of [ENGLayer::simplifyAdjacencies(adjs)]:
    [it] is the entry under the first iterator, [rest] the list from [itNext]
    on; the result is the list from [it] on.  [m_weight] is an [int], so the
    sum of [+=] is wrapped. *)
Fixpoint simplifyAdjacencies_loop (it : Adjacency) (rest : list Adjacency)
  : list Adjacency :=
  match rest with
  | [] => [it]
  | itNext :: rest' =>
    if bool_decide (m_u it = m_u itNext ∧ m_v it = m_v itNext)
    then simplifyAdjacencies_loop
           (mkAdjacency (m_u it) (m_v it) (int_wrap (m_weight it + m_weight itNext)))
           rest'
    else it :: simplifyAdjacencies_loop itNext rest'
  end.

(** [ENGLayer_walkAll]: the loop of [ENGLayer::simplifyAdjacencies()], which
    acts on every node, compound or not, and appends its children. *)
Fixpoint ENGLayer_walkAll
    (act : gmap ptr LHTreeNode → ptr → option (gmap ptr LHTreeNode))
    (fuel : nat) (Q : list ptr) (h : gmap ptr LHTreeNode)
  : option (gmap ptr LHTreeNode) :=
  match Q with
  | [] => Some h
  | p :: Q' =>
    match fuel with
    | 0 => None
    | S fuel' =>
      h' ← act h p;
      nd' ← h' !! p;
      ENGLayer_walkAll act fuel' (Q' ++ m_child nd') h'
    end
  end.

Section simplifyAdjacencies.
(** [List<E>::quicksort(comparer)] is not part of the sources; it is a
    parameter here, and the proofs assume of it what a sorting routine does. *)
Variable quicksort : ∀ E : Type, (E → E → bool) → list E → list E.

(** [void ENGLayer::simplifyAdjacencies(List<LHTreeNode::Adjacency> &adjs)] *)
Definition ENGLayer_simplifyAdjacencies_list (h : gmap ptr LHTreeNode)
    (adjs : list Adjacency) : list Adjacency :=
  match adjs with
  | [] => []
  | _ =>
    match quicksort Adjacency (AdjacencyComparer_less h) adjs with
    | [] => []
    | it :: rest => simplifyAdjacencies_loop it rest
    end
  end.

(** The body of the loop of [ENGLayer::simplifyAdjacencies()] for the node at
    [p]: first [p->m_upperAdj], then [p->m_lowerAdj]. *)
Definition simplifyAdjacencies_node (h : gmap ptr LHTreeNode) (p : ptr)
  : option (gmap ptr LHTreeNode) :=
  nd ← h !! p;
  let h1 := <[p := set_adj (ENGLayer_simplifyAdjacencies_list h (m_upperAdj nd))
                           (m_lowerAdj nd) nd]> h in
  nd1 ← h1 !! p;
  Some (<[p := set_adj (m_upperAdj nd1)
                       (ENGLayer_simplifyAdjacencies_list h1 (m_lowerAdj nd1)) nd1]> h1).

(** [void ENGLayer::simplifyAdjacencies()] *)
Definition ENGLayer_simplifyAdjacencies (fuel : nat) (h : gmap ptr LHTreeNode)
    (root : ptr) : option (gmap ptr LHTreeNode) :=
  ENGLayer_walkAll simplifyAdjacencies_node fuel [root] h.
End simplifyAdjacencies.

(** What the proofs assume of a comparer and of the sorting routine. *)
Definition strict_weak_order {E} (less : E → E → bool) : Prop :=
  (∀ x, less x x = false) ∧
  (∀ x y z, less x y = true → less y z = true → less x z = true) ∧
  (∀ x y z, less x y = false → less y z = false → less x z = false).

Definition sorts (quicksort : ∀ E : Type, (E → E → bool) → list E → list E) : Prop :=
  (∀ E less (l : list E), quicksort E less l ≡ₚ l) ∧
  (∀ E less (l : list E), strict_weak_order less →
     StronglySorted (λ x y, less y x = false) (quicksort E less l)) ∧
  (∀ E less less' (l : list E), (∀ x y, less x y = less' x y) →
     quicksort E less l = quicksort E less' l).

(** A sorting routine to run the examples with: sorting by insertion. *)
Fixpoint insert_sorted {E} (less : E → E → bool) (v : E) (l : list E) : list E :=
  match l with
  | [] => [v]
  | y :: l' => if less v y then v :: y :: l' else y :: insert_sorted less v l'
  end.

Definition insertion_sort (E : Type) (less : E → E → bool) (l : list E) : list E :=
  foldr (insert_sorted less) [] l.

(** The key by which [AdjacencyComparer] orders an entry: the index of [m_u],
    compound before leaf, and the index of the cluster or of the vertex. *)
Definition adjKey (h : gmap ptr LHTreeNode) (a : Adjacency) : nat * nat * nat :=
  (m_u a,
   if isCompound (h !!! m_v a) then 0 else 1,
   if isCompound (h !!! m_v a) then m_origCluster (h !!! m_v a)
   else m_node (h !!! m_v a)).

Definition key_lt (k1 k2 : nat * nat * nat) : Prop :=
  k1.1.1 < k2.1.1 ∨
  (k1.1.1 = k2.1.1 ∧ (k1.1.2 < k2.1.2 ∨ (k1.1.2 = k2.1.2 ∧ k1.2 < k2.2))).

(** The tree nodes an adjacency list points to stand for different clusters
    and vertices: entries with the same key have the same [m_u] and [m_v]. *)
Definition adj_distinct (h : gmap ptr LHTreeNode) (l : list Adjacency) : Prop :=
  ∀ a b, a ∈ l → b ∈ l → adjKey h a = adjKey h b →
         m_u a = m_u b ∧ m_v a = m_v b.

Definition layer_adj_distinct (h : gmap ptr LHTreeNode) : Prop :=
  ∀ p nd, h !! p = Some nd →
    adj_distinct h (m_upperAdj nd) ∧ adj_distinct h (m_lowerAdj nd).

(** The fields of the node at [p] that [AdjacencyComparer] reads agree in [h]
    and [h']. *)
Definition same_attributes (h h' : gmap ptr LHTreeNode) : Prop :=
  ∀ p, m_type (h !!! p) = m_type (h' !!! p) ∧
       m_origCluster (h !!! p) = m_origCluster (h' !!! p) ∧
       m_node (h !!! p) = m_node (h' !!! p).

(** [h1] is [h] with the adjacency lists of some nodes replaced by the
    simplified lists of the heap [h0] the walk started from. *)
Definition simplified_of
    (quicksort : ∀ E : Type, (E → E → bool) → list E → list E)
    (h0 h h1 : gmap ptr LHTreeNode) : Prop :=
  ∀ q, h1 !! q = h !! q ∨
       h1 !! q = (λ nd, set_adj (ENGLayer_simplifyAdjacencies_list quicksort h0 (m_upperAdj nd))
                                (ENGLayer_simplifyAdjacencies_list quicksort h0 (m_lowerAdj nd))
                                nd) <$> h0 !! q.

(** A layer whose root 1 has the compound child 2 (cluster 1) and the leaf 3
    (vertex 11); the upper adjacencies of the root name the leaf twice. *)
Definition adj_layer : gmap ptr LHTreeNode :=
  <[1 := mkLHTreeNode nullptr 0 0 Compound [2; 3] []
           [mkAdjacency 20 3 1; mkAdjacency 20 2 1; mkAdjacency 20 3 1] []]>
  (<[2 := compoundNode 1 1 []]>
  (<[3 := leafNode 1 11 Node]> ∅)).

(** ** Ranking: the compaction of the layers *)

(** [Array<SListPure<node> > levels(low,high)]: an array indexed from [low] to
    [high] of empty lists; an index outside the range is not in the map. *)
Definition levels_init (low high : Z) : gmap Z (list node) :=
  foldr (λ i lv, <[i := []]> lv) ∅ (seqZ low (high - low + 1)).

(** [for(node v : nodes) levels[m_rank[v]].pushBack(v);] *)
Definition levels_fill (nodes : list node) (m_rank : node → Z)
    (levels : gmap Z (list node)) : option (gmap Z (list node)) :=
  foldl (λ acc v, lv ← acc; L ← lv !! m_rank v; Some (<[m_rank v := L ++ [v]]> lv))
        (Some levels) nodes.

(** The body of [for(int i = low+1; i < high; ++i)]; the state is [m_rank] and
    [currentRank]. *)
Definition reassignRanks_body (levels : gmap Z (list node))
    (st : option ((node → Z) * Z)) (i : Z) : option ((node → Z) * Z) :=
  '(m_rank, currentRank) ← st;
  L ← levels !! i;
  match L with
  | [] => Some (m_rank, currentRank)
  | _ => Some (foldl (λ r v, <[v := currentRank]> r) m_rank L, (currentRank + 1)%Z)
  end.

(** The last part of [ExtendedNestingGraph::computeRanking] ("Reassign
    ranks"): [nodes] are the vertices left in the graph, [low] and [high] the
    ranks the top and the bottom vertex of the root cluster had.  The result
    is the new [m_rank] and [m_numLayers]. *)
Definition computeRanking_reassignRanks (nodes : list node) (low high : Z)
    (m_rank : node → Z) : option ((node → Z) * Z) :=
  levels ← levels_fill nodes m_rank (levels_init low high);
  foldl (reassignRanks_body levels) (Some (m_rank, 0%Z))
        (seqZ (low + 1) (high - low - 1)).

(** Whether some vertex has rank [i], and the number of ranks among
    [low+1 .. low+k] that some vertex has. *)
Definition level_used (nodes : list node) (m_rank : node → Z) (i : Z) : bool :=
  bool_decide (Exists (λ v, m_rank v = i) nodes).

Fixpoint levels_used (nodes : list node) (m_rank : node → Z) (low : Z) (k : nat) : nat :=
  match k with
  | 0 => 0
  | S k' => levels_used nodes m_rank low k' +
            (if level_used nodes m_rank (low + Z.of_nat (S k')) then 1 else 0)
  end.

(** The rank a vertex of old rank [r] gets: the number of used ranks strictly
    between [low] and [r]. *)
Definition compacted_rank (nodes : list node) (m_rank : node → Z) (low : Z) (r : Z) : Z :=
  Z.of_nat (levels_used nodes m_rank low (Z.to_nat (r - low - 1))).

(** State of the loop of [computeRanking_reassignRanks] after the levels
    [low+1 .. low+k]. *)
Definition reassignRanks_inv (nodes : list node) (m_rank : node → Z) (low : Z)
    (k : nat) (st : option ((node → Z) * Z)) : Prop :=
  ∃ r, st = Some (r, Z.of_nat (levels_used nodes m_rank low k)) ∧
       ∀ v, r v = if decide (v ∈ nodes ∧ (low < m_rank v ≤ low + Z.of_nat k)%Z)
                  then compacted_rank nodes m_rank low (m_rank v)
                  else m_rank v.

(** Ranks left by the ranker on five vertices, between the top ([low] = 0) and
    the bottom ([high] = 9) of the root cluster. *)
Definition sparse_rank (v : node) : Z :=
  match v with
  | 0 => 2%Z | 1 => 5%Z | 2 => 2%Z | 3 => 7%Z | _ => 5%Z
  end.

(** ** Crossing counts *)

(** Modelled from the spec: class [RCCrossings] (declared in the header, which
    is not part of the sources) is a pair [(cnClusters, cnEdges)] compared
    lexicographically; [isZero] means both are zero; [setInfinity] yields the
    maximum representable value; counts add and subtract by components. *)
Record RCCrossings := mkRCCrossings {
  m_cnClusters : Z;
  m_cnEdges : Z
}.

#[global] Instance RCCrossings_eq_dec : EqDecision RCCrossings.
Proof. solve_decision. Defined.

Definition INT_MAX : Z := 2147483647.

Definition RCCrossings_zero : RCCrossings := mkRCCrossings 0 0.

Definition RCCrossings_infinity : RCCrossings := mkRCCrossings INT_MAX INT_MAX.

Definition RCCrossings_isZero (x : RCCrossings) : bool :=
  bool_decide (m_cnClusters x = 0%Z) && bool_decide (m_cnEdges x = 0%Z).

Definition RCCrossings_lt (x y : RCCrossings) : bool :=
  if bool_decide (m_cnClusters x = m_cnClusters y)
  then bool_decide (m_cnEdges x < m_cnEdges y)%Z
  else bool_decide (m_cnClusters x < m_cnClusters y)%Z.

Definition RCCrossings_le (x y : RCCrossings) : bool :=
  if bool_decide (m_cnClusters x = m_cnClusters y)
  then bool_decide (m_cnEdges x ≤ m_cnEdges y)%Z
  else bool_decide (m_cnClusters x ≤ m_cnClusters y)%Z.

Definition RCCrossings_add (x y : RCCrossings) : RCCrossings :=
  mkRCCrossings (m_cnClusters x + m_cnClusters y) (m_cnEdges x + m_cnEdges y).

Definition RCCrossings_sub (x y : RCCrossings) : RCCrossings :=
  mkRCCrossings (m_cnClusters x - m_cnClusters y) (m_cnEdges x - m_cnEdges y).

(** ** The orchestrator: SugiyamaLayout::reduceCrossings *)

(** What the orchestrator does to the nesting graph [H], in order. *)
Inductive Event (ENG : Type) :=
| EvStore (nCrossings : RCCrossings) (H : ENG)
| EvPermute
| EvRestore.
Arguments EvStore {ENG} _ _.
Arguments EvPermute {ENG}.
Arguments EvRestore {ENG}.

(** The variables of [SugiyamaLayout::reduceCrossings], and the log of calls
    made on [H]. *)
Record Orchestrator (ENG : Type) := mkOrchestrator {
  o_H : ENG;
  nCrossingsOld : RCCrossings;
  m_nCrossingsCluster : RCCrossings;
  nFails : Z;
  o_log : list (Event ENG)
}.
Arguments mkOrchestrator {ENG} _ _ _ _ _.
Arguments o_H {ENG} _.
Arguments nCrossingsOld {ENG} _.
Arguments m_nCrossingsCluster {ENG} _.
Arguments nFails {ENG} _.
Arguments o_log {ENG} _.

Section Orchestrator.
(** The nesting graph and the member functions the orchestrator calls: the two
    sweeps return the graph they leave and the number of crossings. *)
Context {ENG : Type}.
Variable traverseTopDown traverseBottomUp : ENG → ENG * RCCrossings.
Variable storeCurrentPos restorePos permute : ENG → ENG.
Variable m_runs m_fails : Z.

(** The block after each sweep:
    [if(nCrossingsNew < nCrossingsOld) { ... } else --nFails;]
    The boolean tells whether the block left the loop by [break]. *)
Definition afterSweep (st : Orchestrator ENG) (H : ENG) (nCrossingsNew : RCCrossings)
  : Orchestrator ENG * bool :=
  if RCCrossings_lt nCrossingsNew (nCrossingsOld st) then
    if RCCrossings_lt nCrossingsNew (m_nCrossingsCluster st) then
      let H' := storeCurrentPos H in
      let log' := o_log st ++ [EvStore nCrossingsNew H] in
      if RCCrossings_isZero nCrossingsNew
      then (mkOrchestrator H' (nCrossingsOld st) nCrossingsNew (nFails st) log', true)
      else (mkOrchestrator H' nCrossingsNew nCrossingsNew (m_fails + 1) log', false)
    else (mkOrchestrator H nCrossingsNew (m_nCrossingsCluster st) (m_fails + 1)
                         (o_log st), false)
  else (mkOrchestrator H (nCrossingsOld st) (m_nCrossingsCluster st) (nFails st - 1)
                       (o_log st), false).

(** [do { ... } while(nFails > 0);] *)
Fixpoint sweepLoop (fuel : nat) (st : Orchestrator ENG) : option (Orchestrator ENG) :=
  match fuel with
  | 0 => None
  | S fuel' =>
    let '(H1, new1) := traverseTopDown (o_H st) in
    let '(st1, brk1) := afterSweep st H1 new1 in
    if brk1 then Some st1 else
    let '(H2, new2) := traverseBottomUp (o_H st1) in
    let '(st2, brk2) := afterSweep st1 H2 new2 in
    if brk2 then Some st2 else
    if bool_decide (0 < nFails st2)%Z then sweepLoop fuel' st2 else Some st2
  end.

(** [for(int i = 1; ; ++i) { ... }] *)
Fixpoint runLoop (fuel : nat) (i : Z) (st : Orchestrator ENG)
  : option (Orchestrator ENG) :=
  match fuel with
  | 0 => None
  | S fuel' =>
    st1 ← sweepLoop fuel'
            (mkOrchestrator (o_H st) (nCrossingsOld st) (m_nCrossingsCluster st)
                            (m_fails + 1) (o_log st));
    if RCCrossings_isZero (m_nCrossingsCluster st1) || bool_decide (m_runs ≤ i)%Z
    then Some st1
    else runLoop fuel' (i + 1)%Z
           (mkOrchestrator (permute (o_H st1)) RCCrossings_infinity
                           (m_nCrossingsCluster st1) (nFails st1)
                           (o_log st1 ++ [EvPermute]))
  end.

(** [void SugiyamaLayout::reduceCrossings(ExtendedNestingGraph &H)]; the result
    is [H], [m_nCrossingsCluster], [m_nCrossings] and the log. *)
Definition SugiyamaLayout_reduceCrossings (fuel : nat) (H : ENG)
  : option (ENG * RCCrossings * Z * list (Event ENG)) :=
  st ← runLoop fuel 1%Z
         (mkOrchestrator H RCCrossings_infinity RCCrossings_infinity 0%Z []);
  Some (restorePos (o_H st), m_nCrossingsCluster st,
        m_cnEdges (m_nCrossingsCluster st), o_log st ++ [EvRestore]).
End Orchestrator.

(** The crossing counts at which the order was stored, in the order of the
    calls, with the graph whose order was stored. *)
Fixpoint stores {ENG} (log : list (Event ENG)) : list (RCCrossings * ENG) :=
  match log with
  | [] => []
  | EvStore c H :: log' => (c, H) :: stores log'
  | _ :: log' => stores log'
  end.

(** What the orchestrator keeps true: the stored counts decrease strictly,
    the best count is the last stored one (infinity when nothing was stored),
    and the snapshot held by [H] is the order of the graph stored last. *)
Definition orchestrator_inv {ENG Order : Type} (order saved : ENG → Order)
    (H0 : ENG) (st : Orchestrator ENG) : Prop :=
  StronglySorted (λ a b, RCCrossings_lt b a = true) ((stores (o_log st)).*1) ∧
  m_nCrossingsCluster st
    = default RCCrossings_infinity (fst <$> last (stores (o_log st))) ∧
  saved (o_H st)
    = default (saved H0) ((order ∘ snd) <$> last (stores (o_log st))) ∧
  EvRestore ∉ o_log st.

(** A scripted nesting graph to run the orchestrator on: the current order,
    the stored order and the number of sweeps made so far; the sweep number
    [t] leaves the order [t+1] and reports [sweep_script t] crossings. *)
Definition sweep_script (t : nat) : RCCrossings :=
  match t with
  | 0 => mkRCCrossings 0 5
  | 1 => mkRCCrossings 0 3
  | 2 => mkRCCrossings 0 4
  | _ => mkRCCrossings 0 2
  end.

Definition script_sweep (H : nat * nat * nat) : (nat * nat * nat) * RCCrossings :=
  let '(_, s, t) := H in ((S t, s, S t), sweep_script t).

Definition script_store (H : nat * nat * nat) : nat * nat * nat :=
  let '(c, _, t) := H in (c, c, t).

Definition script_restore (H : nat * nat * nat) : nat * nat * nat :=
  let '(_, s, t) := H in (s, s, t).

Definition script_permute (H : nat * nat * nat) : nat * nat * nat :=
  let '(c, s, t) := H in (100 + c, s, t).

Definition script_order (H : nat * nat * nat) : nat := H.1.1.

Definition script_saved (H : nat * nat * nat) : nat := H.1.2.

(** ** Graphs *)

(** An OGDF [Graph] in which nothing was deleted: the nodes are the indices
    below [nodeIdCount], an edge is its index into the list of edges, each a
    pair of source and target. *)
Record Graph := mkGraph {
  nodeIdCount : nat;
  g_edges : list (node * node)
}.

Definition Graph_empty : Graph := mkGraph 0 [].

Definition numberOfNodes (G : Graph) : Z := Z.of_nat (nodeIdCount G).

Definition newNode (G : Graph) : Graph * node :=
  (mkGraph (S (nodeIdCount G)) (g_edges G), nodeIdCount G).

Definition newEdge (G : Graph) (u v : node) : Graph * edge :=
  (mkGraph (nodeIdCount G) (g_edges G ++ [(u, v)]), length (g_edges G)).

Definition source (G : Graph) (e : edge) : option node := fst <$> g_edges G !! e.

Definition target (G : Graph) (e : edge) : option node := snd <$> g_edges G !! e.

(** [Graph::split(e)]: the edge [e = (s,t)] becomes [(s,w)] for a new node [w],
    and the new edge [(w,t)] is returned. *)
Definition split (G : Graph) (e : edge) : option (Graph * edge) :=
  '(s, t) ← g_edges G !! e;
  let w := nodeIdCount G in
  Some (mkGraph (S w) (<[e := (s, w)]> (g_edges G) ++ [(w, t)]), length (g_edges G)).

(** [forall_adj_edges(e,w)] visits the edges with source [w] and the edges
    with target [w] (a self-loop twice); these are the pairs of source and
    target it sees. *)
Definition adjEdges (G : Graph) (w : node) : list (node * node) :=
  e ← g_edges G;
  (if decide (e.1 = w) then [e] else []) ++ (if decide (e.2 = w) then [e] else []).

(** ** The acyclicity-preserving edge adder *)

Definition reset_visited (l : list node) (visited : node → bool) : node → bool :=
  foldl (λ vis vi, <[vi := false]> vis) visited l.

(** The [forall_adj_edges(e, w)] loop of [reachable]: [found] tells that the
    loop met [u] and returned; the state is [m_aeVisited] and the queue. *)
Fixpoint reachable_scan (u : node) (es : list (node * node))
    (visited : node → bool) (Q : list node) : bool * (node → bool) * list node :=
  match es with
  | [] => (false, visited, Q)
  | e :: es' =>
    let t := e.2 in
    if decide (t = u) then (true, visited, Q)
    else if visited t then reachable_scan u es' visited Q
    else reachable_scan u es' (<[t := true]> visited) (Q ++ [t])
  end.

(** The [while(!Q.empty())] loop of [reachable]. *)
Fixpoint reachable_loop (fuel : nat) (G : Graph) (u : node)
    (visited : node → bool) (Q successors : list node)
  : option (bool * (node → bool) * list node) :=
  match Q with
  | [] => Some (false, reset_visited successors visited, successors)
  | w :: Q' =>
    match fuel with
    | 0 => None
    | S fuel' =>
      let successors' := successors ++ [w] in
      let '(found, visited', Q'') := reachable_scan u (adjEdges G w) visited Q' in
      if found then Some (true, reset_visited (Q'' ++ successors') visited', [])
      else reachable_loop fuel' G u visited' Q'' successors'
    end
  end.

(** [bool ExtendedNestingGraph::reachable(node v, node u, SListPure<node>
    &successors)], called with an empty list [successors]; the result is the
    answer, [m_aeVisited] and [successors].  The loop pops every node at most
    once, so the number of edges bounds its length. *)
Definition reachable (G : Graph) (v u : node) (m_aeVisited : node → bool)
  : option (bool * (node → bool) * list node) :=
  if decide (u = v) then Some (true, m_aeVisited, [])
  else reachable_loop (S (length (g_edges G))) G u (<[v := true]> m_aeVisited) [v] [].

(** [edge ExtendedNestingGraph::addEdge(node u, node v, bool addAlways)]; the
    state is the graph, [m_aeLevel] and [m_aeVisited]; the result [None] inside
    is [nullptr].  [d] and the levels are [int]s, so the sums are wrapped, and
    [OGDF_ASSERT(d > 0)] fails when the wrapped [d] is not positive. *)
Definition addEdge (G : Graph) (m_aeLevel : node → Z) (m_aeVisited : node → bool)
    (u v : node) (addAlways : bool)
  : option (Graph * (node → Z) * (node → bool) * option edge) :=
  if bool_decide (m_aeLevel u < m_aeLevel v)%Z then
    let '(G', e) := newEdge G u v in Some (G', m_aeLevel, m_aeVisited, Some e)
  else
    '(r, visited', successors) ← reachable G v u m_aeVisited;
    if negb r then
      let d := int_wrap (m_aeLevel u - m_aeLevel v + 1) in
      if bool_decide (0 < d)%Z then
        let level' :=
          foldl (λ lv vi, <[vi := int_wrap (lv vi + d)]> lv) m_aeLevel successors in
        let '(G', e) := newEdge G u v in Some (G', level', visited', Some e)
      else None
    else if addAlways then
      let '(G', e) := newEdge G v u in Some (G', m_aeLevel, visited', Some e)
    else Some (G, m_aeLevel, visited', None).

(** The loops of [moveDown] over the adjacency entries. *)
Definition moveDown_countPreds (G : Graph) (visited : node → bool)
    (auxDeg : node → Z) (vi : node) : node → Z :=
  foldl (λ deg e, if decide (e.1 ≠ vi) then
                    if visited e.1 then <[vi := (deg vi + 1)%Z]> deg else deg
                  else deg)
        auxDeg (adjEdges G vi).

Definition moveDown_release (w : node) (st : (node → Z) * list node)
    (e : node * node) : (node → Z) * list node :=
  let '(auxDeg, Q) := st in
  let t := e.2 in
  if decide (t ≠ w) then
    let auxDeg' := <[t := (auxDeg t - 1)%Z]> auxDeg in
    if bool_decide (auxDeg' t = 0%Z) then (auxDeg', Q ++ [t]) else (auxDeg', Q)
  else (auxDeg, Q).

Definition moveDown_maxLevel (w : node) (level : node → Z) (es : list (node * node)) : Z :=
  foldl (λ m e, if decide (e.1 ≠ w) then Z.max m (level e.1) else m) 0%Z es.

(** The [while(!Q.empty())] loop of [moveDown]. *)
Fixpoint moveDown_loop (fuel : nat) (G : Graph) (level : node → Z)
    (auxDeg : node → Z) (Q : list node) : option ((node → Z) * (node → Z)) :=
  match Q with
  | [] => Some (level, auxDeg)
  | w :: Q' =>
    match fuel with
    | 0 => None
    | S fuel' =>
      let maxLevel := moveDown_maxLevel w level (adjEdges G w) in
      let '(auxDeg', Q'') := foldl (moveDown_release w) (auxDeg, Q') (adjEdges G w) in
      moveDown_loop fuel' G (<[w := (maxLevel + 1)%Z]> level) auxDeg' Q''
    end
  end.

(** [void ExtendedNestingGraph::moveDown(node v, const SListPure<node>
    &successors, NodeArray<int> &level)]; the state is [level], [m_aeVisited]
    and [m_auxDeg]. *)
Definition moveDown (fuel : nat) (G : Graph) (v : node) (successors : list node)
    (level : node → Z) (m_aeVisited : node → bool) (m_auxDeg : node → Z)
  : option ((node → Z) * (node → bool) * (node → Z)) :=
  let visited1 := foldl (λ vis vi, <[vi := true]> vis) m_aeVisited successors in
  let auxDeg1 := foldl (λ deg vi, <[vi := 0%Z]> deg) m_auxDeg successors in
  let auxDeg2 := foldl (moveDown_countPreds G visited1) auxDeg1 successors in
  let '(auxDeg3, Q) := foldl (moveDown_release v) (auxDeg2, []) (adjEdges G v) in
  '(level', auxDeg4) ← moveDown_loop fuel G level auxDeg3 Q;
  Some (level', reset_visited successors visited1, auxDeg4).

(** The state [tryEdge] works on: the crossing reduction graph, [level] and
    the two auxiliary arrays of the nesting graph. *)
Record TryState := mkTryState {
  t_G : Graph;
  t_level : node → Z;
  t_aeVisited : node → bool;
  t_auxDeg : node → Z
}.

(** [bool ExtendedNestingGraph::tryEdge(node u, node v, Graph &G,
    NodeArray<int> &level)] *)
Definition tryEdge (fuel : nat) (st : TryState) (u v : node) : option (TryState * bool) :=
  let G := t_G st in
  let level := t_level st in
  let n := numberOfNodes G in
  let add level' visited' auxDeg' :=
    Some (mkTryState (newEdge G u v).1 level' visited' auxDeg', true) in
  if bool_decide (level u = (-1)%Z) then
    if bool_decide (level v = (-1)%Z)
    then add (<[u := (n - 1)%Z]> (<[v := n]> level)) (t_aeVisited st) (t_auxDeg st)
    else add (<[u := (level v - 1)%Z]> level) (t_aeVisited st) (t_auxDeg st)
  else if bool_decide (level v = (-1)%Z)
  then add (<[v := (level u + 1)%Z]> level) (t_aeVisited st) (t_auxDeg st)
  else if bool_decide (level v ≤ level u)%Z then
    match reachable G v u (t_aeVisited st) with
    | None => None
    | Some (true, visited', _) =>
      Some (mkTryState G level visited' (t_auxDeg st), false)
    | Some (false, visited', successors) =>
      match moveDown fuel G v successors (<[v := (level u + 1)%Z]> level)
                     visited' (t_auxDeg st) with
      | None => None
      | Some (level', visited'', auxDeg') => add level' visited'' auxDeg'
      end
    end
  else add level (t_aeVisited st) (t_auxDeg st).

(** [G] has an edge from [a] to [b]; [u] is reachable from [v] when
    [rtc (has_edge G) v u]. *)
Definition has_edge (G : Graph) (a b : node) : Prop := (a, b) ∈ g_edges G.

(** The number of nodes with an incoming edge that are not marked visited:
    what bounds the nodes [reachable] can still append to its queue. *)
Definition unvisited_in (l : list node) (visited : node → bool) : nat :=
  length (filter (λ t, visited t = false) l).

Definition unvisited (G : Graph) (visited : node → bool) : nat :=
  unvisited_in (remove_dups (g_edges G).*2) visited.

(** [level] is a topological labeling of [G]: every edge goes from a smaller
    to a larger level. *)
Definition topological (G : Graph) (level : node → Z) : Prop :=
  ∀ a b, has_edge G a b → (level a < level b)%Z.

(** No node reaches itself along one or more edges. *)
Definition acyclic (G : Graph) : Prop := ∀ x, ¬ tc (has_edge G) x x.

(** The crossing reduction graph with the edges 0 → 1 → 2 and its levels. *)
Definition chain3 : TryState :=
  mkTryState (mkGraph 3 [(0, 1); (1, 2)])
             (λ x, Z.of_nat x) (λ _, false) (λ _, 0%Z).

(** A nesting graph with the edges 0 → 1 → 2 and a labeling in which an edge
    2 → 0 is refused and an edge 0 → 2 fits. *)
Definition nest3 : Graph := mkGraph 3 [(0, 1); (1, 2)].

(** ** The extended nesting graph *)

(** The cluster graph given to the constructor, as far as the functions below
    read it: the edges of the graph (an original edge is its index), the
    clusters, the cluster of every vertex, and the parent of every cluster
    ([None] for the root). *)
Record ClusterGraph := mkClusterGraph {
  cg_edges : list (node * node);
  cg_clusters : list cluster;
  clusterOf : node → cluster;
  cg_parent : cluster → option cluster;
  rootCluster : cluster
}.

(** [ExtendedNestingGraph::NodeType] *)
Inductive NodeType :=
  ntNode | ntClusterTop | ntClusterBottom | ntDummy | ntClusterTopBottom.

#[global] Instance NodeType_eq_dec : EqDecision NodeType.
Proof. solve_decision. Defined.

(** The members of [ExtendedNestingGraph] that the functions below use.
    [m_mark], [m_markedClustersTree], [m_secondPath] and [m_secondPathTo]
    belong to [lca]; a null cluster is [None]. *)
Record ENG := mkENG {
  eng_G : Graph;
  m_copy : node → node;
  m_topNode : cluster → node;
  m_bottomNode : cluster → node;
  m_copyEdge : edge → list edge;
  m_origEdge : edge → option edge;
  eng_type : node → NodeType;  (* m_type *)
  m_rank : node → Z;
  m_aeLevel : node → Z;
  m_aeVisited : node → bool;
  m_mark : cluster → option cluster;
  m_markedClustersTree : list cluster;
  m_secondPath : option cluster;
  m_secondPathTo : option node
}.

Definition set_graph (H : ENG) (G : Graph) (level : node → Z) (visited : node → bool) : ENG :=
  mkENG G (m_copy H) (m_topNode H) (m_bottomNode H) (m_copyEdge H) (m_origEdge H)
        (eng_type H) (m_rank H) level visited
        (m_mark H) (m_markedClustersTree H) (m_secondPath H) (m_secondPathTo H).

Definition set_lca (H : ENG) (mark : cluster → option cluster) (marked : list cluster)
    (secondPath : option cluster) (secondPathTo : option node) : ENG :=
  mkENG (eng_G H) (m_copy H) (m_topNode H) (m_bottomNode H) (m_copyEdge H) (m_origEdge H)
        (eng_type H) (m_rank H) (m_aeLevel H) (m_aeVisited H)
        mark marked secondPath secondPathTo.

Definition set_chain (H : ENG) (copyEdge : edge → list edge)
    (origEdge : edge → option edge) : ENG :=
  mkENG (eng_G H) (m_copy H) (m_topNode H) (m_bottomNode H) copyEdge origEdge
        (eng_type H) (m_rank H) (m_aeLevel H) (m_aeVisited H)
        (m_mark H) (m_markedClustersTree H) (m_secondPath H) (m_secondPathTo H).

(** [addEdge] as a member function: on the graph, [m_aeLevel] and
    [m_aeVisited] of [H]. *)
Definition ENG_addEdge (H : ENG) (u v : node) (addAlways : bool)
  : option (ENG * option edge) :=
  '(G', level', visited', r) ←
     addEdge (eng_G H) (m_aeLevel H) (m_aeVisited H) u v addAlways;
  Some (set_graph H G' level' visited', r).

(** The [for( ; ; )] loop of [cluster ExtendedNestingGraph::lca(node u, node v)].
    The result is the cluster returned, [m_mark], [m_markedClustersTree],
    [m_secondPath] and [m_secondPathTo]. *)
Fixpoint lca_loop (fuel : nat) (parent : cluster → option cluster) (u v : node)
    (mark : cluster → option cluster) (marked : list cluster)
    (c1 : option cluster) (pred1 : cluster) (c2 : option cluster) (pred2 : cluster)
  : option (cluster * (cluster → option cluster) * list cluster * cluster * node) :=
  match fuel with
  | 0 => None
  | S fuel' =>
    (* if(c1 != nullptr) *)
    let step1 :=
      match c1 with
      | None => inr (mark, marked, c1, pred1)
      | Some c =>
        match mark c with
        | Some _ => inl (c, mark, marked, pred1, u)
        | None => inr (<[c := Some pred1]> mark, marked ++ [c], parent c, c)
        end
      end in
    match step1 with
    | inl r => Some r
    | inr (mark1, marked1, c1', pred1') =>
      (* if(c2 != nullptr) *)
      match c2 with
      | None => lca_loop fuel' parent u v mark1 marked1 c1' pred1' c2 pred2
      | Some c =>
        match mark1 c with
        | Some _ => Some (c, mark1, marked1, pred2, v)
        | None =>
          lca_loop fuel' parent u v (<[c := Some pred2]> mark1) (marked1 ++ [c])
                   c1' pred1' (parent c) c
        end
      end
    end
  end.

(** [cluster ExtendedNestingGraph::lca(node u, node v) const] *)
Definition ENG_lca (fuel : nat) (CG : ClusterGraph) (H : ENG) (u v : node)
  : option (ENG * cluster) :=
  let mark0 := foldl (λ m c, <[c := None]> m) (m_mark H) (m_markedClustersTree H) in
  '(c, mark, marked, secondPath, secondPathTo) ←
     lca_loop fuel (cg_parent CG) u v mark0 []
              (Some (clusterOf CG u)) (clusterOf CG u)
              (Some (clusterOf CG v)) (clusterOf CG v);
  Some (set_lca H mark marked (Some secondPath) (Some secondPathTo), c).

(** A call of [addEdge] made by the constructor: the two ends and whether an
    edge came back. *)
Record Attempt := mkAttempt {
  at_u : node;
  at_v : node;
  at_added : bool
}.

#[global] Instance Attempt_eq_dec : EqDecision Attempt.
Proof. solve_decision. Defined.

(** The ends of the original edge [e] as the second loop of the constructor
    orders them: swapped when the first edge of the chain was reversed. *)
Definition ENG_orientedEnds (CG : ClusterGraph) (H : ENG) (e : edge)
  : option (node * node) :=
  '(src, tgt) ← cg_edges CG !! e;
  front ← head (m_copyEdge H e);
  front_src ← source (eng_G H) front;
  (* e was reversed? *)
  Some (if decide (front_src ≠ m_copy H src) then (tgt, src) else (src, tgt)).

(** The witness clusters [(cFrom, cTo)] read off after [c = lca(u, v)]. *)
Definition ENG_witnesses (H : ENG) (c : cluster) (v : node) : option (cluster * cluster) :=
  markc ← m_mark H c;
  secondPath ← m_secondPath H;
  Some (if decide (m_secondPathTo H = Some v) then (markc, secondPath)
        else (secondPath, markc)).

(** The body of the second [for(edge e : G.edges)] loop of the constructor
    ("additional edges between nodes and clusters"), for the original edge
    [e]; the result is the nesting graph and the calls of [addEdge] made. *)
Definition ENG_clusterOrderEdges_body (fuel : nat) (CG : ClusterGraph) (H : ENG)
    (e : edge) : option (ENG * list Attempt) :=
  '(u, v) ← ENG_orientedEnds CG H e;
  if decide (clusterOf CG u ≠ clusterOf CG v) then
    '(H1, c) ← ENG_lca fuel CG H u v;
    '(cFrom, cTo) ← ENG_witnesses H1 c v;
    '(H2, eH, log1) ←
       (if decide (cFrom ≠ c ∧ cTo ≠ c) then
          '(H', r) ← ENG_addEdge H1 (m_bottomNode H1 cFrom) (m_topNode H1 cTo) false;
          Some (H', r, [mkAttempt (m_bottomNode H1 cFrom) (m_topNode H1 cTo)
                                  (bool_decide (is_Some r))])
        else Some (H1, None, []));
    match eH with
    | Some _ => Some (H2, log1)
    | None =>
      '(H3, r3) ← ENG_addEdge H2 (m_copy H2 u) (m_topNode H2 cTo) false;
      '(H4, r4) ← ENG_addEdge H3 (m_bottomNode H3 cFrom) (m_copy H3 v) false;
      Some (H4, log1 ++ [mkAttempt (m_copy H2 u) (m_topNode H2 cTo)
                                   (bool_decide (is_Some r3));
                         mkAttempt (m_bottomNode H3 cFrom) (m_copy H3 v)
                                   (bool_decide (is_Some r4))])
    end
  else Some (H, []).

(** The first [for(edge e : G.edges)] loop of the constructor ("Add adjacency
    edges"), for the original edge [e]. *)
Definition ENG_adjacencyEdges_body (CG : ClusterGraph) (H : ENG) (e : edge)
  : option ENG :=
  '(src, tgt) ← cg_edges CG !! e;
  '(H1, r) ← ENG_addEdge H (m_copy H src) (m_copy H tgt) true;
  eH ← r;
  Some (set_chain H1 (<[e := m_copyEdge H1 e ++ [eH]]> (m_copyEdge H1))
                  (<[eH := Some e]> (m_origEdge H1))).

Definition ENG_adjacencyEdges (CG : ClusterGraph) (H : ENG) : option ENG :=
  foldl (λ acc e, H' ← acc; ENG_adjacencyEdges_body CG H' e)
        (Some H) (seq 0 (length (cg_edges CG))).

(** What the edge adder keeps true of the nesting graph under construction:
    [m_aeLevel] is a topological labeling and no node is marked visited. *)
Definition ENG_ok (H : ENG) : Prop :=
  topological (eng_G H) (m_aeLevel H) ∧ ∀ x, m_aeVisited H x = false.

(** [H'] differs from [H] at most in the graph, [m_aeLevel], [m_aeVisited] and
    the variables of [lca]. *)
Definition same_arrays (H H' : ENG) : Prop :=
  m_copy H' = m_copy H ∧ m_topNode H' = m_topNode H ∧
  m_bottomNode H' = m_bottomNode H ∧ m_copyEdge H' = m_copyEdge H ∧
  m_origEdge H' = m_origEdge H ∧ eng_type H' = eng_type H ∧ m_rank H' = m_rank H.

(** The example of two sibling clusters: the root 0 with the clusters 1 and 2,
    the vertex 0 in cluster 1, the vertex 1 in cluster 2 and the edge 0 -> 1.
    In the nesting graph the copies are 0 and 1, top and bottom of the cluster
    [c] are [2c+2] and [2c+3]; the edges are the containment edges and the
    adjacency edge, the levels those of [assignAeLevel]. *)
Definition siblings_CG : ClusterGraph :=
  mkClusterGraph [(0, 1)] [0; 1; 2]
    (λ v, match v with 0 => 1 | _ => 2 end)
    (λ c, match c with 0 => None | _ => Some 0 end)
    0.

Definition siblings_level (x : node) : Z :=
  match x with
  | 2 => 0%Z | 4 => 1%Z | 0 => 2%Z | 5 => 3%Z | 6 => 4%Z | 1 => 5%Z | 7 => 6%Z
  | _ => 7%Z
  end.

Definition siblings_H : ENG :=
  mkENG (mkGraph 8 [(4, 0); (0, 5); (6, 1); (1, 7);
                    (2, 4); (5, 3); (4, 5); (2, 6); (7, 3); (6, 7); (0, 1)])
        (λ v, v) (λ c, 2 * c + 2) (λ c, 2 * c + 3)
        (λ e, match e with 0 => [10] | _ => [] end)
        (λ e, match e with 10 => Some 0 | _ => None end)
        (λ x, match x with
              | 0 | 1 => ntNode
              | 2 | 4 | 6 => ntClusterTop
              | _ => ntClusterBottom
              end)
        (λ _, 0%Z) siblings_level (λ _, false)
        (λ _, None) [] None None.

(** The example of a self-loop: one vertex 0 in the root cluster with the edge
    0 -> 0; in the nesting graph its copy is 0, top and bottom of the root are
    1 and 2, and the levels are those of [assignAeLevel]. *)
Definition selfloop_CG : ClusterGraph :=
  mkClusterGraph [(0, 0)] [0] (λ _, 0) (λ _, None) 0.

Definition selfloop_H : ENG :=
  mkENG (mkGraph 3 [(1, 0); (0, 2)])
        (λ v, v) (λ _, 1) (λ _, 2) (λ _, []) (λ _, None)
        (λ x, match x with 0 => ntNode | 1 => ntClusterTop | _ => ntClusterBottom end)
        (λ _, 0%Z)
        (λ x, match x with 1 => 0%Z | 0 => 1%Z | _ => 2%Z end)
        (λ _, false) (λ _, None) [] None None.

(** ** Preference edges of the per-compound crossing reduction *)

(** [struct RCEdge] *)
Record RCEdge := mkRCEdge {
  m_src : node;
  m_tgt : node;
  m_cr : RCCrossings;
  m_crReverse : RCCrossings
}.

(** [RCEdge::weight()] *)
Definition RCEdge_weight (e : RCEdge) : RCCrossings :=
  RCCrossings_sub (m_crReverse e) (m_cr e).

(** Modelled from the spec: [RCCrossings::compare] (declared in the header,
    which is not part of the sources) is the comparison by which the list of
    preference edges is sorted, "largest benefit of preferred direction
    first": it compares the pairs lexicographically and puts the larger count
    first, so it is negative when [x] is larger than [y]. *)
Definition RCCrossings_compare (x y : RCCrossings) : Z :=
  let dc := (m_cnClusters y - m_cnClusters x)%Z in
  if bool_decide (dc ≠ 0%Z) then dc else (m_cnEdges y - m_cnEdges x)%Z.

(** [LocationRelationshipComparer::compare] and the [less] that
    [OGDF_AUGMENT_STATICCOMPARER] derives from it. *)
Definition LocationRelationshipComparer_compare (x y : RCEdge) : Z :=
  RCCrossings_compare (RCEdge_weight x) (RCEdge_weight y).

Definition LocationRelationshipComparer_less (x y : RCEdge) : bool :=
  bool_decide (LocationRelationshipComparer_compare x y < 0)%Z.

(** "list of location relationships" in [reduceCrossings(cNode, dirTopDown)]:
    [cn] is the matrix of crossings, [toG[j]] is the node [j] of the fresh
    graph. *)
Definition locationRelationships (n : nat) (cn : nat → nat → RCCrossings)
  : list RCEdge :=
  j ← seq 0 n;
  k ← seq (S j) (n - S j);
  [if RCCrossings_le (cn j k) (cn k j)
   then mkRCEdge j k (cn j k) (cn k j)
   else mkRCEdge k j (cn k j) (cn j k)].

(** "build acyclic graph": the body of the loop over the sorted list; the
    state is the state of [tryEdge], [numCrossings] and the pairs handed to
    [tryEdge] so far. *)
Definition reduceCrossings_greedy_body (fuel : nat)
    (acc : option (TryState * RCCrossings * list (node * node))) (rce : RCEdge)
  : option (TryState * RCCrossings * list (node * node)) :=
  match acc with
  | None => None
  | Some (st, numCrossings, tried) =>
    match tryEdge fuel st (m_src rce) (m_tgt rce) with
    | None => None
    | Some (st', ok) =>
      Some (st',
            RCCrossings_add numCrossings (if ok then m_cr rce else m_crReverse rce),
            tried ++ [(m_src rce, m_tgt rce)])
    end
  end.

Definition reduceCrossings_greedy (fuel : nat) (st : TryState) (edges : list RCEdge)
  : option (TryState * RCCrossings * list (node * node)) :=
  foldl (reduceCrossings_greedy_body fuel) (Some (st, RCCrossings_zero, [])) edges.

(** The part of [reduceCrossings(cNode, dirTopDown)] from the list of location
    relationships to the acyclic graph. *)
Definition reduceCrossings_preferences
    (quicksort : ∀ E : Type, (E → E → bool) → list E → list E)
    (fuel : nat) (st : TryState) (n : nat) (cn : nat → nat → RCCrossings)
  : option (TryState * RCCrossings * list (node * node)) :=
  reduceCrossings_greedy fuel st
    (quicksort RCEdge LocationRelationshipComparer_less (locationRelationships n cn)).

(** A matrix of crossings for three children, and the fresh graph of three
    nodes with no level set. *)
Definition cn3 (j k : nat) : RCCrossings :=
  match j, k with
  | 0, 1 => mkRCCrossings 0 1
  | 1, 0 => mkRCCrossings 0 4
  | 0, 2 => mkRCCrossings 1 0
  | 2, 0 => mkRCCrossings 0 7
  | 1, 2 => mkRCCrossings 0 2
  | 2, 1 => mkRCCrossings 0 2
  | _, _ => RCCrossings_zero
  end.

Definition fresh3 : TryState :=
  mkTryState (mkGraph 3 []) (λ _, (-1)%Z) (λ _, false) (λ _, 0%Z).

(** The smaller and the larger of two crossing counts. *)
Definition RCCrossings_min (x y : RCCrossings) : RCCrossings :=
  if RCCrossings_le x y then x else y.

Definition RCCrossings_max (x y : RCCrossings) : RCCrossings :=
  if RCCrossings_le x y then y else x.

(** ** Dummy nodes *)

(** [forall_adj_edges(e,w)] as the edges it visits. *)
Definition adjEntries (G : Graph) (w : node) : list edge :=
  e ← seq 0 (length (g_edges G));
  match g_edges G !! e with
  | Some (s, t) => (if decide (s = w) then [e] else []) ++ (if decide (t = w) then [e] else [])
  | None => []
  end.

Definition set_split (H : ENG) (G : Graph) (copyEdge : edge → list edge)
    (origEdge : edge → option edge) (type : node → NodeType) (rank : node → Z) : ENG :=
  mkENG G (m_copy H) (m_topNode H) (m_bottomNode H) copyEdge origEdge type rank
        (m_aeLevel H) (m_aeVisited H)
        (m_mark H) (m_markedClustersTree H) (m_secondPath H) (m_secondPathTo H).

(** The body of the loop "create split nodes" for the original edge [e]; the
    state is the nesting graph and the edge [eH].  A new node has the type
    [ntDummy], the default of [m_type]. *)
Definition createDummyNodes_split (e : edge) (acc : option (ENG * edge)) (i : Z)
  : option (ENG * edge) :=
  '(H, eH) ← acc;
  '(G', eH') ← split (eng_G H) eH;
  w ← source G' eH';
  Some (set_split H G' (<[e := m_copyEdge H e ++ [eH']]> (m_copyEdge H))
                  (<[eH' := Some e]> (m_origEdge H))
                  (<[w := ntDummy]> (eng_type H))
                  (<[w := i]> (m_rank H)),
        eH').

(** The body of the first loop of [createDummyNodes] for the original edge
    [e], as far as it touches the graph, the chains, [m_origEdge], [m_type] and
    [m_rank]; the assignment of clusters to the dummies writes [m_CGC] and the
    marks of [lca] only and is left out.  The bound [m_rank[vH]] of the inner
    loop is read once: the loop writes the rank of new nodes only. *)
Definition createDummyNodes_edge (H : ENG) (e : edge) : option ENG :=
  eH ← head (m_copyEdge H e);
  uH ← source (eng_G H) eH;
  vH ← target (eng_G H) eH;
  let span := (m_rank H vH - m_rank H uH)%Z in
  if decide (span < 1)%Z then None (* OGDF_ASSERT(span >= 1) *)
  else if decide (span < 2)%Z then Some H
  else fst <$> foldl (createDummyNodes_split e) (Some (H, eH))
                     (seqZ (m_rank H uH + 1) (span - 1)).

(** The body of the loop "create split nodes" for an edge from the top to the
    bottom of a cluster. *)
Definition createDummyNodes_splitTopBottom (acc : option (ENG * edge)) (i : Z)
  : option (ENG * edge) :=
  '(H, eH) ← acc;
  '(G', eH') ← split (eng_G H) eH;
  w ← source G' eH';
  Some (set_split H G' (m_copyEdge H) (m_origEdge H)
                  (<[w := ntClusterTopBottom]> (eng_type H))
                  (<[w := i]> (m_rank H)),
        eH').

(** [forall_adj_edges(e,vTop) if(e->target() == vBottom) { ... break; }] *)
Fixpoint createDummyNodes_findTopBottom (H : ENG) (vTop vBottom : node)
    (entries : list edge) : option ENG :=
  match entries with
  | [] => Some H
  | e :: entries' =>
    if decide (target (eng_G H) e = Some vBottom) then
      let span := (m_rank H vBottom - m_rank H vTop)%Z in
      if decide (span < 1)%Z then None (* OGDF_ASSERT(span >= 1) *)
      else if decide (span < 2)%Z
      then createDummyNodes_findTopBottom H vTop vBottom entries' (* continue *)
      else fst <$> foldl createDummyNodes_splitTopBottom (Some (H, e))
                         (seqZ (m_rank H vTop + 1) (span - 1)) (* break *)
    else createDummyNodes_findTopBottom H vTop vBottom entries'
  end.

(** The body of the second loop of [createDummyNodes] for the cluster [c]. *)
Definition createDummyNodes_cluster (CG : ClusterGraph) (H : ENG) (c : cluster)
  : option ENG :=
  if decide (c = rootCluster CG) then Some H
  else createDummyNodes_findTopBottom H (m_topNode H c) (m_bottomNode H c)
         (adjEntries (eng_G H) (m_topNode H c)).

(** [void ExtendedNestingGraph::createDummyNodes()] *)
Definition ENG_createDummyNodes (CG : ClusterGraph) (H : ENG) : option ENG :=
  H1 ← foldl (λ acc e, H' ← acc; createDummyNodes_edge H' e)
             (Some H) (seq 0 (length (cg_edges CG)));
  foldl (λ acc c, H' ← acc; createDummyNodes_cluster CG H' c)
        (Some H1) (cg_clusters CG).

(** The chain [chain] is a directed path of [G] from [s] to [t] along which the
    rank grows by exactly 1 with every edge. *)
Fixpoint ranked_path (G : Graph) (rank : node → Z) (s : node) (chain : list edge)
    (t : node) : Prop :=
  match chain with
  | [] => s = t
  | e :: rest =>
    ∃ m, g_edges G !! e = Some (s, m) ∧ rank m = (rank s + 1)%Z ∧
         ranked_path G rank m rest t
  end.

Definition chain_ok (G : Graph) (rank : node → Z) (chain : list edge) (s t : node) : Prop :=
  chain ≠ [] ∧ ranked_path G rank s chain t.

(** The graph and the ranks after the loop "create split nodes" has run over
    the ranks [rs], started at the edge [eH]; the result also holds the last
    edge split off. *)
Fixpoint splitRun (G : Graph) (rank : node → Z) (eH : edge) (rs : list Z)
  : option (Graph * (node → Z) * edge) :=
  match rs with
  | [] => Some (G, rank, eH)
  | i :: rs' =>
    '(G', eH') ← split G eH;
    w ← source G' eH';
    splitRun G' (<[w := i]> rank) eH' rs'
  end.

(** The ends of every edge are nodes of the graph. *)
Definition Graph_wf (G : Graph) : Prop :=
  ∀ e s t, g_edges G !! e = Some (s, t) → s < nodeIdCount G ∧ t < nodeIdCount G.

(** The ends of the first edge of the chain of the original edge [e]. *)
Definition chain_ends (H : ENG) (e : edge) : node * node :=
  default (0, 0) (head (m_copyEdge H e) ≫= λ h, g_edges (eng_G H) !! h).

(** What holds of the nesting graph [H] when the first loop of
    [createDummyNodes], started on [H0], has handled the original edges below
    [k]: their chains are ranked paths between the ends fixed by [ends], the
    chains of the other edges are still single edges spanning at least one
    rank; the chains share no edge, an edge of a chain starts at the first end
    or at a dummy, and the nodes of [H0] keep their ranks. *)
Definition createDummyNodes_inv (CG : ClusterGraph) (H0 : ENG)
    (ends : edge → node * node) (k : nat) (H : ENG) : Prop :=
  Graph_wf (eng_G H) ∧
  nodeIdCount (eng_G H0) ≤ nodeIdCount (eng_G H) ∧
  (∀ x, x < nodeIdCount (eng_G H0) → m_rank H x = m_rank H0 x) ∧
  m_topNode H = m_topNode H0 ∧
  m_bottomNode H = m_bottomNode H0 ∧
  (∀ e e' h, e < length (cg_edges CG) → e' < length (cg_edges CG) →
             h ∈ m_copyEdge H e → h ∈ m_copyEdge H e' → e = e') ∧
  (∀ e h s t, e < length (cg_edges CG) → h ∈ m_copyEdge H e →
              g_edges (eng_G H) !! h = Some (s, t) →
              s = (ends e).1 ∨ nodeIdCount (eng_G H0) ≤ s) ∧
  (∀ e, e < k → e < length (cg_edges CG) →
        chain_ok (eng_G H) (m_rank H) (m_copyEdge H e) (ends e).1 (ends e).2) ∧
  (∀ e, k ≤ e → e < length (cg_edges CG) →
        ∃ h, m_copyEdge H e = [h] ∧ g_edges (eng_G H) !! h = Some (ends e) ∧
             (1 ≤ m_rank H (ends e).2 - m_rank H (ends e).1)%Z).

(** What [createDummyNodes] needs of the nesting graph it is called on: the
    chain of every original edge is a single edge that goes down by at least
    one rank, two original edges have different chains, and top and bottom of a
    cluster other than the root are nodes of the graph, the top above the
    bottom, and no first end of a chain. *)
Definition createDummyNodes_pre (CG : ClusterGraph) (H : ENG) : Prop :=
  Graph_wf (eng_G H) ∧
  (∀ e, e < length (cg_edges CG) →
        ∃ h s t, m_copyEdge H e = [h] ∧ g_edges (eng_G H) !! h = Some (s, t) ∧
                 (m_rank H s < m_rank H t)%Z) ∧
  (∀ e e', e < length (cg_edges CG) → e' < length (cg_edges CG) →
           m_copyEdge H e = m_copyEdge H e' → e = e') ∧
  (∀ c, c ∈ cg_clusters CG → c ≠ rootCluster CG →
        m_topNode H c < nodeIdCount (eng_G H) ∧
        m_bottomNode H c < nodeIdCount (eng_G H) ∧
        m_topNode H c ≠ m_bottomNode H c ∧
        (m_rank H (m_topNode H c) < m_rank H (m_bottomNode H c))%Z ∧
        ∀ e, e < length (cg_edges CG) → (chain_ends H e).1 ≠ m_topNode H c).

(** [m_rank] as [computeRanking] leaves it. *)
Definition set_rank (H : ENG) (rank : node → Z) : ENG :=
  mkENG (eng_G H) (m_copy H) (m_topNode H) (m_bottomNode H) (m_copyEdge H) (m_origEdge H)
        (eng_type H) rank (m_aeLevel H) (m_aeVisited H)
        (m_mark H) (m_markedClustersTree H) (m_secondPath H) (m_secondPathTo H).

(** The example of long edges: the root 0 with the cluster 1, the vertices 0
    and 2 in the root and the vertex 1 in the cluster, and the edges 0 -> 1,
    1 -> 2 and 0 -> 2.  In the nesting graph the copies are 0, 1 and 2, top and
    bottom of the root 3 and 4, of the cluster 5 and 6; the edges are those of
    the cluster (containment, and top to bottom) and the adjacency edges 3, 4
    and 5; the ranks put 0, top, 1, bottom and 2 on the layers 0 to 4. *)
Definition span_CG : ClusterGraph :=
  mkClusterGraph [(0, 1); (1, 2); (0, 2)] [0; 1]
    (λ v, match v with 1 => 1 | _ => 0 end)
    (λ c, match c with 0 => None | _ => Some 0 end)
    0.

Definition span_H : ENG :=
  mkENG (mkGraph 7 [(5, 1); (1, 6); (5, 6); (0, 1); (1, 2); (0, 2)])
        (λ v, v) (λ c, 2 * c + 3) (λ c, 2 * c + 4)
        (λ e, match e with 0 => [3] | 1 => [4] | 2 => [5] | _ => [] end)
        (λ e, match e with 3 => Some 0 | 4 => Some 1 | 5 => Some 2 | _ => None end)
        (λ x, match x with
              | 0 | 1 | 2 => ntNode
              | 3 | 5 => ntClusterTop
              | _ => ntClusterBottom
              end)
        (λ x, match x with
              | 5 => 1%Z | 1 => 2%Z | 6 => 3%Z | 2 => 4%Z | _ => 0%Z
              end)
        (λ _, 0%Z) (λ _, false) (λ _, None) [] None None.

(** The example of a cycle: the vertices 0 and 1 in the root with the edges
    0 -> 1 and 1 -> 0.  In the nesting graph before the adjacency edges are
    added the copies are 0 and 1, top and bottom of the root 2 and 3, and the
    levels are those of [assignAeLevel]; the ranking puts the copy of 0 on
    layer 0 and the copy of 1 on layer 1. *)
Definition cycle_CG : ClusterGraph :=
  mkClusterGraph [(0, 1); (1, 0)] [0] (λ _, 0) (λ _, None) 0.

Definition cycle_H : ENG :=
  mkENG (mkGraph 4 [(2, 0); (0, 3); (2, 1); (1, 3)])
        (λ v, v) (λ _, 2) (λ _, 3) (λ _, []) (λ _, None)
        (λ x, match x with 0 | 1 => ntNode | 2 => ntClusterTop | _ => ntClusterBottom end)
        (λ _, 0%Z)
        (λ x, match x with 2 => 0%Z | 0 => 1%Z | 1 => 2%Z | _ => 3%Z end)
        (λ _, false) (λ _, None) [] None None.

Definition cycle_rank (x : node) : Z :=
  match x with 1 => 1%Z | _ => 0%Z end.

(** A crossing count as the sweeps report it: no component is negative. *)
Definition RCCrossings_nonneg (x : RCCrossings) : Prop :=
  (0 ≤ m_cnClusters x)%Z ∧ (0 ≤ m_cnEdges x)%Z.

(** The cluster [k] steps above [c] in the cluster tree: [c->parent()] taken
    [k] times, [None] above the root. *)
Fixpoint cluster_ancestor (parent : cluster → option cluster) (k : nat) (c : cluster)
  : option cluster :=
  match k with
  | 0 => Some c
  | S k' => cluster_ancestor parent k' c ≫= parent
  end.

(** The cluster one step below the [k]-th ancestor of [c] on the way up from
    [c]; [c] itself for [k = 0]. *)
Definition cluster_below (parent : cluster → option cluster) (c : cluster) (k : nat)
  : cluster :=
  match k with
  | 0 => c
  | S k' => default c (cluster_ancestor parent k' c)
  end.

(** The variable [pred1] (or [pred2]) of [lca] after [k] rounds of its loop on
    the walk that started at [c]. *)
Fixpoint lca_pred (parent : cluster → option cluster) (c : cluster) (k : nat) : cluster :=
  match k with
  | 0 => c
  | S k' =>
    match cluster_ancestor parent k' c with
    | Some x => x
    | None => lca_pred parent c k'
    end
  end.

(** [m_mark] and [m_markedClustersTree] when the walk from [c1] has made [k1]
    steps and the walk from [c2] has made [k2]: the clusters passed are marked
    with the cluster the walk came from, no other cluster is marked, and the
    list holds the marked clusters. *)
Definition lca_marks (parent : cluster → option cluster) (c1 c2 : cluster)
    (k1 k2 : nat) (mark : cluster → option cluster) (marked : list cluster) : Prop :=
  (∀ k x, k < k1 → cluster_ancestor parent k c1 = Some x →
          mark x = Some (lca_pred parent c1 k)) ∧
  (∀ k x, k < k2 → cluster_ancestor parent k c2 = Some x →
          mark x = Some (lca_pred parent c2 k)) ∧
  (∀ x, mark x ≠ None →
        (∃ k, k < k1 ∧ cluster_ancestor parent k c1 = Some x) ∨
        (∃ k, k < k2 ∧ cluster_ancestor parent k c2 = Some x)) ∧
  (∀ x, mark x ≠ None ↔ x ∈ marked).

(** ** The constructor: containment edges and the seed of [m_aeLevel] *)

(** The vertices and the child clusters of every cluster, in the order in
    which [c->nBegin()] and [c->children] list them. *)
Record ClusterTree := mkClusterTree {
  ct_nodes : cluster → list node;
  ct_children : cluster → list cluster
}.

(** [void ExtendedNestingGraph::assignAeLevel(cluster c, int &count)]; the
    state is [m_aeLevel] and [count]. *)
Fixpoint ENG_assignAeLevel (fuel : nat) (T : ClusterTree) (H : ENG) (c : cluster)
    (st : (node → Z) * Z) : option ((node → Z) * Z) :=
  match fuel with
  | 0 => None
  | S fuel' =>
    let '(level, count) := st in
    let level := <[m_topNode H c := count]> level in
    let count := (count + 1)%Z in
    let '(level, count) :=
      foldl (λ st v, (<[m_copy H v := st.2]> st.1, (st.2 + 1)%Z))
            (level, count) (ct_nodes T c) in
    '(level, count) ←
      foldl (λ acc child, st' ← acc; ENG_assignAeLevel fuel' T H child st')
            (Some (level, count)) (ct_children T c);
    Some (<[m_bottomNode H c := count]> level, (count + 1)%Z)
  end.

(** The loops "Create edges" of the constructor, on the nodes [nodes] of the
    graph; [c->parent()] of a cluster other than the root is dereferenced. *)
Definition ENG_containmentEdges (CG : ClusterGraph) (nodes : list node) (H : ENG)
  : option Graph :=
  let G1 :=
    foldl (λ G v,
             let vH := m_copy H v in
             let c := clusterOf CG v in
             let G := (newEdge G (m_topNode H c) vH).1 in
             (newEdge G vH (m_bottomNode H c)).1)
          (eng_G H) nodes in
  foldl (λ acc c,
           G ← acc;
           if decide (c ≠ rootCluster CG) then
             u ← cg_parent CG c;
             let G := (newEdge G (m_topNode H u) (m_topNode H c)).1 in
             let G := (newEdge G (m_bottomNode H c) (m_bottomNode H u)).1 in
             Some (newEdge G (m_topNode H c) (m_bottomNode H c)).1
           else Some G)
        (Some G1) (cg_clusters CG).

(** [m_aeLevel[x] = count++] for the nodes [l], in order. *)
Definition assignAeLevel_number (l : list node) (st : (node → Z) * Z) : (node → Z) * Z :=
  foldl (λ st x, (<[x := st.2]> st.1, (st.2 + 1)%Z)) st l.

(** The nodes in the order in which [assignAeLevel(c, count)] numbers them. *)
Fixpoint assignAeLevel_order (fuel : nat) (T : ClusterTree) (H : ENG) (c : cluster)
  : list node :=
  match fuel with
  | 0 => []
  | S fuel' =>
    m_topNode H c :: (m_copy H <$> ct_nodes T c)
      ++ (ct_children T c ≫= assignAeLevel_order fuel' T H)
      ++ [m_bottomNode H c]
  end.

(** [x] stands before [y] in the list [l]. *)
Definition before {A} (l : list A) (x y : A) : Prop :=
  ∃ l1 l2 l3, l = l1 ++ x :: l2 ++ y :: l3.

(** The cluster tree [T] lists what the cluster graph holds: every vertex is
    listed in its cluster, every cluster other than the root is listed in its
    parent, and all of them hang below the root. *)
Definition ClusterTree_of (CG : ClusterGraph) (nodes : list node) (T : ClusterTree)
  : Prop :=
  (∀ v, v ∈ nodes →
        v ∈ ct_nodes T (clusterOf CG v) ∧
        rtc (λ a b, b ∈ ct_children T a) (rootCluster CG) (clusterOf CG v)) ∧
  (∀ c, c ∈ cg_clusters CG → c ≠ rootCluster CG →
        ∃ u, cg_parent CG c = Some u ∧ c ∈ ct_children T u ∧
             rtc (λ a b, b ∈ ct_children T a) (rootCluster CG) u).

(** The two sibling clusters as a tree, and their nesting graph when the
    constructor has created the nodes and no edge yet. *)
Definition siblings_T : ClusterTree :=
  mkClusterTree (λ c, match c with 1 => [0] | 2 => [1] | _ => [] end)
                (λ c, match c with 0 => [1; 2] | _ => [] end).

Definition siblings_H0 : ENG :=
  mkENG (mkGraph 8 [])
        (λ v, v) (λ c, 2 * c + 2) (λ c, 2 * c + 3)
        (λ _, []) (λ _, None)
        (λ x, match x with
              | 0 | 1 => ntNode
              | 2 | 4 | 6 => ntClusterTop
              | _ => ntClusterBottom
              end)
        (λ _, 0%Z) (λ _, (-1)%Z) (λ _, false)
        (λ _, None) [] None None.

(** The sum of the weights of the entries of [l] between the vertex [u] and
    the tree node [v]. *)
Definition adj_weight (u : node) (v : ptr) (l : list Adjacency) : Z :=
  foldr (λ a s, if decide (m_u a = u ∧ m_v a = v) then (m_weight a + s)%Z else s) 0%Z l.

(** The vertices of the leaves below the tree node at [p], from left to
    right. *)
Fixpoint LHT_leaves (fuel : nat) (h : gmap ptr LHTreeNode) (p : ptr)
  : option (list node) :=
  match fuel with
  | 0 => None
  | S fuel' =>
    nd ← h !! p;
    if isCompound nd then
      foldl (λ acc c, l ← acc; l' ← LHT_leaves fuel' h c; Some (l ++ l'))
            (Some []) (m_child nd)
    else Some [m_node nd]
  end.

(** [m_pos[v] = count++] for the vertices [l], in order. *)
Definition assignPos_number (l : list node) (st : gmap node Z * Z) : gmap node Z * Z :=
  foldl (λ st v, (<[v := st.2]> st.1, (st.2 + 1)%Z)) st l.

(** ** The state of tryEdge between calls *)

(** The number of nodes of the graph whose level is not set. *)
Definition unset_count (st : TryState) : nat :=
  length (filter (λ x, t_level st x = (-1)%Z) (seq 0 (nodeIdCount (t_G st)))).

(** What [tryEdge] keeps true of the crossing reduction graph: [level] is a
    topological labeling, no node is marked visited, the ends of every edge
    have their level set, and a level that is set belongs to a node of the
    graph and is larger than the number of nodes whose level is not set (so
    that a level that is set is never [-1]). *)
Definition try_inv (st : TryState) : Prop :=
  Graph_wf (t_G st) ∧
  topological (t_G st) (t_level st) ∧
  (∀ x, t_aeVisited st x = false) ∧
  (∀ a b, has_edge (t_G st) a b →
          t_level st a ≠ (-1)%Z ∧ t_level st b ≠ (-1)%Z) ∧
  (∀ x, t_level st x ≠ (-1)%Z →
        x < nodeIdCount (t_G st) ∧ (Z.of_nat (unset_count st) < t_level st x)%Z).

(** The number of entries of [es] that satisfy [f]. *)
Fixpoint count_edges (f : node * node → bool) (es : list (node * node)) : Z :=
  match es with
  | [] => 0%Z
  | e :: es' => ((if f e then 1 else 0) + count_edges f es')%Z
  end.

(** The number of edges into [t] that come from a node of [S] not in [P]:
    what [m_auxDeg[t]] holds in [moveDown] when the nodes [P] are done. *)
Definition moveDown_pending (G : Graph) (S P : list node) (t : node) : Z :=
  count_edges (λ e, bool_decide (e.2 = t ∧ e.1 ∈ S ∧ e.1 ∉ P)) (g_edges G).

(** The state of the loop of [moveDown], called for the edge [u -> v] on the
    successors [S] of [v], when the nodes [P] are done and [Q] is the queue:
    [m_auxDeg] counts the edges that come from successors not done yet, a
    successor other than [v] is done or queued exactly when that count is 0,
    the nodes not done have the level they had (for [v], the level of [u] plus
    1), a node that is done lies above all its predecessors and above [v],
    and no level is more than the number of nodes done above the bound [M] of
    the levels before. *)
Definition moveDown_inv (G : Graph) (lev : node → Z) (u v : node) (S P Q : list node)
    (M : Z) (level auxDeg : node → Z) : Prop :=
  NoDup (P ++ Q) ∧ v ∈ P ∧ (∀ x, x ∈ P ++ Q → x ∈ S) ∧
  (∀ t, t ∈ S → auxDeg t = moveDown_pending G S P t) ∧
  (∀ t, t ∈ S → t ≠ v → (t ∈ P ++ Q ↔ moveDown_pending G S P t = 0%Z)) ∧
  (∀ x, x ∉ P ∨ x = v → level x = <[v := (lev u + 1)%Z]> lev x) ∧
  (∀ w, w ∈ P → w ≠ v →
        (lev u + 1 < level w)%Z ∧ ∀ s, has_edge G s w → (level s < level w)%Z) ∧
  (∀ x, (level x ≤ M + Z.of_nat (length P))%Z).

(** The number of the nodes below [n] whose level is not set. *)
Definition unset_in (level : node → Z) (n : nat) : nat :=
  length (filter (λ x, level x = (-1)%Z) (seq 0 n)).

(** What the greedy loop leaves behind when the calls of [tryEdge] on the
    preference edges [edges] had the outcomes [oks]: each edge that was
    accepted is added to the graph, and [numCrossings] grows by [m_cr] of an
    accepted and by [m_crReverse] of a refused edge. *)
Fixpoint greedy_result (G : Graph) (num : RCCrossings) (edges : list RCEdge)
    (oks : list bool) : Graph * RCCrossings :=
  match edges, oks with
  | e :: edges', ok :: oks' =>
    greedy_result (if ok then (newEdge G (m_src e) (m_tgt e)).1 else G)
                  (RCCrossings_add num (if ok then m_cr e else m_crReverse e))
                  edges' oks'
  | _, _ => (G, num)
  end.

(** The outcomes [oks] are the right ones for the preference edges [edges]
    tried in order from the graph [G]: an edge is accepted when its source
    cannot be reached from its target in the graph that the edges accepted
    before it have given, and refused when it can. *)
Fixpoint greedy_outcomes (G : Graph) (edges : list RCEdge) (oks : list bool) : Prop :=
  match edges, oks with
  | [], [] => True
  | e :: edges', ok :: oks' =>
    (if ok then ¬ rtc (has_edge G) (m_tgt e) (m_src e)
     else rtc (has_edge G) (m_tgt e) (m_src e)) ∧
    greedy_outcomes (if ok then (newEdge G (m_src e) (m_tgt e)).1 else G) edges' oks'
  | _, _ => False
  end.

(** ** What the attempts of the constructor leave behind *)

(** The edges that the successful calls of a log have added, in order. *)
Definition attempt_edges (log : list Attempt) : list (node * node) :=
  a ← log; if at_added a then [(at_u a, at_v a)] else [].

(** The graph [G] with the edges [es] added at the end. *)
Definition Graph_addEdges (G : Graph) (es : list (node * node)) : Graph :=
  mkGraph (nodeIdCount G) (g_edges G ++ es).

(** The log entry of a call [addEdge(a, b)] that may refuse, made on the graph
    [G], is right: the edge was added when [a] cannot be reached from [b], and
    refused when it can. *)
Definition attempt_on (G : Graph) (a : Attempt) : Prop :=
  if at_added a then ¬ rtc (has_edge G) (at_v a) (at_u a)
  else rtc (has_edge G) (at_v a) (at_u a).

(** The two calls that relax an adjacency to one between a vertex and a
    cluster: [copy(u) -> top(cTo)], and [bottom(cFrom) -> copy(v)] on the graph
    the first call leaves. *)
Definition relaxed_attempts (H : ENG) (u v : node) (cFrom cTo : cluster)
    (log : list Attempt) : Prop :=
  ∃ added2 added3 : bool,
    let a2 := mkAttempt (m_copy H u) (m_topNode H cTo) added2 in
    let a3 := mkAttempt (m_bottomNode H cFrom) (m_copy H v) added3 in
    attempt_on (eng_G H) a2 ∧
    attempt_on (Graph_addEdges (eng_G H) (attempt_edges [a2])) a3 ∧
    log = [a2; a3].

(** The calls of [addEdge] that the claim describes for an original edge with
    the ends [u], [v], the lowest common ancestor [c] and the witness
    clusters [cFrom], [cTo]: the edge between the clusters if both witnesses
    differ from [c], and the two relaxed edges if that call was not made or
    gave no edge. *)
Definition clusterOrder_attempts (H : ENG) (u v : node) (c cFrom cTo : cluster)
    (log : list Attempt) : Prop :=
  let first := mkAttempt (m_bottomNode H cFrom) (m_topNode H cTo) in
  if decide (cFrom ≠ c ∧ cTo ≠ c) then
    (attempt_on (eng_G H) (first true) ∧ log = [first true]) ∨
    (attempt_on (eng_G H) (first false) ∧
     ∃ log', relaxed_attempts H u v cFrom cTo log' ∧ log = first false :: log')
  else relaxed_attempts H u v cFrom cTo log.

(** The example of a reversed edge between clusters: the root 0 with the
    cluster 1, the vertex 0 in the root and the vertex 1 in the cluster, and
    the edges 0 -> 1 and 1 -> 0.  In the nesting graph the copies are 0 and 1,
    top and bottom of the root 2 and 3, of the cluster 4 and 5; the edges are
    the containment edges, the levels those of [assignAeLevel]. *)
Definition reversed_CG : ClusterGraph :=
  mkClusterGraph [(0, 1); (1, 0)] [0; 1]
    (λ v, match v with 0 => 0 | _ => 1 end)
    (λ c, match c with 0 => None | _ => Some 0 end)
    0.

Definition reversed_H : ENG :=
  mkENG (mkGraph 6 [(2, 0); (0, 3); (4, 1); (1, 5); (2, 4); (5, 3); (4, 5)])
        (λ v, v) (λ c, 2 * c + 2) (λ c, 2 * c + 3)
        (λ _, []) (λ _, None)
        (λ x, match x with
              | 0 | 1 => ntNode
              | 2 | 4 => ntClusterTop
              | _ => ntClusterBottom
              end)
        (λ _, 0%Z)
        (λ x, match x with
              | 2 => 0%Z | 0 => 1%Z | 4 => 2%Z | 1 => 3%Z | 5 => 4%Z | _ => 5%Z
              end)
        (λ _, false) (λ _, None) [] None None.

(** ** The size of a layer and the numbering of all layers *)

(** The sum of the sizes [f c] of the nodes [c] of [l]. *)
Definition sum_sizes (f : ptr → option nat) (l : list ptr) : option nat :=
  foldr (λ c acc, n ← f c; m ← acc; Some (n + m)) (Some 0) l.

(** The number of tree nodes below and including the node at [p]; [fuel]
    bounds the depth. *)
Fixpoint LHT_size (fuel : nat) (h : gmap ptr LHTreeNode) (p : ptr) : option nat :=
  match fuel with
  | 0 => None
  | S fuel' =>
    nd ← h !! p;
    if isCompound nd then S <$> sum_sizes (LHT_size fuel' h) (m_child nd)
    else Some 1
  end.

(** The positions after the leaves of every layer, given from left to right
    in [leaves], were numbered from 0, one layer after the other. *)
Definition number_layers (leaves : list (list node)) (m_pos : gmap node Z)
  : gmap node Z :=
  foldl (λ pos l, (assignPos_number l (pos, 0%Z)).1) m_pos leaves.

(** A crossing reduction graph with the edge 0 -> 1 and the levels 1, 2 and
    1 of its three nodes: the edge 2 -> 0 makes [moveDown] lift 0 and 1. *)
Definition down3 : TryState :=
  mkTryState (mkGraph 3 [(0, 1)])
             (λ x, match x with 0 => 1%Z | 1 => 2%Z | 2 => 1%Z | _ => (-1)%Z end)
             (λ _, false) (λ _, 0%Z).

(** The cluster tree of [reversed_CG], and its nesting graph when the
    constructor has created the nodes and no edge yet. *)
Definition reversed_T : ClusterTree :=
  mkClusterTree (λ c, match c with 0 => [0] | 1 => [1] | _ => [] end)
                (λ c, match c with 0 => [1] | _ => [] end).

Definition reversed_H0 : ENG :=
  mkENG (mkGraph 6 [])
        (λ v, v) (λ c, 2 * c + 2) (λ c, 2 * c + 3)
        (λ _, []) (λ _, None)
        (λ x, match x with
              | 0 | 1 => ntNode
              | 2 | 4 => ntClusterTop
              | _ => ntClusterBottom
              end)
        (λ _, 0%Z) (λ _, (-1)%Z) (λ _, false)
        (λ _, None) [] None None.

(** * Proofs *)

(** ** removeAuxChildren *)

Section removeAuxChildren.
Context (h : gmap ptr LHTreeNode) (orig : list ptr).
Hypothesis Hnodup : NoDup orig.
Hypothesis Hvalid : ∀ c, c ∈ orig → is_Some (h !! c).

Lemma removeAux_inv_0 : removeAux_inv h orig 0 (Some (orig, 0, h)).
Proof.
  exists orig, 0, h. split_and!; auto.
Qed.

Lemma removeAux_inv_step i st :
  i < length orig →
  removeAux_inv h orig i st →
  removeAux_inv h orig (S i) (removeAuxChildren_body st i).
Proof.
  intros Hi (a & j & h' & -> & Hlen & Htake & Hdrop & Hji & Hheap).
  destruct (lookup_lt_is_Some_2 orig i Hi) as [c Hc].
  assert (Hac : a !! i = Some c).
  { rewrite <- (take_drop i a), lookup_app_r by (rewrite length_take; lia).
    rewrite length_take, Hdrop, lookup_drop.
    replace (i + (i - i `min` length a)) with i by lia. done. }
  assert (Hcin : c ∈ orig) by (eapply list_elem_of_lookup_2; eauto).
  destruct (Hvalid c Hcin) as [nd Hnd].
  assert (Hcfresh : c ∉ take i orig).
  { intros Hin. apply list_elem_of_lookup in Hin as [k Hk].
    pose proof (lookup_lt_Some _ _ _ Hk) as Hklt. rewrite length_take in Hklt.
    rewrite lookup_take_lt in Hk by lia.
    pose proof (NoDup_lookup _ _ _ _ Hnodup Hk Hc). lia. }
  assert (Hh'c : h' !! c = Some nd).
  { rewrite Hheap. case_decide as Hq; [by destruct Hq|done]. }
  assert (Htake_S : take (S i) orig = take i orig ++ [c])
    by (by apply take_S_r).
  unfold removeAuxChildren_body; simpl. rewrite Hac; simpl. rewrite Hh'c; simpl.
  case_decide as Hty.
  - (* kept: m_child[j++] = m_child[i] *)
    assert (HnA : nonAux h c).
    { unfold nonAux, childType. rewrite Hnd. simpl. congruence. }
    exists (<[j := c]> a), (S j), h'. split_and!.
    + done.
    + by rewrite length_insert.
    + rewrite Htake_S, filter_app, filter_cons_True, filter_nil by done.
      rewrite <- Htake.
      assert (j < length a) by lia.
      rewrite (take_S_r _ _ c) by (by apply list_lookup_insert_eq).
      by rewrite take_insert_ge by lia.
    + rewrite drop_insert_lt by lia.
      replace (S i) with (i + 1) by lia.
      by rewrite <- !drop_drop, Hdrop.
    + lia.
    + intros q. rewrite Hheap, Htake_S.
      repeat case_decide; try done; exfalso.
      * assert (q = c) as -> by set_solver. unfold nonAux, isAux in *. naive_solver.
      * set_solver.
  - (* deleted *)
    assert (HA : isAux h c).
    { unfold isAux, childType. rewrite Hnd. simpl. f_equal.
      destruct (decide (m_type nd = AuxNode)); [done|]. by destruct Hty. }
    exists a, j, (delete c h'). split_and!.
    + done.
    + done.
    + rewrite Htake_S, filter_app, filter_cons_False, filter_nil, app_nil_r.
      * done.
      * unfold nonAux. unfold isAux in HA. rewrite HA. naive_solver.
    + replace (S i) with (i + 1) by lia.
      by rewrite <- !drop_drop, Hdrop.
    + lia.
    + intros q. rewrite Htake_S.
      destruct (decide (q = c)) as [->|Hne].
      * rewrite lookup_delete_eq. case_decide as Hq; [done|].
        exfalso. apply Hq. split; [|done]. apply elem_of_app. right.
        by apply list_elem_of_singleton.
      * rewrite lookup_delete_ne by done. rewrite Hheap.
        repeat case_decide; try done; exfalso; set_solver.
Qed.

Lemma removeAux_inv_loop n :
  n ≤ length orig →
  removeAux_inv h orig n (foldl removeAuxChildren_body (Some (orig, 0, h)) (seq 0 n)).
Proof.
  induction n as [|n IH]; intros Hn.
  - apply removeAux_inv_0.
  - rewrite seq_S, foldl_app. simpl.
    apply removeAux_inv_step; [lia|]. apply IH. lia.
Qed.
End removeAuxChildren.

Lemma filter_nonAux_isAux_length h (l : list ptr) :
  length (filter (nonAux h) l) + length (filter (isAux h) l) = length l.
Proof.
  induction l as [|c l IH]; [done|].
  rewrite !filter_cons. unfold nonAux, isAux in *.
  destruct (decide (childType h c = Some AuxNode)) as [E|E];
    repeat case_decide; simpl; try lia; naive_solver.
Qed.

(** C10. On a compound node whose child array holds distinct live pointers,
    [removeAuxChildren] succeeds and leaves exactly the children that are not
    of type [AuxNode], in their previous relative order; the number of children
    drops by the number of [AuxNode] children, those are deleted, and the
    children that stay are not touched. *)
Theorem removeAuxChildren_removes_exactly_aux
    (h : gmap ptr LHTreeNode) (p : ptr) (nd : LHTreeNode) :
  h !! p = Some nd →
  m_type nd = Compound →
  NoDup (m_child nd) →
  (∀ c, c ∈ m_child nd → is_Some (h !! c)) →
  p ∉ m_child nd →
  ∃ h',
    LHTreeNode_removeAuxChildren h p = Some h' ∧
    h' !! p = Some (set_child (filter (nonAux h) (m_child nd)) nd) ∧
    length (filter (nonAux h) (m_child nd))
      + length (filter (isAux h) (m_child nd)) = length (m_child nd) ∧
    (∀ c, c ∈ m_child nd → isAux h c → h' !! c = None) ∧
    (∀ c, c ∈ m_child nd → nonAux h c → h' !! c = h !! c).
Proof.
  intros Hp Hty Hnd Hval Hnotin.
  destruct (removeAux_inv_loop h (m_child nd) Hnd Hval (length (m_child nd)))
    as (a & j & h' & Hloop & Hlen & Htake & Hdrop & Hji & Hheap); [lia|].
  rewrite firstn_all in Htake, Hheap.
  assert (Hh'p : h' !! p = Some nd).
  { rewrite Hheap. case_decide as Hq; [by destruct Hq|done]. }
  set (kept := filter (nonAux h) (m_child nd)) in *.
  assert (Hj : j = length kept).
  { rewrite <- Htake, length_take. lia. }
  assert (Ha' : (if decide (Z.of_nat j - Z.of_nat (length (m_child nd)) ≠ 0)%Z
                 then Array_grow a (Z.of_nat j - Z.of_nat (length (m_child nd))) nullptr
                 else a) = kept).
  { case_decide as Hadd.
    - unfold Array_grow. case_decide; [lia|].
      rewrite <- Htake. f_equal. lia.
    - assert (j = length a) by lia. subst j.
      rewrite <- Htake. rewrite H. by rewrite firstn_all. }
  exists (<[p := set_child kept nd]> h'). split_and!.
  - unfold LHTreeNode_removeAuxChildren. rewrite Hp. simpl.
    unfold isCompound. rewrite bool_decide_eq_true_2 by done.
    rewrite Hloop. simpl. rewrite Hh'p. simpl. by rewrite Ha'.
  - by rewrite lookup_insert_eq.
  - apply filter_nonAux_isAux_length.
  - intros c Hc HA. rewrite lookup_insert_ne by (intros ->; done).
    rewrite Hheap. by rewrite decide_True.
  - intros c Hc HA. rewrite lookup_insert_ne by (intros ->; done).
    rewrite Hheap. rewrite decide_False; [done|].
    intros [_ HA']. unfold nonAux, isAux in *. done.
Qed.

Lemma removeAuxChildren_removes_exactly_aux_witness :
  ∃ h',
    LHTreeNode_removeAuxChildren aux_layer 1 = Some h' ∧
    h' !! 1 = Some (compoundNode nullptr 0 [2; 4]) ∧
    2 + 1 = 3 ∧
    (∀ c, c ∈ [2; 3; 4] → isAux aux_layer c → h' !! c = None) ∧
    (∀ c, c ∈ [2; 3; 4] → nonAux aux_layer c → h' !! c = aux_layer !! c).
Proof.
  apply (removeAuxChildren_removes_exactly_aux aux_layer 1
           (compoundNode nullptr 0 [2; 3; 4])).
  - reflexivity.
  - reflexivity.
  - simpl. repeat (apply NoDup_cons; split; [set_solver|]). apply NoDup_nil_2.
  - intros c Hc. simpl in Hc.
    repeat (apply elem_of_cons in Hc as [->|Hc]; [by eexists|]).
    by apply elem_of_nil in Hc.
  - set_solver.
Defined.

(** ** storeCurrentPos and restorePos *)

Lemma set_storedChild_idem nd a :
  set_storedChild (m_child (set_storedChild a nd)) (set_storedChild a nd)
  = set_storedChild (m_child nd) nd.
Proof. by destruct nd. Qed.

Lemma set_child_stored nd :
  set_child (m_storedChild (set_storedChild (m_child nd) nd))
            (set_storedChild (m_child nd) nd)
  = set_storedChild (m_child nd) nd.
Proof. by destruct nd. Qed.

Lemma LHTreeNode_store_Some h p nd :
  h !! p = Some nd →
  LHTreeNode_store h p = Some (<[p := set_storedChild (m_child nd) nd]> h).
Proof. intros Hp. unfold LHTreeNode_store. by rewrite Hp. Qed.

Lemma LHTreeNode_restore_Some h p nd :
  h !! p = Some nd →
  LHTreeNode_restore h p = Some (<[p := set_child (m_storedChild nd) nd]> h).
Proof. intros Hp. unfold LHTreeNode_restore. by rewrite Hp. Qed.

Lemma snapshot_of_refl h : snapshot_of h h.
Proof. intros p. by left. Qed.

Lemma snapshot_of_trans h1 h2 h3 :
  snapshot_of h1 h2 → snapshot_of h2 h3 → snapshot_of h1 h3.
Proof.
  intros H12 H23 p.
  destruct (H12 p) as [E12|(nd & E1 & E2)], (H23 p) as [E23|(nd' & E2' & E3)].
  - left. congruence.
  - right. exists nd'. split; congruence.
  - right. exists nd. split; congruence.
  - right. exists nd. split; [done|].
    rewrite E3. rewrite E2 in E2'. injection E2' as <-.
    by rewrite set_storedChild_idem.
Qed.

Lemma snapshot_of_store h p nd :
  h !! p = Some nd →
  snapshot_of h (<[p := set_storedChild (m_child nd) nd]> h).
Proof.
  intros Hp q. destruct (decide (q = p)) as [->|Hne].
  - right. exists nd. by rewrite lookup_insert_eq.
  - left. by rewrite lookup_insert_ne.
Qed.

Lemma snapshot_of_skeleton h h1 : snapshot_of h h1 → same_skeleton h h1.
Proof.
  intros H p. destruct (H p) as [->|(nd & -> & ->)]; [done|].
  by destruct nd.
Qed.

Lemma store_walk_snapshot fuel Q h h1 :
  ENGLayer_walkCompound LHTreeNode_store fuel Q h = Some h1 → snapshot_of h h1.
Proof.
  revert Q h. induction fuel as [|fuel IH]; intros [|p Q] h Hw; simpl in Hw;
    simplify_eq; try apply snapshot_of_refl.
  destruct (h !! p) as [nd|] eqn:Hp; simpl in Hw; [|done].
  destruct (isCompound nd).
  - rewrite (LHTreeNode_store_Some _ _ _ Hp) in Hw. simpl in Hw.
    rewrite lookup_insert_eq in Hw. simpl in Hw.
    eapply snapshot_of_trans; [by apply snapshot_of_store|]. by eapply IH.
  - by eapply IH.
Qed.

(** A layer that was stored is a fixed point of [restore], also after more
    snapshots were taken elsewhere. *)
Lemma store_walk_restore fuel Q h h' h1 :
  ENGLayer_walkCompound LHTreeNode_store fuel Q h = Some h' →
  snapshot_of h' h1 →
  ENGLayer_walkCompound LHTreeNode_restore fuel Q h1 = Some h1.
Proof.
  revert Q h. induction fuel as [|fuel IH]; intros [|p Q] h Hw Hsnap;
    simpl in Hw; simplify_eq; try done.
  destruct (h !! p) as [nd|] eqn:Hp; simpl in Hw; [|done].
  destruct (isCompound nd) eqn:Hc.
  - rewrite (LHTreeNode_store_Some _ _ _ Hp) in Hw. simpl in Hw.
    rewrite lookup_insert_eq in Hw. simpl in Hw.
    set (x := set_storedChild (m_child nd) nd) in *.
    assert (Hx : h1 !! p = Some x).
    { pose proof (snapshot_of_trans _ _ _ (store_walk_snapshot _ _ _ _ Hw) Hsnap) as Hs.
      destruct (Hs p) as [E|(nd' & E1 & E2)]; rewrite lookup_insert_eq in *.
      - done.
      - injection E1 as <-. rewrite E2. unfold x. by rewrite set_storedChild_idem. }
    simpl. rewrite Hx. simpl.
    replace (isCompound x) with true by (by destruct nd).
    rewrite (LHTreeNode_restore_Some _ _ _ Hx). simpl.
    assert (set_child (m_child nd) x = x) as -> by (by destruct nd).
    rewrite insert_id by done. rewrite Hx. simpl.
    replace (m_child x) with (m_child nd) by (by destruct nd).
    by eapply IH.
  - assert (Hx : ∃ x, h1 !! p = Some x ∧ isCompound x = false).
    { pose proof (snapshot_of_trans _ _ _ (store_walk_snapshot _ _ _ _ Hw) Hsnap) as Hs.
      destruct (Hs p) as [E|(nd' & E1 & E2)].
      - exists nd. split; congruence.
      - exists (set_storedChild (m_child nd') nd'). split; [done|].
        rewrite Hp in E1. injection E1 as <-. by destruct nd. }
    destruct Hx as (x & Hx & Hxc). simpl. rewrite Hx. simpl. rewrite Hxc.
    by eapply IH.
Qed.

Lemma storeCurrentPos_snapshot fuel m_layer h h1 :
  ExtendedNestingGraph_storeCurrentPos fuel m_layer h = Some h1 →
  snapshot_of h h1.
Proof.
  unfold ExtendedNestingGraph_storeCurrentPos.
  revert h. induction m_layer as [|r rs IH]; intros h Hs; simpl in Hs.
  - injection Hs as <-. apply snapshot_of_refl.
  - destruct (ENGLayer_store fuel h r) as [h'|] eqn:Hr; simpl in Hs.
    + eapply snapshot_of_trans; [by eapply store_walk_snapshot|]. by apply IH.
    + exfalso. clear -Hs. induction rs as [|r' rs' IH']; simpl in Hs; [done|].
      by apply IH'.
Qed.

Lemma storeCurrentPos_restore fuel m_layer h h1 :
  ExtendedNestingGraph_storeCurrentPos fuel m_layer h = Some h1 →
  ∀ root, root ∈ m_layer → ENGLayer_restore fuel h1 root = Some h1.
Proof.
  unfold ExtendedNestingGraph_storeCurrentPos.
  revert h. induction m_layer as [|r rs IH]; intros h Hs root Hin.
  - by apply elem_of_nil in Hin.
  - simpl in Hs.
    destruct (ENGLayer_store fuel h r) as [h'|] eqn:Hr; simpl in Hs.
    + apply elem_of_cons in Hin as [->|Hin].
      * eapply store_walk_restore; [exact Hr|].
        by apply (storeCurrentPos_snapshot fuel rs).
      * by eapply IH.
    + exfalso. clear -Hs. induction rs as [|r' rs' IH']; simpl in Hs; [done|].
      by apply IH'.
Qed.

Lemma assignPos_skeleton fuel h h1 :
  same_skeleton h h1 →
  ∀ p st, ExtendedNestingGraph_assignPos fuel h1 p st
          = ExtendedNestingGraph_assignPos fuel h p st.
Proof.
  intros Hsk. induction fuel as [|fuel IH]; intros p st; [done|].
  simpl. specialize (Hsk p).
  destruct (h !! p) as [nd|], (h1 !! p) as [nd1|]; simpl in *; try done.
  injection Hsk as E1 E2 E3 E4 E5 E6 E7.
  unfold isCompound. rewrite E4, E5.
  case_bool_decide; [|by rewrite E3].
  generalize (Some st). generalize (m_child nd1). clear -IH.
  intros cs. induction cs as [|c cs IHc]; intros acc; [done|].
  simpl. rewrite IHc. f_equal. destruct acc; simpl; [apply IH|done].
Qed.

(** The child orders after [storeCurrentPos; restorePos] are those before, in
    every state in which the two calls return. *)
Lemma storeCurrentPos_restorePos_children fuel m_layer h h1 m_pos st :
  ExtendedNestingGraph_storeCurrentPos fuel m_layer h = Some h1 →
  ExtendedNestingGraph_restorePos fuel m_layer (h1, m_pos) = Some st →
  st.1 = h1 ∧ ∀ p, m_child <$> st.1 !! p = m_child <$> h !! p.
Proof.
  intros Hs Hr.
  assert (E : st.1 = h1).
  { pose proof (storeCurrentPos_restore _ _ _ _ Hs) as Hres.
    unfold ExtendedNestingGraph_restorePos in Hr.
    revert m_pos Hr. clear Hs. induction m_layer as [|r rs IH]; intros m_pos Hr.
    - simpl in Hr. by injection Hr as <-.
    - simpl in Hr. rewrite (Hres r) in Hr by set_solver. simpl in Hr.
      destruct (ExtendedNestingGraph_assignPos fuel h1 r (m_pos, 0%Z))
        as [[m_pos' count]|]; simpl in Hr.
      + eapply IH; [|exact Hr]. intros. apply Hres. set_solver.
      + exfalso. clear -Hr. induction rs as [|r' rs' IH']; simpl in Hr; [done|].
        by apply IH'. }
  split; [done|]. rewrite E. intros p.
  pose proof (snapshot_of_skeleton _ _ (storeCurrentPos_snapshot _ _ _ _ Hs) p) as Hp.
  destruct (h !! p) as [nd|], (h1 !! p) as [nd1|]; simpl in *; try done.
  by injection Hp as _ _ _ _ <- _ _.
Qed.

Lemma assignPos_number_app l1 l2 st :
  assignPos_number (l1 ++ l2) st = assignPos_number l2 (assignPos_number l1 st).
Proof. unfold assignPos_number. by rewrite foldl_app. Qed.

Lemma assignPos_number_count l : ∀ st,
  (assignPos_number l st).2 = (st.2 + Z.of_nat (length l))%Z.
Proof.
  induction l as [|x l IH]; intros st; simpl; [lia|].
  unfold assignPos_number in *. rewrite IH. simpl. lia.
Qed.

Lemma assignPos_number_other l (x : node) : ∀ st,
  x ∉ l → (assignPos_number l st).1 !! x = st.1 !! x.
Proof.
  induction l as [|y l IH]; intros st Hx; simpl; [done|].
  unfold assignPos_number in *. rewrite IH by set_solver. simpl.
  rewrite lookup_insert_ne; [done|set_solver].
Qed.

Lemma assignPos_number_lookup l : ∀ st k (x : node),
  NoDup l → l !! k = Some x →
  (assignPos_number l st).1 !! x = Some (st.2 + Z.of_nat k)%Z.
Proof.
  induction l as [|y l IH]; intros st k x Hnd Hk; [done|].
  apply NoDup_cons in Hnd as [Hy Hnd].
  destruct k as [|k]; simpl in Hk.
  - injection Hk as ->. simpl.
    pose proof (assignPos_number_other l x (<[x:=st.2]> st.1, (st.2 + 1)%Z) Hy) as Ho.
    unfold assignPos_number in *. rewrite Ho. simpl.
    rewrite lookup_insert_eq. f_equal. lia.
  - simpl. unfold assignPos_number in *. rewrite (IH _ k x Hnd Hk). simpl.
    f_equal. lia.
Qed.

Lemma foldl_bind_None {A B} (f : A → B → option A) (l : list B) :
  foldl (λ acc b, a ← acc; f a b) None l = None.
Proof. by induction l. Qed.

Lemma assignPos_leaves h fuel : ∀ p st,
  ExtendedNestingGraph_assignPos fuel h p st
  = l ← LHT_leaves fuel h p; Some (assignPos_number l st).
Proof.
  induction fuel as [|fuel IH]; intros p st; [done|].
  cbn [ExtendedNestingGraph_assignPos LHT_leaves].
  destruct (h !! p) as [nd|]; [|done]. simpl.
  destruct (isCompound nd); [|done].
  assert (∀ cs accl,
            foldl (λ acc c, st' ← acc; ExtendedNestingGraph_assignPos fuel h c st')
                  (Some (assignPos_number accl st)) cs
            = l ← foldl (λ acc c, l ← acc; l' ← LHT_leaves fuel h c; Some (l ++ l'))
                        (Some accl) cs;
              Some (assignPos_number l st)) as Hkids.
  { induction cs as [|c cs IHc]; intros accl; [done|].
    cbn [foldl]. simpl. rewrite IH.
    destruct (LHT_leaves fuel h c) as [l'|]; simpl.
    - rewrite <- assignPos_number_app. apply IHc.
    - by rewrite !foldl_bind_None. }
  apply (Hkids (m_child nd) []).
Qed.

Lemma LHT_size_pos d h p n : LHT_size d h p = Some n → 1 ≤ n.
Proof.
  destruct d as [|d]; [done|]. simpl.
  destruct (h !! p) as [nd|]; [|done]. simpl.
  destruct (isCompound nd); [|intros [= <-]; lia].
  destruct (sum_sizes (LHT_size d h) (m_child nd)); simpl; [|done].
  intros [= <-]. lia.
Qed.

Lemma sum_sizes_mono (f g : ptr → option nat) l : ∀ N,
  (∀ c n, f c = Some n → g c = Some n) →
  sum_sizes f l = Some N → sum_sizes g l = Some N.
Proof.
  induction l as [|c l IH]; intros N Hfg Hs; [done|]. simpl in *.
  destruct (f c) as [n|] eqn:Hc; [|done]. simpl in Hs.
  rewrite (Hfg c n Hc). simpl.
  destruct (sum_sizes f l) as [m|]; [|done].
  by rewrite (IH m Hfg eq_refl).
Qed.

Lemma sum_sizes_app (f : ptr → option nat) l1 l2 n1 n2 :
  sum_sizes f l1 = Some n1 → sum_sizes f l2 = Some n2 →
  sum_sizes f (l1 ++ l2) = Some (n1 + n2).
Proof.
  revert n1. induction l1 as [|c l1 IH]; intros n1 H1 H2; simpl in *.
  - by injection H1 as <-.
  - destruct (f c) as [n|]; [|done]. simpl in *.
    destruct (sum_sizes f l1) as [m|]; [|done]. simpl in H1. injection H1 as <-.
    rewrite (IH m eq_refl H2). simpl. f_equal. lia.
Qed.

Lemma LHT_size_S d h : ∀ p n, LHT_size d h p = Some n → LHT_size (S d) h p = Some n.
Proof.
  induction d as [|d IH]; intros p n Hs; [done|].
  cbn [LHT_size] in Hs |- *.
  destruct (h !! p) as [nd|]; [|done]. simpl in *.
  destruct (isCompound nd); [|done].
  destruct (sum_sizes (LHT_size d h) (m_child nd)) as [m|] eqn:Hm; [|done].
  by rewrite (sum_sizes_mono _ _ _ m IH Hm).
Qed.

Lemma LHT_size_skeleton d h h' :
  same_skeleton h h' → ∀ p n, LHT_size d h p = Some n → LHT_size d h' p = Some n.
Proof.
  intros Hsk. induction d as [|d IH]; intros p n Hs; [done|].
  cbn [LHT_size] in Hs |- *. specialize (Hsk p).
  destruct (h !! p) as [nd|], (h' !! p) as [nd'|]; simpl in *; try done.
  injection Hsk as E1 E2 E3 E4 E5 E6 E7.
  unfold isCompound in *. rewrite <- E4, <- E5.
  case_bool_decide; [|done].
  destruct (sum_sizes (LHT_size d h) (m_child nd)) as [m|] eqn:Hm; [|done].
  by rewrite (sum_sizes_mono _ _ _ m IH Hm).
Qed.

(** The walk of [ENGLayer::store] returns when the fuel covers the number of
    tree nodes below the queue. *)
Lemma store_walk_total d : ∀ fuel Q h N,
  sum_sizes (LHT_size d h) Q = Some N → N ≤ fuel →
  is_Some (ENGLayer_walkCompound LHTreeNode_store fuel Q h).
Proof.
  induction fuel as [|fuel IH]; intros [|p Q] h N Hs Hle; try done.
  - simpl in Hs. destruct (LHT_size d h p) as [n|] eqn:Hp; [|done].
    apply LHT_size_pos in Hp. simpl in Hs.
    destruct (sum_sizes (LHT_size d h) Q); simplify_eq/=. lia.
  - simpl in Hs. destruct (LHT_size d h p) as [n|] eqn:Hn; [|done]. simpl in Hs.
    destruct (sum_sizes (LHT_size d h) Q) as [N'|] eqn:HQ; [|done].
    simpl in Hs. injection Hs as <-.
    pose proof (LHT_size_pos _ _ _ _ Hn) as Hpos.
    destruct d as [|d]; [done|]. cbn [LHT_size] in Hn.
    cbn [ENGLayer_walkCompound].
    destruct (h !! p) as [nd|] eqn:Hp; [|done]. simpl in Hn |- *.
    destruct (isCompound nd) eqn:Hc.
    + destruct (sum_sizes (LHT_size d h) (m_child nd)) as [m|] eqn:Hm; [|done].
      simpl in Hn. injection Hn as <-.
      rewrite (LHTreeNode_store_Some _ _ _ Hp). simpl.
      rewrite lookup_insert_eq. simpl.
      apply (IH _ _ (N' + m)); [|lia].
      apply sum_sizes_app.
      * eapply sum_sizes_mono; [|exact HQ].
        apply LHT_size_skeleton, snapshot_of_skeleton. by apply snapshot_of_store.
      * eapply sum_sizes_mono; [|exact Hm]. intros c n Hcn.
        apply LHT_size_S in Hcn. revert Hcn.
        apply LHT_size_skeleton, snapshot_of_skeleton. by apply snapshot_of_store.
    + apply (IH _ _ N'); [done|lia].
Qed.

Lemma same_skeleton_trans h1 h2 h3 :
  same_skeleton h1 h2 → same_skeleton h2 h3 → same_skeleton h1 h3.
Proof. intros H12 H23 p. by rewrite H12. Qed.

Lemma storeCurrentPos_total fuel m_layer : ∀ h0 h,
  same_skeleton h0 h →
  (∀ root, root ∈ m_layer → ∃ n, LHT_size fuel h0 root = Some n ∧ n ≤ fuel) →
  is_Some (ExtendedNestingGraph_storeCurrentPos fuel m_layer h).
Proof.
  unfold ExtendedNestingGraph_storeCurrentPos.
  induction m_layer as [|r rs IH]; intros h0 h Hsk Hsize; [done|].
  simpl. destruct (Hsize r) as (n & Hn & Hle); [set_solver|].
  destruct (store_walk_total fuel fuel [r] h (n + 0)) as [h' Hh']; [|lia|].
  { simpl. by rewrite (LHT_size_skeleton _ _ _ Hsk _ _ Hn). }
  unfold ENGLayer_store. rewrite Hh'.
  apply (IH h0).
  - eapply same_skeleton_trans; [exact Hsk|].
    by eapply snapshot_of_skeleton, store_walk_snapshot.
  - intros root Hin. apply Hsize. set_solver.
Qed.

Lemma restorePos_numbers fuel h h1 (l : list ptr) (leaves : list (list node)) :
  same_skeleton h h1 →
  (∀ root, root ∈ l → ENGLayer_restore fuel h1 root = Some h1) →
  Forall2 (λ root lv, LHT_leaves fuel h root = Some lv) l leaves →
  ∀ m_pos, ExtendedNestingGraph_restorePos fuel l (h1, m_pos)
           = Some (h1, number_layers leaves m_pos).
Proof.
  intros Hsk Hres Hlv. unfold ExtendedNestingGraph_restorePos, number_layers.
  induction Hlv as [|r lv rs lvs Hr _ IH]; intros m_pos; [done|].
  simpl. rewrite (Hres r) by set_solver. simpl.
  rewrite (assignPos_skeleton _ _ _ Hsk), assignPos_leaves, Hr. simpl.
  rewrite (surjective_pairing (assignPos_number lv (m_pos, 0%Z))) at 1.
  apply IH. intros. apply Hres. set_solver.
Qed.

Lemma number_layers_other leaves (x : node) : ∀ m_pos,
  x ∉ concat leaves → number_layers leaves m_pos !! x = m_pos !! x.
Proof.
  unfold number_layers.
  induction leaves as [|l ls IH]; intros m_pos Hx; [done|].
  simpl in *. rewrite IH by set_solver.
  rewrite assignPos_number_other; [done|set_solver].
Qed.

Lemma number_layers_lookup leaves : ∀ m_pos l i (x : node),
  NoDup (concat leaves) → l ∈ leaves → l !! i = Some x →
  number_layers leaves m_pos !! x = Some (Z.of_nat i).
Proof.
  induction leaves as [|l0 ls IH]; intros m_pos l i x Hnd Hl Hi.
  - by apply elem_of_nil in Hl.
  - simpl in Hnd. apply NoDup_app in Hnd as (Hnd0 & Hdisj & Hnds).
    change (number_layers (l0 :: ls) m_pos)
      with (number_layers ls (assignPos_number l0 (m_pos, 0%Z)).1).
    apply elem_of_cons in Hl as [->|Hl].
    + rewrite number_layers_other.
      * rewrite (assignPos_number_lookup l0 _ i x Hnd0 Hi). simpl. done.
      * apply Hdisj. by eapply list_elem_of_lookup_2.
    + by eapply IH.
Qed.

(** C7 (amended). For layers that are trees within reach of the walks,
    [storeCurrentPos] followed at once by [restorePos] returns and leaves the
    heap of tree nodes as [storeCurrentPos] left it, so the child order of
    every node of every layer is the one before the two calls, whatever
    [m_pos] was.  [restorePos] numbers the leaves of every layer again, from
    left to right and from 0: when the leaves stand for pairwise different
    vertices, the [i]-th leaf of a layer has the position [i] afterwards and
    no other vertex changes its position, so [m_pos] is unchanged exactly
    when it agreed with that numbering before, and is overwritten with it
    otherwise. *)
Theorem storeCurrentPos_restorePos_identity (fuel : nat) (m_layer : list ptr)
    (h : gmap ptr LHTreeNode) (m_pos : gmap node Z) (leaves : list (list node)) :
  (∀ root, root ∈ m_layer → ∃ n, LHT_size fuel h root = Some n ∧ n ≤ fuel) →
  Forall2 (λ root l, LHT_leaves fuel h root = Some l) m_layer leaves →
  ∃ h1 m_pos',
    ExtendedNestingGraph_storeCurrentPos fuel m_layer h = Some h1 ∧
    ExtendedNestingGraph_restorePos fuel m_layer (h1, m_pos) = Some (h1, m_pos') ∧
    (∀ p, m_child <$> h1 !! p = m_child <$> h !! p) ∧
    m_pos' = number_layers leaves m_pos ∧
    (NoDup (concat leaves) →
     (∀ l i x, l ∈ leaves → l !! i = Some x → m_pos' !! x = Some (Z.of_nat i)) ∧
     (∀ x, x ∉ concat leaves → m_pos' !! x = m_pos !! x) ∧
     (m_pos' = m_pos ↔
      ∀ l i x, l ∈ leaves → l !! i = Some x → m_pos !! x = Some (Z.of_nat i))).
Proof.
  intros Hsize Hlv.
  destruct (storeCurrentPos_total fuel m_layer h h) as [h1 Hs]; [done|done|].
  pose proof (snapshot_of_skeleton _ _ (storeCurrentPos_snapshot _ _ _ _ Hs)) as Hsk.
  pose proof (restorePos_numbers fuel h h1 m_layer leaves Hsk
                (storeCurrentPos_restore _ _ _ _ Hs) Hlv m_pos) as Hr.
  exists h1, (number_layers leaves m_pos).
  split; [done|]. split; [done|]. split.
  { by apply (storeCurrentPos_restorePos_children _ _ _ _ _ _ Hs Hr). }
  split; [done|]. intros Hnd.
  assert (Hnum : ∀ l i x, l ∈ leaves → l !! i = Some x →
            number_layers leaves m_pos !! x = Some (Z.of_nat i)).
  { intros l i x. by apply number_layers_lookup. }
  split; [done|]. split; [intros x; apply number_layers_other|].
  split.
  - intros E l i x Hl Hi. rewrite <- E. by eapply Hnum.
  - intros Hagree. apply map_eq. intros x.
    destruct (decide (x ∈ concat leaves)) as [Hx|Hx].
    + apply list_elem_of_In, in_concat in Hx as (l & Hl & Hxl).
      apply list_elem_of_In in Hl, Hxl.
      apply list_elem_of_lookup_1 in Hxl as [i Hi].
      by rewrite (Hnum l i x Hl Hi), (Hagree l i x Hl Hi).
    + by apply number_layers_other.
Qed.

Lemma storeCurrentPos_restorePos_identity_witness :
  ∃ h1 m_pos',
    ExtendedNestingGraph_storeCurrentPos 3 [4; 1] two_layers = Some h1 ∧
    ExtendedNestingGraph_restorePos 3 [4; 1] (h1, two_layers_pos) = Some (h1, m_pos') ∧
    (∀ p, m_child <$> h1 !! p = m_child <$> two_layers !! p) ∧
    m_pos' = number_layers [[12]; [10; 11]] two_layers_pos ∧
    (NoDup (concat [[12]; [10; 11]]) →
     (∀ l i x, l ∈ [[12]; [10; 11]] → l !! i = Some x → m_pos' !! x = Some (Z.of_nat i)) ∧
     (∀ x, x ∉ concat [[12]; [10; 11]] → m_pos' !! x = two_layers_pos !! x) ∧
     (m_pos' = two_layers_pos ↔
      ∀ l i x, l ∈ [[12]; [10; 11]] → l !! i = Some x →
               two_layers_pos !! x = Some (Z.of_nat i))).
Proof.
  apply (storeCurrentPos_restorePos_identity 3 [4; 1] two_layers two_layers_pos
           [[12]; [10; 11]]).
  - intros root Hin.
    apply elem_of_cons in Hin as [->|Hin]; [exists 2; split; [reflexivity|lia]|].
    apply elem_of_cons in Hin as [->|Hin]; [exists 3; split; [reflexivity|lia]|].
    by apply elem_of_nil in Hin.
  - repeat constructor.
Defined.

(** C7 as stated fails for [pos]: after [permute] only the top layer is
    numbered again, so on the lower layer [m_pos] is stale; [restorePos]
    then numbers that layer again and the vertex 10 moves from 0 to 1. *)
Lemma storeCurrentPos_restorePos_changes_pos :
  ∃ hp h1 m_pos',
    ExtendedNestingGraph_permute reverse 3 [4; 1] (two_layers, two_layers_pos)
      = Some (hp, two_layers_pos) ∧
    ExtendedNestingGraph_storeCurrentPos 3 [4; 1] hp = Some h1 ∧
    ExtendedNestingGraph_restorePos 3 [4; 1] (h1, two_layers_pos)
      = Some (h1, m_pos') ∧
    two_layers_pos !! 10 = Some 0%Z ∧
    m_pos' !! 10 = Some 1%Z.
Proof.
  eexists _, _, _. split_and!; reflexivity.
Qed.

(** ** simplifyAdjacencies *)

Lemma AdjacencyComparer_less_key h x y :
  AdjacencyComparer_less h x y = true ↔ key_lt (adjKey h x) (adjKey h y).
Proof.
  unfold AdjacencyComparer_less, AdjacencyComparer_compare, adjKey, key_lt.
  rewrite bool_decide_eq_true. simpl.
  destruct (isCompound (h !!! m_v x)), (isCompound (h !!! m_v y)); simpl;
    repeat case_bool_decide; lia.
Qed.

Lemma AdjacencyComparer_less_key_false h x y :
  AdjacencyComparer_less h x y = false ↔ ¬ key_lt (adjKey h x) (adjKey h y).
Proof.
  rewrite <- AdjacencyComparer_less_key.
  destruct (AdjacencyComparer_less h x y); naive_solver.
Qed.

Lemma key_lt_irrefl k : ¬ key_lt k k.
Proof. unfold key_lt. lia. Qed.

Lemma key_lt_trans k1 k2 k3 : key_lt k1 k2 → key_lt k2 k3 → key_lt k1 k3.
Proof. unfold key_lt. lia. Qed.

Lemma key_lt_total k1 k2 : key_lt k1 k2 ∨ k1 = k2 ∨ key_lt k2 k1.
Proof.
  destruct k1 as [[a1 b1] c1], k2 as [[a2 b2] c2]. unfold key_lt. simpl.
  destruct (decide (a1 = a2)), (decide (b1 = b2)), (decide (c1 = c2));
    subst; try (right; left; reflexivity); lia.
Qed.

Lemma key_nlt_trans k1 k2 k3 : ¬ key_lt k1 k2 → ¬ key_lt k2 k3 → ¬ key_lt k1 k3.
Proof. unfold key_lt. lia. Qed.

Lemma AdjacencyComparer_swo h : strict_weak_order (AdjacencyComparer_less h).
Proof.
  split_and!.
  - intros x. apply AdjacencyComparer_less_key_false, key_lt_irrefl.
  - intros x y z. rewrite !AdjacencyComparer_less_key. apply key_lt_trans.
  - intros x y z. rewrite !AdjacencyComparer_less_key_false. apply key_nlt_trans.
Qed.

Lemma adjKey_same h a b :
  m_u a = m_u b → m_v a = m_v b → adjKey h a = adjKey h b.
Proof. unfold adjKey. by intros -> ->. Qed.

(** The merging loop on a sorted list whose entries are distinguished by their
    keys yields a list in strictly increasing order of keys, whose keys are
    keys of the input, starting with the key of the first entry. *)
Lemma simplifyAdjacencies_loop_sorted h rest : ∀ it,
  adj_distinct h (it :: rest) →
  StronglySorted (λ x y, ¬ key_lt (adjKey h y) (adjKey h x)) (it :: rest) →
  StronglySorted (λ x y, key_lt (adjKey h x) (adjKey h y))
                 (simplifyAdjacencies_loop it rest) ∧
  (∀ x, x ∈ simplifyAdjacencies_loop it rest →
        ∃ y, y ∈ it :: rest ∧ adjKey h x = adjKey h y) ∧
  (∀ x, x ∈ simplifyAdjacencies_loop it rest →
        adjKey h x = adjKey h it ∨ key_lt (adjKey h it) (adjKey h x)).
Proof.
  induction rest as [|nx rest IH]; intros it Hd Hs.
  - simpl. split_and!.
    + repeat constructor.
    + intros x Hx. apply list_elem_of_singleton in Hx as ->. exists it. set_solver.
    + intros x Hx. apply list_elem_of_singleton in Hx as ->. by left.
  - simpl. apply StronglySorted_inv in Hs as [Hs Hall].
    pose proof Hs as Hs'. apply StronglySorted_inv in Hs' as [Hs' Hall'].
    case_bool_decide as Hsame.
    + destruct Hsame as [Eu Ev].
      set (it' := mkAdjacency (m_u it) (m_v it) (int_wrap (m_weight it + m_weight nx))).
      assert (Hk : adjKey h it' = adjKey h it) by (by apply adjKey_same).
      assert (Hk' : adjKey h it' = adjKey h nx) by (by apply adjKey_same).
      destruct (IH it') as (IH1 & IH2 & IH3).
      * intros a b Ha Hb Hab.
        assert (∀ c, c ∈ it' :: rest →
                     ∃ c', c' ∈ it :: nx :: rest ∧ adjKey h c = adjKey h c'
                           ∧ m_u c = m_u c' ∧ m_v c = m_v c') as Hrep.
        { intros c Hc. apply elem_of_cons in Hc as [->|Hc].
          - exists it. split_and!; [set_solver|done..].
          - exists c. split_and!; [set_solver|done..]. }
        destruct (Hrep a Ha) as (a' & Ha' & Eka & Eua & Eva).
        destruct (Hrep b Hb) as (b' & Hb' & Ekb & Eub & Evb).
        destruct (Hd a' b' Ha' Hb') as [? ?]; [congruence|]. split; congruence.
      * constructor; [done|]. rewrite Hk'.
        rewrite Forall_forall in Hall'. rewrite Forall_forall. intros y Hy.
        apply Hall'. done.
      * split_and!; [done| |].
        -- intros x Hx. destruct (IH2 x Hx) as (y & Hy & Ey).
           apply elem_of_cons in Hy as [->|Hy].
           ++ exists it. split; [set_solver|congruence].
           ++ exists y. split; [set_solver|done].
        -- intros x Hx. rewrite <- Hk. by apply IH3.
    + destruct (IH nx) as (IH1 & IH2 & IH3); [|done|].
      { intros a b Ha Hb. apply Hd; set_solver. }
      assert (Hlt : key_lt (adjKey h it) (adjKey h nx)).
      { destruct (key_lt_total (adjKey h it) (adjKey h nx)) as [?|[E|Hgt]]; [done| |].
        - exfalso. apply Hsame. apply Hd; [set_solver..|done].
        - exfalso. rewrite Forall_forall in Hall. apply (Hall nx); [set_solver|done]. }
      split_and!.
      * constructor; [done|]. rewrite Forall_forall. intros x Hx.
        destruct (IH3 x Hx) as [->|Hx']; [done|]. by eapply key_lt_trans.
      * intros x Hx. apply elem_of_cons in Hx as [->|Hx].
        -- exists it. split; [set_solver|done].
        -- destruct (IH2 x Hx) as (y & Hy & Ey). exists y. split; [set_solver|done].
      * intros x Hx. apply elem_of_cons in Hx as [->|Hx]; [by left|].
        right. destruct (IH3 x Hx) as [->|Hx']; [done|]. by eapply key_lt_trans.
Qed.

(** On a list in strictly increasing order the merging loop has nothing to
    merge. *)
Lemma simplifyAdjacencies_loop_fixed h rest : ∀ it,
  StronglySorted (λ x y, key_lt (adjKey h x) (adjKey h y)) (it :: rest) →
  simplifyAdjacencies_loop it rest = it :: rest.
Proof.
  induction rest as [|nx rest IH]; intros it Hs; [done|].
  simpl. apply StronglySorted_inv in Hs as [Hs Hall].
  rewrite bool_decide_eq_false_2.
  - f_equal. by apply IH.
  - intros [Eu Ev]. rewrite Forall_forall in Hall.
    specialize (Hall nx). rewrite (adjKey_same h it nx Eu Ev) in Hall.
    eapply key_lt_irrefl, Hall. set_solver.
Qed.

(** A list in strictly increasing order is the only sorted arrangement of its
    entries. *)
Lemma sorted_perm_unique {E} (lt : E → E → Prop) (l : list E) : ∀ l',
  (∀ x, ¬ lt x x) →
  StronglySorted lt l →
  StronglySorted (λ x y, ¬ lt y x) l' →
  l' ≡ₚ l →
  l' = l.
Proof.
  intros l' Hirr. revert l'.
  induction l as [|x l IH]; intros l' Hl Hl' Hp.
  - by apply Permutation_nil_r in Hp.
  - destruct l' as [|y l']; [by apply Permutation_nil_cons in Hp|].
    apply StronglySorted_inv in Hl as [Hl Hall].
    apply StronglySorted_inv in Hl' as [Hl' Hall'].
    rewrite Forall_forall in Hall, Hall'.
    assert (y = x) as ->.
    { assert (y ∈ x :: l) as Hy by (rewrite <- Hp; set_solver).
      apply elem_of_cons in Hy as [?|Hy]; [done|].
      assert (x ∈ y :: l') as Hx by (rewrite Hp; set_solver).
      apply elem_of_cons in Hx as [?|Hx]; [done|].
      exfalso. apply (Hall' x Hx). by apply Hall. }
    f_equal. apply IH; [done..|]. by eapply Permutation_cons_inv.
Qed.

Lemma StronglySorted_mono {E} (R R' : E → E → Prop) l :
  (∀ x y, R x y → R' x y) → StronglySorted R l → StronglySorted R' l.
Proof.
  intros HR. induction 1 as [|x l Hs IH Hall]; constructor; [done|].
  eapply Forall_impl; [exact Hall|]. intros y. apply HR.
Qed.

Lemma AdjacencyComparer_less_ext h h' :
  same_attributes h h' →
  ∀ x y, AdjacencyComparer_less h x y = AdjacencyComparer_less h' x y.
Proof.
  intros Ha x y. unfold AdjacencyComparer_less, AdjacencyComparer_compare, isCompound.
  destruct (Ha (m_v x)) as (-> & -> & ->), (Ha (m_v y)) as (-> & -> & ->). done.
Qed.

Lemma adjKey_ext h h' a : same_attributes h h' → adjKey h a = adjKey h' a.
Proof.
  intros Ha. unfold adjKey, isCompound.
  by destruct (Ha (m_v a)) as (-> & -> & ->).
Qed.

Section simplifyAdjacencies_proofs.
Variable quicksort : ∀ E : Type, (E → E → bool) → list E → list E.
Hypothesis quicksort_sorts : sorts quicksort.

Lemma quicksort_key_sorted h l :
  StronglySorted (λ x y, ¬ key_lt (adjKey h y) (adjKey h x))
                 (quicksort Adjacency (AdjacencyComparer_less h) l).
Proof.
  destruct quicksort_sorts as (_ & Hsorted & _).
  eapply StronglySorted_mono; [|apply Hsorted, AdjacencyComparer_swo].
  intros x y. simpl. by rewrite AdjacencyComparer_less_key_false.
Qed.

Lemma simplifyAdjacencies_list_ext h h' l :
  same_attributes h h' →
  ENGLayer_simplifyAdjacencies_list quicksort h l
  = ENGLayer_simplifyAdjacencies_list quicksort h' l.
Proof.
  intros Ha. unfold ENGLayer_simplifyAdjacencies_list.
  destruct quicksort_sorts as (_ & _ & Hext).
  by rewrite (Hext _ _ (AdjacencyComparer_less h')
                   l (AdjacencyComparer_less_ext h h' Ha)).
Qed.

(** After [simplifyAdjacencies(adjs)] the list is in strictly increasing
    order of keys. *)
Lemma simplifyAdjacencies_list_sorted h l :
  adj_distinct h l →
  StronglySorted (λ x y, key_lt (adjKey h x) (adjKey h y))
                 (ENGLayer_simplifyAdjacencies_list quicksort h l).
Proof.
  intros Hd. unfold ENGLayer_simplifyAdjacencies_list.
  destruct l as [|a l]; [constructor|].
  pose proof (quicksort_key_sorted h (a :: l)) as Hs.
  destruct quicksort_sorts as (Hperm & _ & _).
  specialize (Hperm _ (AdjacencyComparer_less h) (a :: l)).
  destruct (quicksort Adjacency (AdjacencyComparer_less h) (a :: l))
    as [|it rest]; [constructor|].
  apply simplifyAdjacencies_loop_sorted; [|done].
  intros x y Hx Hy. apply Hd; by rewrite <- Hperm.
Qed.

(** A list in strictly increasing order of keys is left as it is. *)
Lemma simplifyAdjacencies_list_fixed h l :
  StronglySorted (λ x y, key_lt (adjKey h x) (adjKey h y)) l →
  ENGLayer_simplifyAdjacencies_list quicksort h l = l.
Proof.
  intros Hs. unfold ENGLayer_simplifyAdjacencies_list.
  destruct l as [|a l]; [done|].
  assert (quicksort Adjacency (AdjacencyComparer_less h) (a :: l) = a :: l) as ->.
  { apply (sorted_perm_unique (λ x y, key_lt (adjKey h x) (adjKey h y))).
    - intros x. apply key_lt_irrefl.
    - done.
    - apply quicksort_key_sorted.
    - by destruct quicksort_sorts as (Hperm & _ & _). }
  by apply simplifyAdjacencies_loop_fixed with (h := h).
Qed.

(** The list version of the claim: simplifying a simplified list changes
    nothing. *)
Lemma simplifyAdjacencies_list_idempotent h l :
  adj_distinct h l →
  ENGLayer_simplifyAdjacencies_list quicksort h
    (ENGLayer_simplifyAdjacencies_list quicksort h l)
  = ENGLayer_simplifyAdjacencies_list quicksort h l.
Proof.
  intros Hd. by apply simplifyAdjacencies_list_fixed, simplifyAdjacencies_list_sorted.
Qed.
End simplifyAdjacencies_proofs.

Lemma same_attributes_refl h : same_attributes h h.
Proof. by intros p. Qed.

Lemma same_attributes_trans h1 h2 h3 :
  same_attributes h1 h2 → same_attributes h2 h3 → same_attributes h1 h3.
Proof.
  intros H12 H23 p. destruct (H12 p) as (-> & -> & ->). apply H23.
Qed.

Lemma same_attributes_set_adj h p nd up lo :
  h !! p = Some nd → same_attributes h (<[p := set_adj up lo nd]> h).
Proof.
  intros Hp q. rewrite !lookup_total_alt.
  destruct (decide (q = p)) as [->|Hne].
  - by rewrite lookup_insert_eq, Hp.
  - by rewrite lookup_insert_ne.
Qed.

Section simplifyAdjacencies_layer.
Variable quicksort : ∀ E : Type, (E → E → bool) → list E → list E.
Hypothesis quicksort_sorts : sorts quicksort.
Variable h0 : gmap ptr LHTreeNode.
Hypothesis Hdist : layer_adj_distinct h0.

Local Abbreviation simp0 :=
  (λ nd, set_adj (ENGLayer_simplifyAdjacencies_list quicksort h0 (m_upperAdj nd))
                 (ENGLayer_simplifyAdjacencies_list quicksort h0 (m_lowerAdj nd)) nd).

Lemma simp0_idempotent p nd : h0 !! p = Some nd → simp0 (simp0 nd) = simp0 nd.
Proof.
  intros Hp. destruct (Hdist p nd Hp) as [Hup Hlo]. destruct nd. simpl in *.
  unfold set_adj. simpl.
  by rewrite !simplifyAdjacencies_list_idempotent.
Qed.

Lemma simplified_of_refl h : simplified_of quicksort h0 h h.
Proof. intros q. by left. Qed.

Lemma simplified_of_trans h1 h2 h3 :
  simplified_of quicksort h0 h1 h2 → simplified_of quicksort h0 h2 h3 →
  simplified_of quicksort h0 h1 h3.
Proof.
  intros H12 H23 q. destruct (H23 q) as [-> | ->]; [apply H12|by right].
Qed.

Lemma simplified_of_attributes h :
  simplified_of quicksort h0 h0 h → same_attributes h0 h.
Proof.
  intros Hs p. rewrite !lookup_total_alt.
  destruct (Hs p) as [-> | ->]; [done|]. by destruct (h0 !! p).
Qed.

Lemma simplifyAdjacencies_node_step h p nd0 :
  simplified_of quicksort h0 h0 h →
  h0 !! p = Some nd0 →
  simplifyAdjacencies_node quicksort h p = Some (<[p := simp0 nd0]> h).
Proof.
  intros Hs Hp0. pose proof (simplified_of_attributes h Hs) as Ha.
  assert (∃ nd, h !! p = Some nd ∧ simp0 nd = simp0 nd0) as (nd & Hp & Hnd).
  { destruct (Hs p) as [E|E]; rewrite Hp0 in E.
    - by exists nd0.
    - exists (simp0 nd0). split; [done|]. by eapply simp0_idempotent. }
  unfold simplifyAdjacencies_node. rewrite Hp. simpl.
  rewrite lookup_insert_eq. simpl. rewrite insert_insert_eq. do 2 f_equal.
  rewrite <- Hnd. unfold set_adj. simpl. f_equal.
  - symmetry. by apply simplifyAdjacencies_list_ext.
  - symmetry. apply simplifyAdjacencies_list_ext; [done|].
    eapply same_attributes_trans; [exact Ha|].
    by apply same_attributes_set_adj.
Qed.

Lemma simplified_of_step h p nd0 :
  h0 !! p = Some nd0 →
  simplified_of quicksort h0 h (<[p := simp0 nd0]> h).
Proof.
  intros Hp0 q. destruct (decide (q = p)) as [->|Hne].
  - right. by rewrite lookup_insert_eq, Hp0.
  - left. by rewrite lookup_insert_ne.
Qed.

Lemma simplifyAdjacencies_node_None h p :
  simplified_of quicksort h0 h0 h → h0 !! p = None →
  simplifyAdjacencies_node quicksort h p = None.
Proof.
  intros Hs Hp0. unfold simplifyAdjacencies_node.
  destruct (Hs p) as [E|E]; rewrite E, Hp0; done.
Qed.

Lemma simplifyAdjacencies_walk_simplified fuel Q h h1 :
  simplified_of quicksort h0 h0 h →
  ENGLayer_walkAll (simplifyAdjacencies_node quicksort) fuel Q h = Some h1 →
  simplified_of quicksort h0 h h1.
Proof.
  revert Q h. induction fuel as [|fuel IH]; intros [|p Q] h Hs Hw; simpl in Hw;
    simplify_eq; try apply simplified_of_refl.
  destruct (h0 !! p) as [nd0|] eqn:Hp0.
  - rewrite (simplifyAdjacencies_node_step h p nd0 Hs Hp0) in Hw. simpl in Hw.
    rewrite lookup_insert_eq in Hw. simpl in Hw.
    pose proof (simplified_of_step h p nd0 Hp0) as Hstep.
    eapply simplified_of_trans; [exact Hstep|].
    eapply IH; [|exact Hw]. by eapply simplified_of_trans.
  - by rewrite (simplifyAdjacencies_node_None h p Hs Hp0) in Hw.
Qed.

Lemma simplifyAdjacencies_walk_fixed fuel Q h h' h1 :
  simplified_of quicksort h0 h0 h →
  ENGLayer_walkAll (simplifyAdjacencies_node quicksort) fuel Q h = Some h' →
  simplified_of quicksort h0 h' h1 →
  ENGLayer_walkAll (simplifyAdjacencies_node quicksort) fuel Q h1 = Some h1.
Proof.
  revert Q h. induction fuel as [|fuel IH]; intros [|p Q] h Hs Hw Hs1;
    simpl in Hw; simplify_eq; try done.
  destruct (h0 !! p) as [nd0|] eqn:Hp0.
  - rewrite (simplifyAdjacencies_node_step h p nd0 Hs Hp0) in Hw. simpl in Hw.
    rewrite lookup_insert_eq in Hw. simpl in Hw.
    pose proof (simplified_of_step h p nd0 Hp0) as Hstep.
    assert (Hs' : simplified_of quicksort h0 h0 (<[p:=simp0 nd0]> h))
      by (by eapply simplified_of_trans).
    pose proof (simplifyAdjacencies_walk_simplified _ _ _ _ Hs' Hw) as Hw'.
    assert (Hall : simplified_of quicksort h0 h0 h1)
      by (eapply simplified_of_trans; [exact Hs'|]; by eapply simplified_of_trans).
    assert (Hx : h1 !! p = Some (simp0 nd0)).
    { destruct (simplified_of_trans _ _ _ Hw' Hs1 p) as [E|E].
      - by rewrite E, lookup_insert_eq.
      - by rewrite E, Hp0. }
    simpl. rewrite (simplifyAdjacencies_node_step h1 p nd0 Hall Hp0). simpl.
    rewrite insert_id by done. rewrite Hx. simpl.
    exact (IH _ _ Hs' Hw Hs1).
  - by rewrite (simplifyAdjacencies_node_None h p Hs Hp0) in Hw.
Qed.
End simplifyAdjacencies_layer.

(** C8. For every sorting routine, on a layer whose adjacency lists point to
    tree nodes of different clusters and vertices: when
    [ENGLayer::simplifyAdjacencies] has run, running it again returns the same
    heap, so no [m_upperAdj] and no [m_lowerAdj] changes in entries, order or
    weights. *)
Theorem simplifyAdjacencies_idempotent
    (quicksort : ∀ E : Type, (E → E → bool) → list E → list E)
    (fuel : nat) (root : ptr) (h h1 : gmap ptr LHTreeNode) :
  sorts quicksort →
  layer_adj_distinct h →
  ENGLayer_simplifyAdjacencies quicksort fuel h root = Some h1 →
  ENGLayer_simplifyAdjacencies quicksort fuel h1 root = Some h1.
Proof.
  intros Hsorts Hdist Hw. unfold ENGLayer_simplifyAdjacencies in *.
  eapply (simplifyAdjacencies_walk_fixed quicksort Hsorts h Hdist fuel [root] h h1 h1).
  - apply simplified_of_refl.
  - done.
  - apply simplified_of_refl.
Qed.

Lemma insert_sorted_perm {E} (less : E → E → bool) v l :
  insert_sorted less v l ≡ₚ v :: l.
Proof.
  induction l as [|y l IH]; simpl; [done|].
  destruct (less v y); [done|]. rewrite IH. apply Permutation_swap.
Qed.

Lemma insert_sorted_sorted {E} (less : E → E → bool) v l :
  strict_weak_order less →
  StronglySorted (λ x y, less y x = false) l →
  StronglySorted (λ x y, less y x = false) (insert_sorted less v l).
Proof.
  intros (Hirr & Htr & Hntr). induction 1 as [|y l Hs IH Hall]; simpl.
  - repeat constructor.
  - destruct (less v y) eqn:Hvy.
    + constructor; [by constructor|]. constructor.
      * destruct (less y v) eqn:Hyv; [|done].
        pose proof (Htr _ _ _ Hvy Hyv). by rewrite Hirr in H.
      * eapply Forall_impl; [exact Hall|]. intros z Hz. simpl in *.
        destruct (less z v) eqn:Hzv; [|done].
        pose proof (Htr _ _ _ Hzv Hvy). congruence.
    + constructor; [done|]. rewrite insert_sorted_perm. by constructor.
Qed.

Lemma insertion_sort_sorts : sorts insertion_sort.
Proof.
  split_and!.
  - intros E less l. induction l as [|x l IH]; simpl; [done|].
    by rewrite insert_sorted_perm, IH.
  - intros E less l Hswo. induction l as [|x l IH]; simpl; [constructor|].
    by apply insert_sorted_sorted.
  - intros E less less' l Hext. induction l as [|x l IH]; simpl; [done|].
    rewrite IH. generalize (insertion_sort E less' l). intros l'.
    induction l' as [|y l' IH']; simpl; [done|]. by rewrite Hext, IH'.
Qed.

Lemma adj_layer_distinct : layer_adj_distinct adj_layer.
Proof.
  intros p nd Hp. unfold adj_layer in Hp.
  repeat (apply lookup_insert_Some in Hp as [[<- <-]|[_ Hp]];
          [split; intros a b Ha Hb; simpl in *;
           repeat (apply elem_of_cons in Ha as [->|Ha]);
           try (by apply elem_of_nil in Ha);
           repeat (apply elem_of_cons in Hb as [->|Hb]);
           try (by apply elem_of_nil in Hb);
           vm_compute; intros; try done; discriminate|]).
  done.
Qed.

Lemma simplifyAdjacencies_idempotent_witness :
  ∃ h1,
    ENGLayer_simplifyAdjacencies insertion_sort 4 adj_layer 1 = Some h1 ∧
    m_upperAdj <$> h1 !! 1 = Some [mkAdjacency 20 2 1; mkAdjacency 20 3 2] ∧
    ENGLayer_simplifyAdjacencies insertion_sort 4 h1 1 = Some h1.
Proof.
  eexists. split; [vm_compute; reflexivity|]. split; [reflexivity|].
  apply (simplifyAdjacencies_idempotent insertion_sort 4 1 adj_layer).
  - apply insertion_sort_sorts.
  - apply adj_layer_distinct.
  - vm_compute. reflexivity.
Defined.

(** ** Compaction of the layers *)

Lemma levels_init_lookup low high i :
  levels_init low high !! i = if decide (low ≤ i ≤ high)%Z then Some [] else None.
Proof.
  unfold levels_init.
  assert (∀ l, foldr (λ i lv, <[i := []]> lv) (∅ : gmap Z (list node)) l !! i
               = if decide (i ∈ l) then Some [] else None) as H.
  { induction l as [|j l IH]; cbn [foldr].
    - rewrite lookup_empty. case_decide; [set_solver|done].
    - destruct (decide (j = i)) as [->|Hne].
      + rewrite lookup_insert_eq. destruct (decide (i ∈ i :: l)); [done|set_solver].
      + rewrite lookup_insert_ne by done. rewrite IH.
        destruct (decide (i ∈ l)), (decide (i ∈ j :: l)); try done; set_solver. }
  rewrite H. repeat case_decide; try done; exfalso.
  - apply H1. by apply elem_of_seqZ in H0; lia.
  - apply H0. apply elem_of_seqZ. lia.
Qed.

Lemma levels_fill_spec (m_rank : node → Z) low high (nodes : list node) :
  (∀ v, v ∈ nodes → (low ≤ m_rank v ≤ high)%Z) →
  ∃ lv, levels_fill nodes m_rank (levels_init low high) = Some lv ∧
        ∀ i, lv !! i = if decide (low ≤ i ≤ high)%Z
                       then Some (filter (λ v, m_rank v = i) nodes) else None.
Proof.
  unfold levels_fill. induction nodes as [|v nodes IH] using rev_ind; intros Hr.
  - exists (levels_init low high). split; [done|]. intros i.
    rewrite levels_init_lookup. by case_decide.
  - destruct IH as (lv & Hfill & Hlv); [intros; apply Hr; set_solver|].
    rewrite foldl_app. simpl. rewrite Hfill. simpl.
    rewrite Hlv, decide_True by (apply Hr; set_solver). simpl.
    eexists. split; [done|]. intros i.
    rewrite filter_app, filter_cons, filter_nil.
    destruct (decide (m_rank v = i)) as [<-|Hne].
    + rewrite lookup_insert_eq, decide_True by (apply Hr; set_solver). done.
    + rewrite lookup_insert_ne, Hlv by done. by rewrite app_nil_r.
Qed.

Lemma level_used_spec (nodes : list node) (m_rank : node → Z) i :
  level_used nodes m_rank i = true ↔ ∃ v, v ∈ nodes ∧ m_rank v = i.
Proof. unfold level_used. by rewrite bool_decide_eq_true, Exists_exists. Qed.

Lemma level_used_filter (nodes : list node) (m_rank : node → Z) i :
  level_used nodes m_rank i = false ↔ filter (λ v, m_rank v = i) nodes = [].
Proof.
  rewrite <- not_true_iff_false, level_used_spec. split.
  - intros Hn. destruct (filter (λ v, m_rank v = i) nodes) as [|v l] eqn:E; [done|].
    exfalso. apply Hn. exists v.
    assert (v ∈ filter (λ v, m_rank v = i) nodes) as Hin by (rewrite E; set_solver).
    apply list_elem_of_filter in Hin. naive_solver.
  - intros Hf (v & Hv & E).
    assert (v ∈ filter (λ v, m_rank v = i) nodes) as Hin
      by (by apply list_elem_of_filter).
    rewrite Hf in Hin. by apply elem_of_nil in Hin.
Qed.

Lemma levels_used_mono nodes m_rank low k k' :
  k ≤ k' → levels_used nodes m_rank low k ≤ levels_used nodes m_rank low k'.
Proof. induction 1; simpl; lia. Qed.

Lemma levels_used_le nodes m_rank low k : levels_used nodes m_rank low k ≤ k.
Proof. induction k; simpl; [lia|]. destruct (level_used _ _ _); lia. Qed.

Lemma levels_used_strict nodes m_rank low k k' :
  k < k' → level_used nodes m_rank (low + Z.of_nat (S k)) = true →
  levels_used nodes m_rank low k < levels_used nodes m_rank low k'.
Proof.
  intros Hlt Hu.
  assert (levels_used nodes m_rank low (S k) = S (levels_used nodes m_rank low k))
    as E by (simpl; rewrite Hu; lia).
  pose proof (levels_used_mono nodes m_rank low (S k) k'). lia.
Qed.

(** Every count below [levels_used .. k] is the count at a used level. *)
Lemma levels_used_surj nodes m_rank low k c :
  c < levels_used nodes m_rank low k →
  ∃ j, j < k ∧ level_used nodes m_rank (low + Z.of_nat (S j)) = true ∧
       levels_used nodes m_rank low j = c.
Proof.
  induction k as [|k IH]; simpl; [lia|]. intros Hc.
  destruct (level_used nodes m_rank (low + Z.of_nat (S k))) eqn:Hu.
  - destruct (decide (c = levels_used nodes m_rank low k)) as [->|Hne].
    + exists k. split_and!; [lia|done..].
    + destruct IH as (j & ? & ? & ?); [lia|]. exists j. split_and!; [lia|done..].
  - destruct IH as (j & ? & ? & ?); [lia|]. exists j. split_and!; [lia|done..].
Qed.

Lemma foldl_insert_const (c : Z) (L : list node) (r : node → Z) w :
  foldl (λ r v, <[v := c]> r) r L w = if decide (w ∈ L) then c else r w.
Proof.
  revert r. induction L as [|v L IH]; intros r; simpl.
  - destruct (decide (w ∈ [])); [set_solver|done].
  - rewrite IH. destruct (decide (w ∈ L)), (decide (w ∈ v :: L)); try done.
    + set_solver.
    + assert (v = w) as -> by set_solver. by rewrite fn_lookup_insert.
    + rewrite fn_lookup_insert_ne; [done|]. set_solver.
Qed.

Lemma reassignRanks_inv_step nodes m_rank low high lv k st :
  (∀ i, lv !! i = if decide (low ≤ i ≤ high)%Z
                  then Some (filter (λ v, m_rank v = i) nodes) else None) →
  (low + Z.of_nat (S k) ≤ high)%Z →
  reassignRanks_inv nodes m_rank low k st →
  reassignRanks_inv nodes m_rank low (S k)
    (reassignRanks_body lv st (low + 1 + Z.of_nat k)%Z).
Proof.
  intros Hlv Hk (r & -> & Hr).
  unfold reassignRanks_body. simpl.
  rewrite Hlv. rewrite decide_True by lia. simpl.
  replace (low + 1 + Z.of_nat k)%Z with (low + Z.of_nat (S k))%Z by lia.
  destruct (filter (λ v, m_rank v = (low + Z.of_nat (S k))%Z) nodes)
    as [|v0 L] eqn:HL.
  - (* empty level: continue *)
    pose proof (proj2 (level_used_filter _ _ _) HL) as Hu.
    exists r. cbn [levels_used]. rewrite Hu. split; [do 3 f_equal; lia|].
    intros v. rewrite Hr.
    destruct (decide (v ∈ nodes ∧ (low < m_rank v ≤ low + Z.of_nat k)%Z)) as [Hv|Hv],
             (decide (v ∈ nodes ∧ (low < m_rank v ≤ low + Z.of_nat (S k))%Z)) as [Hv'|Hv'];
      try done.
    + exfalso. apply Hv'. destruct Hv. split; [done|lia].
    + exfalso. destruct Hv' as [Hin Hrk].
      assert (m_rank v = (low + Z.of_nat (S k))%Z) as E.
      { destruct (decide (m_rank v = (low + Z.of_nat (S k))%Z)); [done|].
        exfalso. apply Hv. split; [done|lia]. }
      assert (v ∈ filter (λ v, m_rank v = (low + Z.of_nat (S k))%Z) nodes) as Hf
        by (by apply list_elem_of_filter).
      rewrite HL in Hf. by apply elem_of_nil in Hf.
  - (* a used level: its vertices get currentRank *)
    assert (Hu : level_used nodes m_rank (low + Z.of_nat (S k)) = true).
    { apply level_used_spec. exists v0.
      assert (v0 ∈ filter (λ v, m_rank v = (low + Z.of_nat (S k))%Z) nodes) as Hf
        by (rewrite HL; set_solver).
      apply list_elem_of_filter in Hf. naive_solver. }
    eexists. cbn [levels_used]. rewrite Hu. split; [do 3 f_equal; lia|].
    intros v. rewrite foldl_insert_const, <- HL.
    destruct (decide (v ∈ filter (λ v, m_rank v = (low + Z.of_nat (S k))%Z) nodes))
      as [Hf|Hf].
    + apply list_elem_of_filter in Hf as [E Hin].
      rewrite decide_True by (split; [done|lia]).
      unfold compacted_rank. rewrite E. do 2 f_equal. lia.
    + rewrite Hr.
      destruct (decide (v ∈ nodes ∧ (low < m_rank v ≤ low + Z.of_nat k)%Z)) as [Hv|Hv],
               (decide (v ∈ nodes ∧ (low < m_rank v ≤ low + Z.of_nat (S k))%Z)) as [Hv'|Hv'];
        try done.
      * exfalso. apply Hv'. destruct Hv. split; [done|lia].
      * exfalso. destruct Hv' as [Hin Hrk]. apply Hf, list_elem_of_filter.
        split; [|done].
        destruct (decide (m_rank v = (low + Z.of_nat (S k))%Z)); [done|].
        exfalso. apply Hv. split; [done|lia].
Qed.

Lemma reassignRanks_inv_loop nodes m_rank low high lv k :
  (∀ i, lv !! i = if decide (low ≤ i ≤ high)%Z
                  then Some (filter (λ v, m_rank v = i) nodes) else None) →
  (low + Z.of_nat k ≤ high)%Z →
  reassignRanks_inv nodes m_rank low k
    (foldl (reassignRanks_body lv) (Some (m_rank, 0%Z)) (seqZ (low + 1) (Z.of_nat k))).
Proof.
  intros Hlv. induction k as [|k IH]; intros Hk.
  - exists m_rank. split; [done|]. intros v. rewrite decide_False; [done|lia].
  - rewrite seqZ_S, foldl_app. cbn [foldl].
    eapply reassignRanks_inv_step; [done|lia|]. apply IH. lia.
Qed.

(** C5. When every vertex left in the graph has its rank strictly between the
    ranks [low] and [high] of the deleted top and bottom vertex of the root,
    the compaction returns ranks in [0 .. numLayers-1]; every layer index in
    that range is the rank of some vertex; two vertices share their new rank
    exactly when they shared the old one; and the order of the old ranks is
    kept. *)
Theorem computeRanking_compaction (nodes : list node) (low high : Z) (m_rank : node → Z) :
  (∀ v, v ∈ nodes → (low < m_rank v < high)%Z) →
  ∃ m_rank' numLayers,
    computeRanking_reassignRanks nodes low high m_rank = Some (m_rank', numLayers) ∧
    (∀ v, v ∈ nodes → (0 ≤ m_rank' v < numLayers)%Z) ∧
    (∀ k, (0 ≤ k < numLayers)%Z → ∃ v, v ∈ nodes ∧ m_rank' v = k) ∧
    (∀ v w, v ∈ nodes → w ∈ nodes →
            (m_rank' v = m_rank' w ↔ m_rank v = m_rank w)) ∧
    (∀ v w, v ∈ nodes → w ∈ nodes →
            (m_rank v < m_rank w)%Z → (m_rank' v < m_rank' w)%Z).
Proof.
  intros Hrange.
  destruct (levels_fill_spec m_rank low high nodes) as (lv & Hfill & Hlv).
  { intros v Hv. specialize (Hrange v Hv). lia. }
  set (n := Z.to_nat (high - low - 1)).
  destruct (decide (nodes = [])) as [->|Hne].
  { (* no vertex: no layer *)
    unfold computeRanking_reassignRanks. rewrite Hfill. simpl.
    destruct (decide (high - low - 1 ≤ 0)%Z) as [Hle|Hgt].
    - rewrite seqZ_nil by done. exists m_rank, 0%Z.
      split_and!; [done|set_solver|lia|set_solver..].
    - pose proof (reassignRanks_inv_loop [] m_rank low high lv n Hlv) as (r & Hr & _);
        [lia|].
      replace (Z.of_nat n) with (high - low - 1)%Z in Hr by lia. rewrite Hr.
      assert (levels_used [] m_rank low n = 0) as ->.
      { clear. induction n as [|n IH]; [done|]. cbn [levels_used]. by rewrite IH. }
      exists r, 0%Z. split_and!; [done|set_solver|lia|set_solver..]. }
  assert (Hpos : (0 < high - low - 1)%Z).
  { destruct nodes as [|v ?]; [done|].
    assert (low < m_rank v < high)%Z by (apply Hrange; set_solver). lia. }
  pose proof (reassignRanks_inv_loop nodes m_rank low high lv n Hlv) as (r & Hr & Hrv);
    [lia|].
  replace (Z.of_nat n) with (high - low - 1)%Z in Hr by lia.
  exists r, (Z.of_nat (levels_used nodes m_rank low n)).
  assert (Hnew : ∀ v, v ∈ nodes → r v = compacted_rank nodes m_rank low (m_rank v)).
  { intros v Hv. rewrite Hrv. rewrite decide_True; [done|].
    split; [done|]. specialize (Hrange v Hv). lia. }
  assert (Hused : ∀ v, v ∈ nodes →
            level_used nodes m_rank (low + Z.of_nat (S (Z.to_nat (m_rank v - low - 1)))) = true).
  { intros v Hv. apply level_used_spec. exists v. split; [done|].
    specialize (Hrange v Hv). lia. }
  assert (Hlt : ∀ v w, v ∈ nodes → w ∈ nodes → (m_rank v < m_rank w)%Z → (r v < r w)%Z).
  { intros v w Hv Hw Hvw. rewrite (Hnew v Hv), (Hnew w Hw). unfold compacted_rank.
    apply inj_lt, levels_used_strict; [|by apply Hused].
    specialize (Hrange v Hv). lia. }
  split_and!.
  - unfold computeRanking_reassignRanks. rewrite Hfill. simpl. exact Hr.
  - intros v Hv. rewrite (Hnew v Hv). unfold compacted_rank. split; [lia|].
    apply inj_lt, levels_used_strict; [|by apply Hused].
    specialize (Hrange v Hv). lia.
  - intros k Hk.
    destruct (levels_used_surj nodes m_rank low n (Z.to_nat k)) as (j & Hj & Hu & Hc);
      [lia|].
    apply level_used_spec in Hu as (v & Hv & E). exists v. split; [done|].
    rewrite (Hnew v Hv). unfold compacted_rank. rewrite E.
    replace (Z.to_nat (low + Z.of_nat (S j) - low - 1)) with j by lia. lia.
  - intros v w Hv Hw. split.
    + intros E. destruct (Z.lt_total (m_rank v) (m_rank w)) as [Hc|[Hc|Hc]]; [|done|].
      * pose proof (Hlt v w Hv Hw Hc). lia.
      * pose proof (Hlt w v Hw Hv Hc). lia.
    + intros E. by rewrite (Hnew v Hv), (Hnew w Hw), E.
  - exact Hlt.
Qed.

Lemma computeRanking_compaction_witness :
  ∃ m_rank' numLayers,
    computeRanking_reassignRanks [0; 1; 2; 3; 4] 0 9 sparse_rank
      = Some (m_rank', numLayers) ∧
    (∀ v, v ∈ [0; 1; 2; 3; 4] → (0 ≤ m_rank' v < numLayers)%Z) ∧
    (∀ k, (0 ≤ k < numLayers)%Z → ∃ v, v ∈ [0; 1; 2; 3; 4] ∧ m_rank' v = k) ∧
    (∀ v w, v ∈ [0; 1; 2; 3; 4] → w ∈ [0; 1; 2; 3; 4] →
            (m_rank' v = m_rank' w ↔ sparse_rank v = sparse_rank w)) ∧
    (∀ v w, v ∈ [0; 1; 2; 3; 4] → w ∈ [0; 1; 2; 3; 4] →
            (sparse_rank v < sparse_rank w)%Z → (m_rank' v < m_rank' w)%Z).
Proof.
  apply (computeRanking_compaction [0; 1; 2; 3; 4] 0 9 sparse_rank).
  intros v Hv.
  repeat (apply elem_of_cons in Hv as [->|Hv]; [simpl; lia|]).
  by apply elem_of_nil in Hv.
Defined.

Example computeRanking_compaction_run :
  (λ '(r, n), (r <$> [0; 1; 2; 3; 4], n))
    <$> computeRanking_reassignRanks [0; 1; 2; 3; 4] 0 9 sparse_rank
  = Some ([0; 1; 0; 2; 1]%Z, 3%Z).
Proof. vm_compute. reflexivity. Qed.

(** ** The orchestrator *)

Lemma RCCrossings_lt_spec x y :
  RCCrossings_lt x y = true ↔
  (m_cnClusters x < m_cnClusters y)%Z ∨
  (m_cnClusters x = m_cnClusters y ∧ (m_cnEdges x < m_cnEdges y)%Z).
Proof.
  unfold RCCrossings_lt. case_bool_decide; rewrite bool_decide_eq_true; lia.
Qed.

Lemma RCCrossings_lt_trans x y z :
  RCCrossings_lt x y = true → RCCrossings_lt y z = true → RCCrossings_lt x z = true.
Proof. rewrite !RCCrossings_lt_spec. lia. Qed.

Lemma RCCrossings_lt_irrefl x : RCCrossings_lt x x = false.
Proof.
  apply not_true_iff_false. rewrite RCCrossings_lt_spec. lia.
Qed.

Lemma stores_app {ENG} (l1 l2 : list (Event ENG)) :
  stores (l1 ++ l2) = stores l1 ++ stores l2.
Proof.
  induction l1 as [|[c H| |] l1 IH]; simpl; [done| |done..]. by rewrite IH.
Qed.

Lemma StronglySorted_snoc {A} (R : A → A → Prop) l x :
  StronglySorted R l → Forall (λ y, R y x) l → StronglySorted R (l ++ [x]).
Proof.
  intros Hs Hall. apply StronglySorted_app. split_and!.
  - intros y z Hy Hz. apply list_elem_of_singleton in Hz as ->.
    rewrite Forall_forall in Hall. by apply Hall.
  - done.
  - repeat constructor.
Qed.

Lemma StronglySorted_last_below {A} (R : A → A → Prop) l x y :
  StronglySorted R l → last l = Some x → y ∈ l → y = x ∨ R y x.
Proof.
  intros Hs Hl Hy. destruct l as [|a l _] using rev_ind; [done|].
  rewrite last_snoc in Hl. injection Hl as ->.
  apply elem_of_app in Hy as [Hy|Hy].
  - right. apply StronglySorted_app in Hs as (Hs & _ & _). apply Hs; set_solver.
  - left. set_solver.
Qed.

Section Orchestrator_proofs.
Context {ENG Order : Type}.
Variable traverseTopDown traverseBottomUp : ENG → ENG * RCCrossings.
Variable storeCurrentPos restorePos permute : ENG → ENG.
Variable m_runs m_fails : Z.
Variable order saved : ENG → Order.
Variable H0 : ENG.

(** What the orchestrator relies on: a sweep and [permute] leave the snapshot
    alone, [storeCurrentPos] makes the current order the snapshot. *)
Hypothesis saved_traverseTopDown : ∀ H, saved (traverseTopDown H).1 = saved H.
Hypothesis saved_traverseBottomUp : ∀ H, saved (traverseBottomUp H).1 = saved H.
Hypothesis saved_permute : ∀ H, saved (permute H) = saved H.
Hypothesis saved_storeCurrentPos : ∀ H, saved (storeCurrentPos H) = order H.

Local Abbreviation inv := (orchestrator_inv order saved H0).

Lemma afterSweep_inv st H new :
  inv st → saved H = saved (o_H st) →
  inv (afterSweep storeCurrentPos m_fails st H new).1.
Proof.
  intros (Hsorted & Hbest & Hsaved & Hlog) HH. unfold afterSweep.
  destruct (RCCrossings_lt new (nCrossingsOld st)) eqn:Hold;
    [|split_and!; simpl; by rewrite ?HH].
  destruct (RCCrossings_lt new (m_nCrossingsCluster st)) eqn:Hnew;
    [|split_and!; simpl; by rewrite ?HH].
  assert (inv (mkOrchestrator (storeCurrentPos H) new new (m_fails + 1)%Z
                              (o_log st ++ [EvStore new H]))) as Hinv.
  { split_and!; simpl; rewrite ?stores_app; simpl.
    - rewrite fmap_app. simpl. apply StronglySorted_snoc; [done|].
      apply Forall_forall. intros c Hc.
      destruct (last (stores (o_log st)).*1) as [b|] eqn:Hlast.
      2:{ apply last_None in Hlast. rewrite Hlast in Hc. by apply elem_of_nil in Hc. }
      assert (m_nCrossingsCluster st = b) as Eb.
      { rewrite Hbest. rewrite fmap_last in Hlast. by rewrite Hlast. }
      destruct (StronglySorted_last_below _ _ _ _ Hsorted Hlast Hc) as [->|Hlt].
      + by rewrite <- Eb.
      + eapply RCCrossings_lt_trans; [|exact Hlt]. by rewrite <- Eb.
    - by rewrite last_snoc.
    - by rewrite last_snoc.
    - intros Hin. apply elem_of_app in Hin as [Hin|Hin]; [done|].
      by apply list_elem_of_singleton in Hin. }
  destruct (RCCrossings_isZero new); [|done].
  destruct Hinv as (? & ? & ? & ?). by split_and!.
Qed.

Lemma afterSweep_H st H new :
  o_H (afterSweep storeCurrentPos m_fails st H new).1 = H ∨
  o_H (afterSweep storeCurrentPos m_fails st H new).1 = storeCurrentPos H.
Proof.
  unfold afterSweep. repeat (case_match; simpl); auto.
Qed.

Lemma sweepLoop_inv fuel st st' :
  inv st →
  sweepLoop traverseTopDown traverseBottomUp storeCurrentPos m_fails fuel st = Some st' →
  inv st'.
Proof.
  revert st. induction fuel as [|fuel IH]; intros st Hinv Hrun; [done|].
  simpl in Hrun.
  destruct (traverseTopDown (o_H st)) as [H1 new1] eqn:E1.
  pose proof (afterSweep_inv st H1 new1 Hinv) as Hinv1.
  destruct (afterSweep storeCurrentPos m_fails st H1 new1) as [st1 brk1] eqn:Ea1.
  simpl in Hinv1.
  assert (inv st1) as Hst1.
  { apply Hinv1. by rewrite <- (saved_traverseTopDown (o_H st)), E1. }
  destruct brk1; [by injection Hrun as <-|].
  destruct (traverseBottomUp (o_H st1)) as [H2 new2] eqn:E2.
  pose proof (afterSweep_inv st1 H2 new2 Hst1) as Hinv2.
  destruct (afterSweep storeCurrentPos m_fails st1 H2 new2) as [st2 brk2] eqn:Ea2.
  simpl in Hinv2.
  assert (inv st2) as Hst2.
  { apply Hinv2. by rewrite <- (saved_traverseBottomUp (o_H st1)), E2. }
  destruct brk2; [by injection Hrun as <-|].
  case_bool_decide; [by eapply IH|by injection Hrun as <-].
Qed.

Lemma runLoop_inv fuel i st st' :
  inv st →
  runLoop traverseTopDown traverseBottomUp storeCurrentPos permute m_runs m_fails
          fuel i st = Some st' →
  inv st'.
Proof.
  revert i st. induction fuel as [|fuel IH]; intros i st Hinv Hrun; [done|].
  simpl in Hrun.
  destruct (sweepLoop _ _ _ _ fuel _) as [st1|] eqn:Hs; simpl in Hrun; [|done].
  assert (inv st1) as Hst1.
  { eapply sweepLoop_inv; [|exact Hs]. destruct Hinv as (? & ? & ? & ?). by split_and!. }
  destruct (RCCrossings_isZero (m_nCrossingsCluster st1) || bool_decide (m_runs ≤ i)%Z);
    [by injection Hrun as <-|].
  eapply IH; [|exact Hrun].
  destruct Hst1 as (? & ? & ? & ?). split_and!; simpl; rewrite ?stores_app; simpl;
    rewrite ?app_nil_r; try done.
  - by rewrite saved_permute.
  - intros Hin. apply elem_of_app in Hin as [Hin|Hin]; [done|].
    by apply list_elem_of_singleton in Hin.
Qed.
End Orchestrator_proofs.

(** C3. In a run of the orchestrator that returns, the crossing counts at
    which the order was stored decrease strictly in the lexicographic order;
    the best count is the last of them (each accepted improvement lowers it);
    the last call on [H] is the one [restorePos], and the order it leaves is
    the order of the graph that was stored last. *)
Theorem reduceCrossings_stores_decrease {ENG Order : Type}
    (traverseTopDown traverseBottomUp : ENG → ENG * RCCrossings)
    (storeCurrentPos restorePos permute : ENG → ENG) (m_runs m_fails : Z)
    (order saved : ENG → Order) (fuel : nat) (H0 H' : ENG)
    (best : RCCrossings) (m_nCrossings : Z) (log : list (Event ENG)) :
  (∀ H, saved (traverseTopDown H).1 = saved H) →
  (∀ H, saved (traverseBottomUp H).1 = saved H) →
  (∀ H, saved (permute H) = saved H) →
  (∀ H, saved (storeCurrentPos H) = order H) →
  (∀ H, order (restorePos H) = saved H) →
  SugiyamaLayout_reduceCrossings traverseTopDown traverseBottomUp storeCurrentPos
    restorePos permute m_runs m_fails fuel H0 = Some (H', best, m_nCrossings, log) →
  StronglySorted (λ a b, RCCrossings_lt b a = true) ((stores log).*1) ∧
  best = default RCCrossings_infinity (fst <$> last (stores log)) ∧
  m_nCrossings = m_cnEdges best ∧
  (∃ log', log = log' ++ [EvRestore] ∧ EvRestore ∉ log') ∧
  order H' = default (saved H0) ((order ∘ snd) <$> last (stores log)).
Proof.
  intros HTD HBU Hperm Hstore Hrestore Hrun.
  unfold SugiyamaLayout_reduceCrossings in Hrun.
  destruct (runLoop _ _ _ _ _ _ fuel 1%Z _) as [st|] eqn:Hloop; simpl in Hrun; [|done].
  injection Hrun as <- <- <- <-.
  assert (orchestrator_inv order saved H0 st) as (Hsorted & Hbest & Hsaved & Hlog).
  { eapply (runLoop_inv traverseTopDown traverseBottomUp storeCurrentPos permute
              m_runs m_fails order saved H0 HTD HBU Hperm Hstore); [|exact Hloop].
    split_and!; simpl; [constructor|done|done|set_solver]. }
  rewrite stores_app. simpl. rewrite app_nil_r. split_and!; try done.
  - by exists (o_log st).
  - by rewrite Hrestore.
Qed.

Lemma reduceCrossings_stores_decrease_witness :
  ∃ H' log,
    SugiyamaLayout_reduceCrossings script_sweep script_sweep script_store
      script_restore script_permute 2 0 10 (0, 0, 0)
      = Some (H', mkRCCrossings 0 2, 2%Z, log) ∧
    (stores log).*1 = [mkRCCrossings 0 5; mkRCCrossings 0 3; mkRCCrossings 0 2] ∧
    StronglySorted (λ a b, RCCrossings_lt b a = true) ((stores log).*1) ∧
    mkRCCrossings 0 2 = default RCCrossings_infinity (fst <$> last (stores log)) ∧
    2%Z = m_cnEdges (mkRCCrossings 0 2) ∧
    (∃ log', log = log' ++ [EvRestore] ∧ EvRestore ∉ log') ∧
    script_order H' = default (script_saved (0, 0, 0))
                              ((script_order ∘ snd) <$> last (stores log)).
Proof.
  eexists _, _. split; [vm_compute; reflexivity|]. split; [reflexivity|].
  eapply (reduceCrossings_stores_decrease script_sweep script_sweep script_store
            script_restore script_permute 2 0 script_order script_saved 10 (0, 0, 0)).
  - by intros [[c s] t].
  - by intros [[c s] t].
  - by intros [[c s] t].
  - by intros [[c s] t].
  - by intros [[c s] t].
  - vm_compute. reflexivity.
Defined.

(** ** reachable: a breadth-first search *)

Lemma elem_of_adjEdges G w e :
  e ∈ adjEdges G w ↔ e ∈ g_edges G ∧ (e.1 = w ∨ e.2 = w).
Proof.
  unfold adjEdges. rewrite list_elem_of_bind. split.
  - intros (e' & He & He'). apply elem_of_app in He as [He|He];
      case_decide; try (by apply elem_of_nil in He);
      apply list_elem_of_singleton in He as ->; naive_solver.
  - intros [He [E|E]]; exists e; (split; [|done]); apply elem_of_app.
    + left. rewrite decide_True by done. set_solver.
    + right. rewrite decide_True by done. set_solver.
Qed.

Lemma reset_visited_spec l visited x :
  reset_visited l visited x = if decide (x ∈ l) then false else visited x.
Proof.
  unfold reset_visited. revert visited.
  induction l as [|y l IH]; intros visited; cbn [foldl].
  - destruct (decide (x ∈ [])); [set_solver|done].
  - rewrite IH. destruct (decide (x ∈ l)), (decide (x ∈ y :: l)); try done.
    + set_solver.
    + assert (y = x) as -> by set_solver. by rewrite fn_lookup_insert.
    + rewrite fn_lookup_insert_ne; [done|set_solver].
Qed.

Lemma unvisited_in_other (l : list node) visited t b :
  t ∉ l → unvisited_in l (<[t := b]> visited) = unvisited_in l visited.
Proof.
  unfold unvisited_in. induction l as [|y l IH]; intros Ht; [done|].
  rewrite !filter_cons. rewrite fn_lookup_insert_ne by set_solver.
  destruct (decide (visited y = false)); simpl; rewrite IH; set_solver.
Qed.

Lemma unvisited_in_mark (l : list node) visited t :
  NoDup l → t ∈ l → visited t = false →
  S (unvisited_in l (<[t := true]> visited)) = unvisited_in l visited.
Proof.
  unfold unvisited_in. induction 1 as [|y l Hy Hnd IH]; intros Ht Hv.
  - by apply elem_of_nil in Ht.
  - rewrite !filter_cons. destruct (decide (y = t)) as [->|Hne].
    + rewrite fn_lookup_insert, Hv. simpl. f_equal.
      by apply unvisited_in_other.
    + rewrite fn_lookup_insert_ne by done.
      apply elem_of_cons in Ht as [?|Ht]; [done|].
      destruct (decide (visited y = false)); simpl; rewrite <- IH; done.
Qed.

Lemma reachable_scan_spec G u es : ∀ visited Q found visited' Q',
  (∀ e, e ∈ es → e ∈ g_edges G) →
  reachable_scan u es visited Q = (found, visited', Q') →
  ∃ new, Q' = Q ++ new ∧ NoDup new ∧
    (∀ x, x ∈ new → visited x = false ∧ x ≠ u ∧ ∃ e, e ∈ es ∧ e.2 = x) ∧
    (∀ x, visited' x = visited x || bool_decide (x ∈ new)) ∧
    unvisited G visited' + length new = unvisited G visited ∧
    (found = false → ∀ e, e ∈ es → e.2 ≠ u ∧ visited' e.2 = true) ∧
    (found = true → ∃ e, e ∈ es ∧ e.2 = u).
Proof.
  induction es as [|e es IH]; intros visited Q found visited' Q' Hes Hscan;
    simpl in Hscan.
  - injection Hscan as <- <- <-. exists (@nil nat).
    split_and!; [by rewrite app_nil_r|constructor|set_solver| |simpl; lia|set_solver|done].
    intros x. rewrite bool_decide_eq_false_2 by set_solver. by rewrite orb_false_r.
  - destruct (decide (e.2 = u)) as [Eu|Hne].
    { injection Hscan as <- <- <-. exists (@nil nat).
      split_and!; [by rewrite app_nil_r|constructor|set_solver| |simpl; lia|done|].
      - intros x. rewrite bool_decide_eq_false_2 by set_solver. by rewrite orb_false_r.
      - intros _. exists e. split; [set_solver|done]. }
    destruct (visited e.2) eqn:Hvis.
    + destruct (IH visited Q found visited' Q') as
        (new & -> & Hnd & Hnew & Hvis' & Hcount & Hnf & Hf); [set_solver|done|].
      exists new. split_and!; try done.
      * intros x Hx. destruct (Hnew x Hx) as (? & ? & e' & ? & ?).
        split_and!; try done. exists e'. split; [set_solver|done].
      * intros -> e' He'. apply elem_of_cons in He' as [->|He']; [|by apply Hnf].
        split; [done|]. by rewrite Hvis', Hvis.
      * intros ->. destruct Hf as (e' & ? & ?); [done|]. exists e'. split; [set_solver|done].
    + destruct (IH (<[e.2 := true]> visited) (Q ++ [e.2]) found visited' Q') as
        (new & -> & Hnd & Hnew & Hvis' & Hcount & Hnf & Hf); [set_solver|done|].
      assert (Hfresh : e.2 ∉ new).
      { intros Hin. destruct (Hnew _ Hin) as [Hv _]. by rewrite fn_lookup_insert in Hv. }
      exists (e.2 :: new). split_and!.
      * by rewrite <- app_assoc.
      * by constructor.
      * intros x Hx. apply elem_of_cons in Hx as [->|Hx].
        -- split_and!; try done. exists e. split; [set_solver|done].
        -- destruct (Hnew x Hx) as (Hv & ? & e' & ? & ?).
           assert (x ≠ e.2) by (intros ->; done).
           rewrite fn_lookup_insert_ne in Hv by done.
           split_and!; try done. exists e'. split; [set_solver|done].
      * intros x. rewrite Hvis'. destruct (decide (x = e.2)) as [->|Hx].
        -- rewrite fn_lookup_insert. simpl.
           rewrite (bool_decide_eq_true_2 (e.2 ∈ e.2 :: new)) by set_solver.
           by rewrite orb_true_r.
        -- rewrite fn_lookup_insert_ne by done. f_equal.
           apply bool_decide_ext. set_solver.
      * assert (S (unvisited G (<[e.2 := true]> visited)) = unvisited G visited) as <-.
        { apply unvisited_in_mark; [apply NoDup_remove_dups| |done].
          apply elem_of_remove_dups, list_elem_of_fmap. exists e. split; [done|set_solver]. }
        simpl. lia.
      * intros -> e' He'. apply elem_of_cons in He' as [->|He']; [|by apply Hnf].
        split; [done|]. by rewrite Hvis', fn_lookup_insert.
      * intros ->. destruct Hf as (e' & ? & ?); [done|]. exists e'. split; [set_solver|done].
Qed.

Lemma rtc_has_edge_closed G (S : node → Prop) v x :
  S v → (∀ a b, S a → has_edge G a b → S b) → rtc (has_edge G) v x → S x.
Proof. intros Hv Hcl Hr. induction Hr; eauto. Qed.

Lemma reachable_loop_spec G v u : ∀ fuel visited Q succs,
  length Q + unvisited G visited ≤ fuel →
  (∀ x, visited x = true ↔ x ∈ succs ++ Q) →
  NoDup (succs ++ Q) →
  (∀ x, x ∈ succs ++ Q → rtc (has_edge G) v x) →
  (∀ x y, x ∈ succs → has_edge G x y → y ≠ u ∧ y ∈ succs ++ Q) →
  u ∉ succs ++ Q →
  v ∈ succs ++ Q →
  ∃ r visited' succs',
    reachable_loop fuel G u visited Q succs = Some (r, visited', succs') ∧
    (∀ x, visited' x = false) ∧
    (r = true ↔ rtc (has_edge G) v u) ∧
    (r = false → NoDup succs' ∧ ∀ x, x ∈ succs' ↔ rtc (has_edge G) v x).
Proof.
  induction fuel as [|fuel IH]; intros visited Q succs Hfuel Hvis Hnd Hreach Hcl Hu Hv.
  - destruct Q as [|w Q]; [|simpl in Hfuel; lia]. simpl.
    rewrite app_nil_r in *.
    assert (Hsucc : ∀ x, x ∈ succs ↔ rtc (has_edge G) v x).
    { intros x. split; [apply Hreach|].
      apply (rtc_has_edge_closed G (λ y, y ∈ succs)); [done|].
      intros a b Ha Hab. by apply (Hcl a b). }
    eexists _, _, _. split; [done|]. split_and!.
    + intros x. rewrite reset_visited_spec. case_decide; [done|].
      destruct (visited x) eqn:E; [|done]. by apply Hvis in E.
    + split; [done|]. intros Hr. by apply Hsucc in Hr.
    + done.
  - destruct Q as [|w Q].
    { simpl. rewrite app_nil_r in *.
      assert (Hsucc : ∀ x, x ∈ succs ↔ rtc (has_edge G) v x).
      { intros x. split; [apply Hreach|].
        apply (rtc_has_edge_closed G (λ y, y ∈ succs)); [done|].
      intros a b Ha Hab. by apply (Hcl a b). }
      eexists _, _, _. split; [done|]. split_and!.
      + intros x. rewrite reset_visited_spec. case_decide; [done|].
        destruct (visited x) eqn:E; [|done]. by apply Hvis in E.
      + split; [done|]. intros Hr. by apply Hsucc in Hr.
      + done. }
    simpl.
    destruct (reachable_scan u (adjEdges G w) visited Q) as [[found visited'] Q'] eqn:Hscan.
    destruct (reachable_scan_spec G u _ _ _ _ _ _
                (λ e He, proj1 (proj1 (elem_of_adjEdges G w e) He)) Hscan)
      as (new & -> & Hndnew & Hnew & Hvis' & Hcount & Hnf & Hf).
    assert (Hw : rtc (has_edge G) v w) by (apply Hreach; set_solver).
    assert (Hmem : ∀ x, x ∈ (succs ++ [w]) ++ Q ++ new ↔ x ∈ succs ++ w :: Q ∨ x ∈ new)
      by set_solver.
    assert (Hvis2 : ∀ x, visited' x = true ↔ x ∈ (succs ++ [w]) ++ Q ++ new).
    { intros x. rewrite Hmem, Hvis', orb_true_iff, bool_decide_eq_true. by rewrite Hvis. }
    destruct found.
    + (* u is a successor of w *)
      eexists _, _, _. split; [done|]. split_and!.
      * intros x. rewrite reset_visited_spec. case_decide as Hx; [done|].
        destruct (visited' x) eqn:E; [|done]. apply Hvis2 in E. set_solver.
      * split; [|done]. intros _. destruct Hf as (e & He & Eu); [done|].
        apply elem_of_adjEdges in He as [He [E|E]].
        -- eapply rtc_r; [exact Hw|]. unfold has_edge. by rewrite <- E, <- Eu, <- surjective_pairing.
        -- exfalso. apply Hu. rewrite <- Eu, E. set_solver.
      * done.
    + apply IH.
      * simpl in Hfuel. rewrite length_app. lia.
      * done.
      * replace ((succs ++ [w]) ++ Q ++ new) with ((succs ++ w :: Q) ++ new)
          by (by rewrite <- !app_assoc).
        apply NoDup_app. split_and!; [done| |done].
        intros x Hx Hx'. destruct (Hnew x Hx') as [E _].
        apply Hvis in Hx. congruence.
      * intros x Hx. apply Hmem in Hx as [Hx|Hx]; [by apply Hreach|].
        destruct (Hnew x Hx) as (Hvx & _ & e & He & <-).
        apply elem_of_adjEdges in He as [He [E|E]].
        -- eapply rtc_r; [exact Hw|]. unfold has_edge. by rewrite <- E, <- surjective_pairing.
        -- exfalso. rewrite E in Hvx.
           assert (visited w = true) by (apply Hvis; set_solver). congruence.
      * intros x y Hx Hxy. apply elem_of_app in Hx as [Hx|Hx].
        -- destruct (Hcl x y Hx Hxy) as [? ?]. split; [done|]. apply Hmem. by left.
        -- apply list_elem_of_singleton in Hx as ->.
           destruct (Hnf eq_refl (w, y)) as [? Hy].
           { apply elem_of_adjEdges. split; [done|by left]. }
           split; [done|]. by apply Hvis2.
      * intros Hin. apply Hmem in Hin as [Hin|Hin]; [done|].
        by destruct (Hnew u Hin) as (_ & ? & _).
      * apply Hmem. by left.
Qed.

Lemma remove_dups_length (l : list node) : length (remove_dups l) ≤ length l.
Proof.
  induction l as [|x l IH]; simpl; [done|]. case_decide; simpl; lia.
Qed.

Lemma unvisited_le G visited : unvisited G visited ≤ length (g_edges G).
Proof.
  unfold unvisited, unvisited_in.
  etrans; [apply length_filter|].
  etrans; [apply remove_dups_length|]. by rewrite length_fmap.
Qed.

(** [reachable] started with no node marked visited returns, leaves no node
    marked, answers whether [u] is reachable from [v], and when it is not, the
    list [successors] holds the nodes reachable from [v], each once. *)
Lemma reachable_spec G v u visited :
  (∀ x, visited x = false) →
  ∃ r visited' succs,
    reachable G v u visited = Some (r, visited', succs) ∧
    (∀ x, visited' x = false) ∧
    (r = true ↔ rtc (has_edge G) v u) ∧
    (r = false → NoDup succs ∧ ∀ x, x ∈ succs ↔ rtc (has_edge G) v x).
Proof.
  intros Hclean. unfold reachable. destruct (decide (u = v)) as [->|Hne].
  - eexists _, _, _. split; [done|]. split_and!; [done| |done].
    split; [|done]. intros _. apply rtc_refl.
  - apply reachable_loop_spec.
    + simpl. pose proof (unvisited_le G (<[v:=true]> visited)). lia.
    + intros x. simpl. destruct (decide (x = v)) as [->|Hx].
      * rewrite fn_lookup_insert. set_solver.
      * rewrite fn_lookup_insert_ne by done. rewrite Hclean. set_solver.
    + simpl. apply NoDup_singleton.
    + intros x Hx. simpl in Hx. apply list_elem_of_singleton in Hx as ->. apply rtc_refl.
    + intros x y Hx. by apply elem_of_nil in Hx.
    + simpl. set_solver.
    + simpl. set_solver.
Qed.

(** ** tryEdge and addEdge *)

(** C9. With both levels set, [level[u] >= level[v]] and [u] reachable from
    [v], [tryEdge] returns false; the graph, the whole [level] array and
    [m_auxDeg] are the ones before the call, and [m_aeVisited] is all false
    again. *)
Theorem tryEdge_reject_atomic (fuel : nat) (st : TryState) (u v : node) :
  (∀ x, t_aeVisited st x = false) →
  t_level st u ≠ (-1)%Z →
  t_level st v ≠ (-1)%Z →
  (t_level st v ≤ t_level st u)%Z →
  rtc (has_edge (t_G st)) v u →
  ∃ st',
    tryEdge fuel st u v = Some (st', false) ∧
    t_G st' = t_G st ∧
    t_level st' = t_level st ∧
    t_auxDeg st' = t_auxDeg st ∧
    (∀ x, t_aeVisited st' x = false).
Proof.
  intros Hclean Hu Hv Hle Hreach. unfold tryEdge.
  rewrite (bool_decide_eq_false_2 (t_level st u = (-1)%Z)) by done.
  rewrite (bool_decide_eq_false_2 (t_level st v = (-1)%Z)) by done.
  rewrite (bool_decide_eq_true_2 (t_level st v ≤ t_level st u)%Z) by done.
  destruct (reachable_spec (t_G st) v u (t_aeVisited st) Hclean)
    as (r & visited' & succs & -> & Hclean' & Hr & _).
  assert (r = true) as -> by (by apply Hr).
  eexists. split; [done|]. by split_and!.
Qed.

Lemma tryEdge_reject_atomic_witness :
  ∃ st',
    tryEdge 5 chain3 2 0 = Some (st', false) ∧
    t_G st' = t_G chain3 ∧
    t_level st' = t_level chain3 ∧
    t_auxDeg st' = t_auxDeg chain3 ∧
    (∀ x, t_aeVisited st' x = false).
Proof.
  apply (tryEdge_reject_atomic 5 chain3 2 0).
  - done.
  - done.
  - done.
  - simpl. lia.
  - apply (rtc_l _ _ 1); [unfold has_edge; simpl; set_solver|].
    apply rtc_once. unfold has_edge. simpl. set_solver.
Defined.

Lemma int_wrap_id z : (- INT_MAX - 1 ≤ z ≤ INT_MAX)%Z → int_wrap z = z.
Proof. unfold int_wrap, INT_MAX. intros Hz. rewrite Z.mod_small; lia. Qed.

Lemma foldl_shift_spec (d : Z) (succs : list node) (level : node → Z) x :
  NoDup succs →
  foldl (λ lv vi, <[vi := int_wrap (lv vi + d)]> lv) level succs x
  = if decide (x ∈ succs) then int_wrap (level x + d) else level x.
Proof.
  intros Hnd. revert level. induction Hnd as [|y l Hy Hnd IH]; intros level; cbn [foldl].
  - destruct (decide (x ∈ [])); [set_solver|done].
  - rewrite IH. destruct (decide (x ∈ l)), (decide (x ∈ y :: l)); try done.
    + rewrite fn_lookup_insert_ne; [done|]. intros ->. done.
    + set_solver.
    + assert (y = x) as -> by set_solver. by rewrite fn_lookup_insert.
    + rewrite fn_lookup_insert_ne; [done|set_solver].
Qed.

Lemma has_edge_newEdge G u v a b :
  has_edge (newEdge G u v).1 a b ↔ has_edge G a b ∨ (a = u ∧ b = v).
Proof. unfold has_edge, newEdge. simpl. set_solver. Qed.

Lemma topological_tc G level a b :
  topological G level → tc (has_edge G) a b → (level a < level b)%Z.
Proof.
  intros Ht Hab. induction Hab as [a b Hab|a b c Hab Hbc IH].
  - by apply Ht.
  - pose proof (Ht a b Hab). lia.
Qed.

Lemma topological_acyclic G level : topological G level → acyclic G.
Proof. intros Ht x Hx. pose proof (topological_tc G level x x Ht Hx). lia. Qed.

(** For two different nodes [addEdge] keeps the labeling topological, whether
    it adds the edge, adds the reversed edge or refuses it, as long as the
    levels are small enough for the shift not to leave the range of [int]. *)
Lemma addEdge_keeps_topological G (m_aeLevel : node → Z) (m_aeVisited : node → bool)
    (u v : node) (addAlways : bool) (B : Z) :
  topological G m_aeLevel →
  (∀ x, m_aeVisited x = false) →
  u ≠ v →
  (∀ x, (- B ≤ m_aeLevel x ≤ B)%Z) →
  (3 * B + 1 ≤ INT_MAX)%Z →
  ∃ G' level' visited' r,
    addEdge G m_aeLevel m_aeVisited u v addAlways = Some (G', level', visited', r) ∧
    topological G' level' ∧
    acyclic G' ∧
    (∀ x, visited' x = false) ∧
    (r = None → G' = G ∧ level' = m_aeLevel) ∧
    (r = None ↔ addAlways = false ∧ rtc (has_edge G) v u) ∧
    (∀ e, r = Some e →
          e = length (g_edges G) ∧
          (g_edges G' = g_edges G ++ [(u, v)] ∨
           (g_edges G' = g_edges G ++ [(v, u)] ∧ addAlways = true ∧
            rtc (has_edge G) v u))) ∧
    (∀ x, (m_aeLevel x ≤ level' x ≤ 3 * B + 1)%Z) ∧
    nodeIdCount G' = nodeIdCount G.
Proof.
  intros Htop Hclean Hne HB HB3. unfold addEdge.
  assert (Hkeep : ∀ x, (m_aeLevel x ≤ m_aeLevel x ≤ 3 * B + 1)%Z)
    by (intros x; specialize (HB x); lia).
  case_bool_decide as Hlt.
  { eexists _, _, _, _. split; [done|].
    assert (topological (newEdge G u v).1 m_aeLevel) as Ht'.
    { intros a b Hab. apply has_edge_newEdge in Hab as [Hab|[-> ->]]; [by apply Htop|done]. }
    split_and!; [done|by eapply topological_acyclic|done|done| | |done|done].
    - split; [done|]. intros [_ Hvu]. exfalso.
      apply rtc_tc in Hvu as [?|Hvu]; [congruence|].
      pose proof (topological_tc G _ _ _ Htop Hvu). lia.
    - intros e [= <-]. split; [done|]. by left. }
  destruct (reachable_spec G v u m_aeVisited Hclean)
    as (r & visited' & succs & -> & Hclean' & Hr & Hsuccs).
  simpl. destruct r; simpl.
  - (* u is reachable from v *)
    assert (Hvu : rtc (has_edge G) v u) by (by apply Hr).
    destruct addAlways.
    + eexists _, _, _, _. split; [done|].
      assert (topological (newEdge G v u).1 m_aeLevel) as Ht'.
      { intros a b Hab. apply has_edge_newEdge in Hab as [Hab|[-> ->]]; [by apply Htop|].
        apply (topological_tc G); [done|].
        apply rtc_tc in Hvu as [?|?]; [congruence|done]. }
      split_and!; [done|by eapply topological_acyclic|done|done| | |done|done].
      * split; [done|]. by intros [? _].
      * intros e [= <-]. split; [done|]. right. done.
    + eexists _, _, _, _. split; [done|].
      split_and!; [done|by eapply topological_acyclic|done|done|done|done|done|done].
  - (* u is not reachable from v: the successors of v move down *)
    destruct (Hsuccs eq_refl) as [Hnd Hmem].
    assert (Hnvu : ¬ rtc (has_edge G) v u) by (intros H; apply Hr in H; done).
    pose proof (HB u) as HBu. pose proof (HB v) as HBv.
    rewrite (int_wrap_id (m_aeLevel u - m_aeLevel v + 1)) by lia.
    set (d := (m_aeLevel u - m_aeLevel v + 1)%Z).
    assert (Hd : (0 < d ≤ 2 * B + 1)%Z) by (unfold d; lia).
    rewrite (bool_decide_eq_true_2 (0 < d)%Z) by lia.
    eexists _, _, _, _. split; [done|].
    assert (Hshift : ∀ x,
              foldl (λ lv vi, <[vi := int_wrap (lv vi + d)]> lv) m_aeLevel succs x
              = if decide (x ∈ succs) then (m_aeLevel x + d)%Z else m_aeLevel x).
    { intros x. rewrite foldl_shift_spec by done.
      destruct (decide (x ∈ succs)); [|done].
      apply int_wrap_id. specialize (HB x). lia. }
    assert (topological (newEdge G u v).1
              (foldl (λ lv vi, <[vi := int_wrap (lv vi + d)]> lv) m_aeLevel succs)) as Ht'.
    { intros a b Hab. rewrite !Hshift.
      apply has_edge_newEdge in Hab as [Hab|[-> ->]].
      - pose proof (Htop a b Hab).
        destruct (decide (a ∈ succs)) as [Ha|Ha], (decide (b ∈ succs)) as [Hb|Hb]; try lia.
        exfalso. apply Hb, Hmem. eapply rtc_r; [by apply Hmem|done].
      - rewrite decide_False by (by rewrite Hmem).
        rewrite decide_True by (apply Hmem, rtc_refl). unfold d. lia. }
    split_and!; [done|by eapply topological_acyclic|done|done| | | |done].
    + split; [done|]. by intros [_ ?].
    + intros e [= <-]. split; [done|]. by left.
    + intros x. rewrite Hshift. specialize (HB x).
      destruct (decide (x ∈ succs)); lia.
Qed.

(** ** The constructor: edges between clusters *)

Lemma same_arrays_refl H : same_arrays H H.
Proof. by repeat split. Qed.

Lemma same_arrays_trans H1 H2 H3 :
  same_arrays H1 H2 → same_arrays H2 H3 → same_arrays H1 H3.
Proof.
  intros (? & ? & ? & ? & ? & ? & ?) (? & ? & ? & ? & ? & ? & ?).
  repeat split; congruence.
Qed.

Lemma ENG_lca_frame fuel CG H u v H1 c :
  ENG_lca fuel CG H u v = Some (H1, c) →
  eng_G H1 = eng_G H ∧ m_aeLevel H1 = m_aeLevel H ∧ m_aeVisited H1 = m_aeVisited H ∧
  same_arrays H H1.
Proof.
  unfold ENG_lca. intros Hl.
  destruct (lca_loop _ _ _ _ _ _ _ _ _ _) as [[[[[c' mark] marked] sp] spt]|];
    simpl in Hl; [|done].
  injection Hl as <- <-. by repeat split.
Qed.

Lemma Graph_addEdges_nil G : Graph_addEdges G [] = G.
Proof. destruct G. unfold Graph_addEdges. simpl. by rewrite app_nil_r. Qed.

Lemma Graph_addEdges_app G es1 es2 :
  Graph_addEdges (Graph_addEdges G es1) es2 = Graph_addEdges G (es1 ++ es2).
Proof. unfold Graph_addEdges. simpl. by rewrite app_assoc. Qed.

(** A call [addEdge(u, v)] that may refuse, on two different nodes: it adds
    the edge exactly when [u] cannot be reached from [v], and keeps the
    labeling topological and within the range of [int]. *)
Lemma ENG_addEdge_attempt H u v (B : Z) :
  ENG_ok H → u ≠ v →
  (∀ x, (- B ≤ m_aeLevel H x ≤ B)%Z) →
  (3 * B + 1 ≤ INT_MAX)%Z →
  ∃ H' r,
    ENG_addEdge H u v false = Some (H', r) ∧
    attempt_on (eng_G H) (mkAttempt u v (bool_decide (is_Some r))) ∧
    ENG_ok H' ∧
    same_arrays H H' ∧
    eng_G H'
    = Graph_addEdges (eng_G H) (attempt_edges [mkAttempt u v (bool_decide (is_Some r))]) ∧
    (∀ x, (m_aeLevel H x ≤ m_aeLevel H' x ≤ 3 * B + 1)%Z).
Proof.
  intros [Htop Hclean] Hne HB HB3.
  destruct (addEdge_keeps_topological (eng_G H) (m_aeLevel H) (m_aeVisited H)
              u v false B Htop Hclean Hne HB HB3)
    as (G' & level' & visited' & r & Hadd & Htop' & _ & Hclean' & Hnone & Hiff & Hsome
        & Hbound & Hcount).
  unfold ENG_addEdge. rewrite Hadd. simpl.
  eexists _, r. split; [done|]. simpl.
  unfold attempt_on, attempt_edges. simpl.
  destruct r as [eH|].
  - rewrite bool_decide_eq_true_2 by done. simpl.
    split_and!; [|done|done| |done].
    + intros Hvu. assert (Some eH = None) by (by apply Hiff). done.
    + destruct (Hsome eH eq_refl) as [_ [Hedges|(_ & ? & _)]]; [|done].
      destruct G'. unfold Graph_addEdges. simpl in *. by rewrite Hedges, Hcount.
  - rewrite bool_decide_eq_false_2 by (by intros [? ?]). simpl.
    split_and!; [|done|done| |done].
    + by apply Hiff.
    + destruct (Hnone eq_refl) as [-> _]. by rewrite Graph_addEdges_nil.
Qed.

(** C6 (amended). For an original edge [e] whose ends [u], [v], taken in the
    direction of the first edge of its chain (the source and the target of
    [e], swapped when the adjacency edge was inserted reversed), lie in
    different clusters, with [c = lca(u, v)] and the witness clusters [cFrom],
    [cTo]: the body of the loop makes exactly the calls that
    [clusterOrder_attempts] describes — the edge [bottom(cFrom) -> top(cTo)]
    exactly when both witnesses differ from [c], and the two edges
    [copy(u) -> top(cTo)], [bottom(cFrom) -> copy(v)] exactly when that call
    was not made or gave no edge — a call gives no edge exactly when its
    source can be reached from its target, and the graph afterwards is the
    graph before with the edges of the successful calls added.  The levels
    are taken small enough for [addEdge] to stay within the range of [int]. *)
Theorem clusterOrderEdges_attempts (fuel : nat) (CG : ClusterGraph) (H : ENG)
    (e : edge) (u v : node) (H1 : ENG) (c cFrom cTo : cluster) (B : Z) :
  ENG_ok H →
  (∀ x, (- B ≤ m_aeLevel H x ≤ B)%Z) →
  (27 * B + 13 ≤ INT_MAX)%Z →
  ENG_orientedEnds CG H e = Some (u, v) →
  clusterOf CG u ≠ clusterOf CG v →
  ENG_lca fuel CG H u v = Some (H1, c) →
  ENG_witnesses H1 c v = Some (cFrom, cTo) →
  m_bottomNode H cFrom ≠ m_topNode H cTo →
  m_copy H u ≠ m_topNode H cTo →
  m_bottomNode H cFrom ≠ m_copy H v →
  ∃ H' log,
    ENG_clusterOrderEdges_body fuel CG H e = Some (H', log) ∧
    clusterOrder_attempts H u v c cFrom cTo log ∧
    eng_G H' = Graph_addEdges (eng_G H) (attempt_edges log) ∧
    ENG_ok H' ∧
    same_arrays H H' ∧
    (∀ x, (m_aeLevel H x ≤ m_aeLevel H' x ≤ 27 * B + 13)%Z).
Proof.
  intros Hok HB HB27 Hends Hcl Hlca Hwit Hn1 Hn2 Hn3.
  pose proof (HB 0) as HB0.
  destruct (ENG_lca_frame _ _ _ _ _ _ _ Hlca) as (EG & El & Ev & Hs1).
  assert (Hok1 : ENG_ok H1) by (unfold ENG_ok; by rewrite EG, El, Ev).
  assert (HB1 : ∀ x, (- B ≤ m_aeLevel H1 x ≤ B)%Z) by (by rewrite El).
  pose proof Hs1 as (Ecopy & Etop & Ebot & _).
  unfold ENG_clusterOrderEdges_body. rewrite Hends. simpl.
  rewrite decide_True by done. rewrite Hlca. simpl. rewrite Hwit. simpl.
  rewrite Ebot, Etop.
  (* the two relaxed edges, from a state that still has the graph and the
     arrays of H *)
  assert (Hrelax : ∀ H2 (B2 : Z), ENG_ok H2 → same_arrays H H2 → eng_G H2 = eng_G H →
            (∀ x, (- B2 ≤ m_aeLevel H2 x ≤ B2)%Z) → (9 * B2 + 4 ≤ INT_MAX)%Z →
            ∃ H3 r3 H4 r4,
              ENG_addEdge H2 (m_copy H u) (m_topNode H cTo) false = Some (H3, r3) ∧
              same_arrays H H3 ∧
              ENG_addEdge H3 (m_bottomNode H cFrom) (m_copy H v) false = Some (H4, r4) ∧
              relaxed_attempts H u v cFrom cTo
                [mkAttempt (m_copy H u) (m_topNode H cTo) (bool_decide (is_Some r3));
                 mkAttempt (m_bottomNode H cFrom) (m_copy H v) (bool_decide (is_Some r4))] ∧
              eng_G H4
              = Graph_addEdges (eng_G H)
                  (attempt_edges
                     [mkAttempt (m_copy H u) (m_topNode H cTo) (bool_decide (is_Some r3));
                      mkAttempt (m_bottomNode H cFrom) (m_copy H v)
                                (bool_decide (is_Some r4))]) ∧
              ENG_ok H4 ∧ same_arrays H H4 ∧
              ∀ x, (m_aeLevel H2 x ≤ m_aeLevel H4 x ≤ 9 * B2 + 4)%Z).
  { intros H2 B2 Hok2 Hs2 EG2 HB2 HB9.
    pose proof (HB2 0) as HB20.
    destruct (ENG_addEdge_attempt H2 (m_copy H u) (m_topNode H cTo) B2 Hok2 Hn2 HB2)
      as (H3 & r3 & Ha3 & Hr3 & Hok3 & Hs3 & HG3 & Hb3); [lia|].
    destruct (ENG_addEdge_attempt H3 (m_bottomNode H cFrom) (m_copy H v) (3 * B2 + 1)
                Hok3 Hn3)
      as (H4 & r4 & Ha4 & Hr4 & Hok4 & Hs4 & HG4 & Hb4).
    { intros x. specialize (HB2 x). specialize (Hb3 x). lia. }
    { lia. }
    rewrite EG2 in Hr3, HG3. rewrite HG3 in Hr4, HG4.
    exists H3, r3, H4, r4.
    assert (Hs13 : same_arrays H H3) by (by eapply same_arrays_trans).
    split_and!; [done|done|done| | |done|by eapply same_arrays_trans|].
    - eexists _, _. cbv zeta. split_and!; [exact Hr3|exact Hr4|done].
    - rewrite HG4, Graph_addEdges_app. f_equal. unfold attempt_edges. simpl.
      by rewrite !app_nil_r.
    - intros x. specialize (Hb3 x). specialize (Hb4 x). lia. }
  unfold clusterOrder_attempts. cbv zeta.
  destruct (decide (cFrom ≠ c ∧ cTo ≠ c)) as [Hboth|Hnboth].
  - destruct (ENG_addEdge_attempt H1 (m_bottomNode H cFrom) (m_topNode H cTo) B
                Hok1 Hn1 HB1)
      as (H2 & r & Ha & Hr & Hok2 & Hs2 & HG2 & Hb2); [lia|].
    rewrite Ha. simpl. rewrite EG in Hr, HG2.
    assert (Hs : same_arrays H H2) by (by eapply same_arrays_trans).
    destruct r as [eH|].
    + rewrite (bool_decide_eq_true_2 (is_Some (Some eH))) in * by done.
      eexists H2, _. split; [done|]. split_and!; [by left|done|done|done|].
      intros x. specialize (Hb2 x). rewrite El in Hb2. specialize (HB x). lia.
    + rewrite (bool_decide_eq_false_2 (is_Some None)) in * by (by intros [? ?]).
      assert (EG2 : eng_G H2 = eng_G H) by (rewrite HG2; apply Graph_addEdges_nil).
      destruct (Hrelax H2 (3 * B + 1)%Z Hok2 Hs EG2)
        as (H3 & r3 & H4 & r4 & Ha3 & Hs3 & Ha4 & Hlog & HG4 & Hok4 & Hs4 & Hb4).
      { intros x. specialize (Hb2 x). rewrite El in Hb2. specialize (HB x). lia. }
      { lia. }
      pose proof Hs as (Ecopy2 & Etop2 & Ebot2 & _).
      pose proof Hs3 as (Ecopy3 & Etop3 & Ebot3 & _).
      rewrite Ecopy2, Etop2, Ha3. simpl. rewrite Ebot3, Ecopy3, Ha4. simpl.
      eexists H4, _. split; [done|]. split_and!; [|done|done|done|].
      * right. split; [done|]. eexists. split; [exact Hlog|done].
      * intros x. specialize (Hb2 x). specialize (Hb4 x). rewrite El in Hb2. lia.
  - destruct (Hrelax H1 B Hok1 Hs1 EG HB1)
      as (H3 & r3 & H4 & r4 & Ha3 & Hs3 & Ha4 & Hlog & HG4 & Hok4 & Hs4 & Hb4); [lia|].
    pose proof Hs3 as (Ecopy3 & Etop3 & Ebot3 & _).
    simpl. rewrite Ecopy, Etop, Ha3. simpl. rewrite Ebot3, Ecopy3, Ha4. simpl.
    eexists H4, _. split; [done|]. split_and!; [done|done|done|done|].
    intros x. specialize (Hb4 x). rewrite El in Hb4. specialize (HB x). lia.
Qed.

Lemma siblings_H_ok : ENG_ok siblings_H.
Proof.
  split; [|done]. intros a b Hab. unfold has_edge in Hab. simpl in Hab.
  repeat (apply elem_of_cons in Hab as [[= -> ->]|Hab]; [simpl; lia|]).
  by apply elem_of_nil in Hab.
Qed.

Lemma siblings_level_bound x : (- 7 ≤ siblings_level x ≤ 7)%Z.
Proof. do 8 (destruct x as [|x]; [simpl; lia|]). simpl. lia. Qed.

Lemma clusterOrderEdges_attempts_witness :
  ∃ H' log,
    ENG_clusterOrderEdges_body 3 siblings_CG siblings_H 0 = Some (H', log) ∧
    clusterOrder_attempts siblings_H 0 1 0 1 2 log ∧
    eng_G H' = Graph_addEdges (eng_G siblings_H) (attempt_edges log) ∧
    ENG_ok H' ∧
    same_arrays siblings_H H' ∧
    (∀ x, (m_aeLevel siblings_H x ≤ m_aeLevel H' x ≤ 27 * 7 + 13)%Z).
Proof.
  eapply (clusterOrderEdges_attempts 3 siblings_CG siblings_H 0 0 1 _ 0 1 2 7).
  - apply siblings_H_ok.
  - apply siblings_level_bound.
  - unfold INT_MAX. lia.
  - reflexivity.
  - simpl. lia.
  - reflexivity.
  - reflexivity.
  - simpl. lia.
  - simpl. lia.
  - simpl. lia.
Defined.

Example clusterOrderEdges_attempts_run :
  (λ r, (g_edges (eng_G r.1), r.2)) <$> ENG_clusterOrderEdges_body 3 siblings_CG siblings_H 0
  = Some (g_edges (eng_G siblings_H) ++ [(5, 6)], [mkAttempt 5 6 true]).
Proof. reflexivity. Qed.

(** The graph and the levels of [reversed_H] are the ones the constructor
    builds for [reversed_CG] before it adds the adjacency edges. *)
Example reversed_H_seed :
  g_edges <$> ENG_containmentEdges reversed_CG [0; 1] reversed_H0
  = Some (g_edges (eng_G reversed_H)) ∧
  (λ st, (st.1 <$> [0; 1; 2; 3; 4; 5], st.2))
    <$> ENG_assignAeLevel 2 reversed_T reversed_H0 0 (λ _, (-1)%Z, 0%Z)
  = Some (m_aeLevel reversed_H <$> [0; 1; 2; 3; 4; 5], 6%Z).
Proof. split; reflexivity. Qed.

(** C6, as the claim words it, fails for an edge that the adjacency loop
    inserted reversed.  In [reversed_CG] the edge 1 is [1 -> 0]; after the
    edge 0, [0 -> 1], it is inserted as [0 -> 1].  The second loop then makes
    the calls [copy(0) -> top(1)] and [bottom(0) -> copy(1)]: they start from
    the target of the edge, and with the source 1 and the target 0 as [u] and
    [v] no choice of [c], [cFrom] and [cTo] describes them. *)
Lemma clusterOrderEdges_reversed_edge :
  ∃ H1 H2 log0 H3 log,
    ENG_adjacencyEdges reversed_CG reversed_H = Some H1 ∧
    ENG_clusterOrderEdges_body 3 reversed_CG H1 0 = Some (H2, log0) ∧
    cg_edges reversed_CG !! 1 = Some (1, 0) ∧
    clusterOf reversed_CG 1 ≠ clusterOf reversed_CG 0 ∧
    ENG_orientedEnds reversed_CG H2 1 = Some (0, 1) ∧
    ENG_clusterOrderEdges_body 3 reversed_CG H2 1 = Some (H3, log) ∧
    log = [mkAttempt 0 4 true; mkAttempt 3 1 false] ∧
    ∀ c cFrom cTo, ¬ clusterOrder_attempts H2 1 0 c cFrom cTo log.
Proof.
  eexists _, _, _, _, _.
  split; [vm_compute; reflexivity|]. split; [vm_compute; reflexivity|].
  split; [reflexivity|]. split; [simpl; lia|].
  split; [vm_compute; reflexivity|]. split; [vm_compute; reflexivity|].
  split; [reflexivity|].
  intros c cFrom cTo Hc.
  unfold clusterOrder_attempts, relaxed_attempts in Hc. cbv zeta in Hc.
  destruct (decide (cFrom ≠ c ∧ cTo ≠ c)).
  - destruct Hc as [[_ Hl]|[_ (l' & (b2 & b3 & _ & _ & ->) & Hl)]]; discriminate Hl.
  - destruct Hc as (b2 & b3 & _ & _ & Hl).
    apply (f_equal (λ l, at_u <$> head l)) in Hl. vm_compute in Hl. discriminate Hl.
Qed.

(** C4 at a self-loop. [addEdge(u, u, true)] returns an edge from [u] to
    itself in every state: [reachable] answers true at once, and the
    "reversed" edge is added.  The labeling is not topological afterwards and
    the graph has a cycle. *)
Theorem addEdge_self_loop (G : Graph) (m_aeLevel : node → Z)
    (m_aeVisited : node → bool) (u : node) :
  addEdge G m_aeLevel m_aeVisited u u true
    = Some ((newEdge G u u).1, m_aeLevel, m_aeVisited, Some (length (g_edges G))) ∧
  has_edge (newEdge G u u).1 u u ∧
  ¬ topological (newEdge G u u).1 m_aeLevel ∧
  ¬ acyclic (newEdge G u u).1.
Proof.
  assert (Hloop : has_edge (newEdge G u u).1 u u)
    by (apply has_edge_newEdge; by right).
  split_and!.
  - unfold addEdge. rewrite bool_decide_eq_false_2 by lia.
    unfold reachable. by rewrite decide_True.
  - done.
  - intros Ht. specialize (Ht u u Hloop). lia.
  - intros Ha. apply (Ha u). by apply tc_once.
Qed.

(** The same in the constructor: the labeling seeded by [assignAeLevel] is
    topological, and the loop that adds the adjacency edges turns the
    self-loop of the input into a self-loop of the nesting graph. *)
Example adjacencyEdges_self_loop :
  ENG_ok selfloop_H ∧
  ∃ H', ENG_adjacencyEdges selfloop_CG selfloop_H = Some H' ∧
        has_edge (eng_G H') 0 0 ∧ m_copyEdge H' 0 = [2] ∧
        ¬ topological (eng_G H') (m_aeLevel H').
Proof.
  split.
  - split; [|done]. intros a b Hab. unfold has_edge in Hab. simpl in Hab.
    repeat (apply elem_of_cons in Hab as [[= -> ->]|Hab]; [simpl; lia|]).
    by apply elem_of_nil in Hab.
  - eexists. split; [reflexivity|]. split_and!.
    + unfold has_edge. simpl. set_solver.
    + reflexivity.
    + intros Ht. assert (has_edge (mkGraph 3 [(1, 0); (0, 2); (0, 0)]) 0 0) as Hl
        by (unfold has_edge; simpl; set_solver).
      specialize (Ht 0 0 Hl). simpl in Ht. lia.
Qed.

(** ** tryEdge keeps the levels topological *)

Lemma foldl_adjEdges {A} (step : A → node * node → A) G w : ∀ a,
  foldl step a (adjEdges G w)
  = foldl (λ a e, let a1 := if decide (e.1 = w) then step a e else a in
                  if decide (e.2 = w) then step a1 e else a1)
          a (g_edges G).
Proof.
  unfold adjEdges. induction (g_edges G) as [|e es IH]; intros a; [done|].
  rewrite bind_cons, foldl_app, IH. simpl.
  by destruct (decide (e.1 = w)), (decide (e.2 = w)).
Qed.

Lemma count_edges_nonneg f es : (0 ≤ count_edges f es)%Z.
Proof. induction es as [|e es IH]; simpl; [lia|]. destruct (f e); lia. Qed.

Lemma count_edges_app f es1 es2 :
  count_edges f (es1 ++ es2) = (count_edges f es1 + count_edges f es2)%Z.
Proof. induction es1 as [|e es1 IH]; simpl; [lia|]. rewrite IH. lia. Qed.

Lemma count_edges_ext f g es :
  (∀ e, e ∈ es → f e = g e) → count_edges f es = count_edges g es.
Proof.
  induction es as [|e es IH]; intros Hfg; [done|]. simpl.
  rewrite (Hfg e) by set_solver. rewrite IH; [done|]. intros. apply Hfg. set_solver.
Qed.

Lemma count_edges_pos f es :
  (0 < count_edges f es)%Z ↔ ∃ e, e ∈ es ∧ f e = true.
Proof.
  induction es as [|e es IH]; simpl.
  - split; [lia|]. intros (e & He & _). by apply elem_of_nil in He.
  - pose proof (count_edges_nonneg f es). destruct (f e) eqn:Hf.
    + split; [|lia]. intros _. exists e. split; [set_solver|done].
    + rewrite Z.add_0_l, IH. split.
      * intros (e' & ? & ?). exists e'. split; [set_solver|done].
      * intros (e' & He' & Hf'). apply elem_of_cons in He' as [->|He'];
          [congruence|]. by exists e'.
Qed.

Lemma moveDown_release_edges w es : ∀ deg Q,
  (∀ t, (0 < count_edges (λ e, bool_decide (e.1 = w ∧ e.2 = t ∧ t ≠ w)) es)%Z →
        (count_edges (λ e, bool_decide (e.1 = w ∧ e.2 = t ∧ t ≠ w)) es ≤ deg t)%Z) →
  ∃ deg' new,
    foldl (λ a e, let a1 := if decide (e.1 = w) then moveDown_release w a e else a in
                  if decide (e.2 = w) then moveDown_release w a1 e else a1)
          (deg, Q) es = (deg', Q ++ new) ∧
    (∀ t, deg' t
          = (deg t - count_edges (λ e, bool_decide (e.1 = w ∧ e.2 = t ∧ t ≠ w)) es)%Z) ∧
    NoDup new ∧
    (∀ t, t ∈ new ↔
          (0 < count_edges (λ e, bool_decide (e.1 = w ∧ e.2 = t ∧ t ≠ w)) es)%Z ∧
          deg' t = 0%Z).
Proof.
  induction es as [|e es IH] using rev_ind; intros deg Q Hpre.
  - exists deg, []. simpl. rewrite app_nil_r. split_and!; [done| |constructor|].
    + intros t. lia.
    + intros t. split; [by intros ?%elem_of_nil|lia].
  - destruct (IH deg Q) as (deg' & new & Hrun & Hdeg & Hnd & Hnew).
    { intros t Ht. specialize (Hpre t). rewrite count_edges_app in Hpre.
      simpl in Hpre. destruct (bool_decide _) in Hpre; lia. }
    rewrite foldl_app, Hrun. cbn [foldl].
    assert (Hstep :
      (let a1 := if decide (e.1 = w) then moveDown_release w (deg', Q ++ new) e
                 else (deg', Q ++ new) in
       if decide (e.2 = w) then moveDown_release w a1 e else a1)
      = if decide (e.1 = w ∧ e.2 ≠ w)
        then (<[e.2 := (deg' e.2 - 1)%Z]> deg',
              if bool_decide (deg' e.2 - 1 = 0)%Z then Q ++ new ++ [e.2] else Q ++ new)
        else (deg', Q ++ new)).
    { unfold moveDown_release. simpl.
      destruct (decide (e.1 = w)) as [E1|E1], (decide (e.2 = w)) as [E2|E2].
      - rewrite decide_False by tauto. by rewrite !decide_False by tauto.
      - rewrite decide_True by tauto. rewrite decide_True by done.
        rewrite fn_lookup_insert. case_bool_decide; [by rewrite app_assoc|done].
      - rewrite decide_False by tauto. by rewrite decide_False by tauto.
      - by rewrite decide_False by tauto. }
    cbv zeta in Hstep. rewrite Hstep. clear Hstep.
    destruct (decide (e.1 = w ∧ e.2 ≠ w)) as [[E1 E2]|Hno].
    + assert (Hone : ∀ t, count_edges (λ e0, bool_decide (e0.1 = w ∧ e0.2 = t ∧ t ≠ w))
                                      (es ++ [e])
                          = (count_edges (λ e0, bool_decide (e0.1 = w ∧ e0.2 = t ∧ t ≠ w)) es
                             + if decide (t = e.2) then 1 else 0)%Z).
      { intros t. rewrite count_edges_app. simpl.
        destruct (decide (t = e.2)) as [->|Hne].
        - rewrite bool_decide_eq_true_2 by done. lia.
        - rewrite bool_decide_eq_false_2 by (intros (_ & ? & _); congruence). lia. }
      pose proof (Hpre e.2) as Hpe. rewrite Hone, decide_True in Hpe by done.
      pose proof (count_edges_nonneg
                    (λ e0, bool_decide (e0.1 = w ∧ e0.2 = e.2 ∧ e.2 ≠ w)) es) as Hnn.
      assert (He2 : e.2 ∉ new).
      { intros Hin. apply Hnew in Hin as [_ Hz]. rewrite Hdeg in Hz. lia. }
      case_bool_decide as Hz.
      * exists (<[e.2 := (deg' e.2 - 1)%Z]> deg'), (new ++ [e.2]).
        split_and!.
        -- done.
        -- intros t. rewrite Hone. destruct (decide (t = e.2)) as [->|Hne].
           ++ rewrite fn_lookup_insert, Hdeg. lia.
           ++ rewrite fn_lookup_insert_ne by done. rewrite Hdeg. lia.
        -- apply NoDup_app. split_and!; [done| |apply NoDup_singleton].
           intros x Hx ->%list_elem_of_singleton. done.
        -- intros t. rewrite Hone, elem_of_app, list_elem_of_singleton, Hnew.
           destruct (decide (t = e.2)) as [->|Hne].
           ++ rewrite fn_lookup_insert. split; [intros _; split; [lia|done]|by right].
           ++ rewrite fn_lookup_insert_ne by done. split.
              ** intros [[? ?]|?]; [split; [lia|done]|done].
              ** intros [? ?]. left. split; [lia|done].
      * exists (<[e.2 := (deg' e.2 - 1)%Z]> deg'), new.
        split_and!.
        -- done.
        -- intros t. rewrite Hone. destruct (decide (t = e.2)) as [->|Hne].
           ++ rewrite fn_lookup_insert, Hdeg. lia.
           ++ rewrite fn_lookup_insert_ne by done. rewrite Hdeg. lia.
        -- done.
        -- intros t. rewrite Hone, Hnew.
           destruct (decide (t = e.2)) as [->|Hne].
           ++ rewrite fn_lookup_insert. split; [intros [_ Hz']|intros [_ Hz']].
              ** rewrite Hdeg in Hz'. lia.
              ** done.
           ++ rewrite fn_lookup_insert_ne by done. split; intros [? ?]; (split; [lia|done]).
    + assert (Hsame : ∀ t, count_edges (λ e0, bool_decide (e0.1 = w ∧ e0.2 = t ∧ t ≠ w))
                                       (es ++ [e])
                           = count_edges (λ e0, bool_decide (e0.1 = w ∧ e0.2 = t ∧ t ≠ w)) es).
      { intros t. rewrite count_edges_app. simpl.
        rewrite bool_decide_eq_false_2; [lia|]. intros (? & ? & ?). apply Hno. split; congruence. }
      exists deg', new. split_and!; [done| |done|].
      * intros t. by rewrite Hsame.
      * intros t. by rewrite Hsame.
Qed.

Lemma moveDown_countPreds_spec G (visited : node → bool) vi : ∀ deg x,
  moveDown_countPreds G visited deg vi x
  = if decide (x = vi)
    then (deg vi + count_edges (λ e, bool_decide (e.2 = vi ∧ e.1 ≠ vi) && visited e.1)
                               (g_edges G))%Z
    else deg x.
Proof.
  intros deg x. unfold moveDown_countPreds. rewrite foldl_adjEdges.
  revert deg. induction (g_edges G) as [|e es IH]; intros deg.
  - simpl. destruct (decide (x = vi)) as [->|]; [lia|done].
  - cbn [foldl count_edges]. rewrite IH. clear IH. cbv zeta.
    destruct (decide (e.1 = vi)) as [E1|E1], (decide (e.2 = vi)) as [E2|E2],
             (decide (x = vi)) as [->|Hx], (visited e.1) eqn:Hv;
      repeat first [rewrite decide_True by tauto | rewrite decide_False by tauto
                   | rewrite bool_decide_eq_true_2 by tauto
                   | rewrite bool_decide_eq_false_2 by tauto
                   | rewrite Hv
                   | rewrite fn_lookup_insert
                   | rewrite fn_lookup_insert_ne by done
                   | progress simpl ];
      try lia; try done.
Qed.

Lemma moveDown_countPreds_fold G (visited : node → bool) (succs : list node) :
  ∀ deg x, NoDup succs →
  foldl (moveDown_countPreds G visited) deg succs x
  = if decide (x ∈ succs)
    then (deg x + count_edges (λ e, bool_decide (e.2 = x ∧ e.1 ≠ x) && visited e.1)
                              (g_edges G))%Z
    else deg x.
Proof.
  induction succs as [|vi succs IH]; intros deg x Hnd.
  - done.
  - apply NoDup_cons in Hnd as [Hvi Hnd]. cbn [foldl]. rewrite IH by done.
    rewrite moveDown_countPreds_spec.
    destruct (decide (x = vi)) as [->|Hne].
    + rewrite decide_False by done. by rewrite decide_True by set_solver.
    + destruct (decide (x ∈ succs)).
      * by rewrite decide_True by set_solver.
      * by rewrite decide_False by set_solver.
Qed.

Lemma foldl_increasing {E} (f : Z → E → Z) (es : list E) :
  (∀ m e, (m ≤ f m e)%Z) → ∀ m0, (m0 ≤ foldl f m0 es)%Z.
Proof.
  intros Hf. induction es as [|e es IH]; intros m0; simpl; [lia|].
  specialize (IH (f m0 e)). specialize (Hf m0 e). lia.
Qed.

Lemma moveDown_maxLevel_spec G w (level : node → Z) s :
  has_edge G s w → s ≠ w →
  (level s ≤ moveDown_maxLevel w level (adjEdges G w))%Z.
Proof.
  unfold moveDown_maxLevel, has_edge. rewrite foldl_adjEdges.
  generalize 0%Z. induction (g_edges G) as [|e es IH]; intros m0 Hin Hne.
  - by apply elem_of_nil in Hin.
  - cbn [foldl]. apply elem_of_cons in Hin as [<-|Hin]; [|by apply IH].
    etrans; [|apply foldl_increasing; intros m e; cbv zeta;
               repeat destruct (decide _); lia].
    simpl. repeat destruct (decide _); try done; lia.
Qed.

Lemma foldl_mark_visited (l : list node) : ∀ (visited : node → bool) x,
  foldl (λ vis vi, <[vi := true]> vis) visited l x
  = if decide (x ∈ l) then true else visited x.
Proof.
  induction l as [|y l IH]; intros visited x; [done|].
  cbn [foldl]. rewrite IH. destruct (decide (x ∈ l)).
  - by rewrite decide_True by set_solver.
  - destruct (decide (x = y)) as [->|].
    + rewrite fn_lookup_insert. by rewrite decide_True by set_solver.
    + rewrite fn_lookup_insert_ne by done. by rewrite decide_False by set_solver.
Qed.

Lemma foldl_zero_auxDeg (l : list node) : ∀ (deg : node → Z) x,
  foldl (λ d vi, <[vi := 0%Z]> d) deg l x = if decide (x ∈ l) then 0%Z else deg x.
Proof.
  induction l as [|y l IH]; intros deg x; [done|].
  cbn [foldl]. rewrite IH. destruct (decide (x ∈ l)).
  - by rewrite decide_True by set_solver.
  - destruct (decide (x = y)) as [->|].
    + rewrite fn_lookup_insert. by rewrite decide_True by set_solver.
    + rewrite fn_lookup_insert_ne by done. by rewrite decide_False by set_solver.
Qed.

Lemma filter_ext_in {A} (P1 P2 : A → Prop)
    `{!∀ x, Decision (P1 x), !∀ x, Decision (P2 x)} (l : list A) :
  (∀ x, x ∈ l → P1 x ↔ P2 x) → filter P1 l = filter P2 l.
Proof.
  induction l as [|y l IH]; intros Hext; [done|].
  rewrite !filter_cons. rewrite IH by (intros; apply Hext; set_solver).
  destruct (decide (P1 y)) as [H1|H1], (decide (P2 y)) as [H2|H2]; try done.
  - exfalso. apply H2, Hext; [set_solver|done].
  - exfalso. apply H1, Hext; [set_solver|done].
Qed.

Lemma unset_in_le level n : unset_in level n ≤ n.
Proof.
  unfold unset_in. etrans; [apply length_filter|]. by rewrite length_seq.
Qed.

Lemma filter_length_set (l : list node) (level : node → Z) (x : node) (z : Z) :
  NoDup l → x ∈ l → level x = (-1)%Z → z ≠ (-1)%Z →
  S (length (filter (λ y, <[x := z]> level y = (-1)%Z) l))
  = length (filter (λ y, level y = (-1)%Z) l).
Proof.
  induction l as [|y l IH]; intros Hnd Hx Hlx Hz; [by apply elem_of_nil in Hx|].
  apply NoDup_cons in Hnd as [Hy Hnd]. rewrite !filter_cons.
  destruct (decide (y = x)) as [->|Hne].
  - rewrite fn_lookup_insert. rewrite decide_False by done. rewrite decide_True by done.
    simpl. f_equal. f_equal. apply filter_ext_in. intros y' Hy'.
    rewrite fn_lookup_insert_ne by (intros ->; done). done.
  - rewrite fn_lookup_insert_ne by done.
    apply elem_of_cons in Hx as [->|Hx]; [done|].
    destruct (decide (level y = (-1)%Z)); simpl; rewrite IH; done.
Qed.

Lemma unset_in_set level n x z :
  x < n → level x = (-1)%Z → z ≠ (-1)%Z →
  S (unset_in (<[x := z]> level) n) = unset_in level n.
Proof.
  intros Hx Hl Hz. unfold unset_in. apply filter_length_set; try done.
  - apply NoDup_seq.
  - apply elem_of_seq. lia.
Qed.

Lemma unset_in_ext level level' n :
  (∀ x, x < n → (level' x = (-1)%Z ↔ level x = (-1)%Z)) →
  unset_in level' n = unset_in level n.
Proof.
  intros Hext. unfold unset_in. f_equal. apply filter_ext_in.
  intros x Hx. apply Hext. apply elem_of_seq in Hx. lia.
Qed.

(** *** moveDown *)

Lemma moveDown_pending_nonneg G S P t : (0 ≤ moveDown_pending G S P t)%Z.
Proof. apply count_edges_nonneg. Qed.

Lemma moveDown_pending_zero G S P t :
  moveDown_pending G S P t = 0%Z ↔ ∀ s, has_edge G s t → s ∈ S → s ∈ P.
Proof.
  unfold moveDown_pending.
  pose proof (count_edges_nonneg
                (λ e, bool_decide (e.2 = t ∧ e.1 ∈ S ∧ e.1 ∉ P)) (g_edges G)) as Hnn.
  pose proof (count_edges_pos
                (λ e, bool_decide (e.2 = t ∧ e.1 ∈ S ∧ e.1 ∉ P)) (g_edges G)) as Hpos.
  split.
  - intros Hz s Hst HsS. destruct (decide (s ∈ P)) as [|HsP]; [done|]. exfalso.
    assert (0 < count_edges (λ e, bool_decide (e.2 = t ∧ e.1 ∈ S ∧ e.1 ∉ P))
                            (g_edges G))%Z; [|lia].
    apply Hpos. exists (s, t). split; [done|]. by apply bool_decide_eq_true_2.
  - intros Hall.
    destruct (decide (0 < count_edges (λ e, bool_decide (e.2 = t ∧ e.1 ∈ S ∧ e.1 ∉ P))
                                      (g_edges G))%Z) as [Hp|]; [|lia].
    apply Hpos in Hp as ([s t'] & He & Hf). apply bool_decide_eq_true in Hf.
    simpl in Hf. destruct Hf as (-> & HsS & HsP). exfalso. apply HsP. by apply Hall.
Qed.

Lemma moveDown_pending_step G S P w t :
  w ∈ S → w ∉ P → ¬ has_edge G w w →
  moveDown_pending G S (P ++ [w]) t
  = (moveDown_pending G S P t
     - count_edges (λ e, bool_decide (e.1 = w ∧ e.2 = t ∧ t ≠ w)) (g_edges G))%Z.
Proof.
  intros HwS HwP Hself. unfold moveDown_pending, has_edge in *.
  induction (g_edges G) as [|e es IH]; [done|].
  cbn [count_edges]. rewrite IH by set_solver.
  assert (He : ¬ (e.1 = w ∧ e.2 = w)).
  { intros [E1 E2]. apply Hself. destruct e; simpl in *; subst. set_solver. }
  destruct (decide (e.1 = w)) as [E1|E1].
  - rewrite (bool_decide_eq_false_2 (e.2 = t ∧ e.1 ∈ S ∧ e.1 ∉ P ++ [w]))
      by (rewrite E1; set_solver).
    destruct (decide (e.2 = t)) as [E2|E2].
    + rewrite !bool_decide_eq_true_2; [lia| |].
      * split_and!; [done|done|]. intros ->. tauto.
      * rewrite E1. done.
    + rewrite !bool_decide_eq_false_2 by tauto. lia.
  - rewrite (bool_decide_eq_false_2 (e.1 = w ∧ e.2 = t ∧ t ≠ w)) by tauto.
    destruct (decide (e.2 = t ∧ e.1 ∈ S ∧ e.1 ∉ P)) as [(? & ? & ?)|Hno].
    + rewrite !bool_decide_eq_true_2; [lia|done|]. split_and!; [done|done|set_solver].
    + rewrite !bool_decide_eq_false_2; [lia|done|]. intros (? & ? & ?). apply Hno.
      split_and!; [done|done|set_solver].
Qed.

Lemma moveDown_maxLevel_le w (level : node → Z) es (B : Z) :
  (0 ≤ B)%Z → (∀ x, (level x ≤ B)%Z) → (moveDown_maxLevel w level es ≤ B)%Z.
Proof.
  intros HB Hl. unfold moveDown_maxLevel.
  assert (∀ m0, (m0 ≤ B)%Z →
            (foldl (λ m e, if decide (e.1 ≠ w) then Z.max m (level e.1) else m) m0 es
             ≤ B)%Z) as Hgen; [|by apply Hgen].
  induction es as [|e es IH]; intros m0 Hm0; [done|]. simpl. apply IH.
  destruct (decide (e.1 ≠ w)); [|done]. specialize (Hl e.1). lia.
Qed.

Section moveDown.
Context (G : Graph) (lev : node → Z) (u v : node) (S : list node) (M : Z).
Hypothesis Htop : topological G lev.
Hypothesis HS : ∀ x, x ∈ S ↔ rtc (has_edge G) v x.
Hypothesis HndS : NoDup S.
Hypothesis HM0 : (0 ≤ M)%Z.

Lemma moveDown_no_self x : ¬ has_edge G x x.
Proof. intros Hx. pose proof (Htop x x Hx). lia. Qed.

Lemma moveDown_S_closed x y : x ∈ S → has_edge G x y → y ∈ S.
Proof. rewrite !HS. intros Hx Hxy. by eapply rtc_r. Qed.

Lemma moveDown_v_in_S : v ∈ S.
Proof. apply HS, rtc_refl. Qed.

Lemma moveDown_S_pred x : x ∈ S → x ≠ v → ∃ s, s ∈ S ∧ has_edge G s x.
Proof.
  intros Hx Hne. apply HS in Hx. apply rtc_inv_r in Hx as [->|(s & Hs & Hsx)]; [done|].
  exists s. split; [by apply HS|done].
Qed.

Lemma moveDown_no_edge_into_v s : s ∈ S → ¬ has_edge G s v.
Proof.
  intros Hs Hsv. apply HS in Hs.
  assert (tc (has_edge G) v v) as Hc by (eapply tc_rtc_l; [exact Hs|by apply tc_once]).
  pose proof (topological_tc G lev v v Htop Hc). lia.
Qed.

Lemma moveDown_step P w Q level auxDeg :
  moveDown_inv G lev u v S P (w :: Q) M level auxDeg →
  ∃ auxDeg' new,
    foldl (moveDown_release w) (auxDeg, Q) (adjEdges G w) = (auxDeg', Q ++ new) ∧
    moveDown_inv G lev u v S (P ++ [w]) (Q ++ new) M
      (<[w := (moveDown_maxLevel w level (adjEdges G w) + 1)%Z]> level) auxDeg'.
Proof.
  intros (Hnd & Hv & Hsub & Hdeg & Hq & Hbase & Hdone & Hbound).
  assert (HwS : w ∈ S) by (apply Hsub; set_solver).
  assert (HwP : w ∉ P).
  { apply NoDup_app in Hnd as (_ & Hdisj & _). intros Hw. apply (Hdisj w Hw). set_solver. }
  assert (Hwv : w ≠ v) by (intros ->; done).
  set (cnt := λ t, count_edges (λ e, bool_decide (e.1 = w ∧ e.2 = t ∧ t ≠ w)) (g_edges G)).
  assert (Hstep : ∀ t, moveDown_pending G S (P ++ [w]) t
                       = (moveDown_pending G S P t - cnt t)%Z).
  { intros t. apply moveDown_pending_step; [done|done|apply moveDown_no_self]. }
  assert (Hcnt0 : ∀ t, (0 ≤ cnt t)%Z) by (intros t; apply count_edges_nonneg).
  assert (HcntS : ∀ t, (0 < cnt t)%Z → t ∈ S ∧ t ≠ v ∧ has_edge G w t).
  { intros t Ht. apply count_edges_pos in Ht as ([a b] & He & Hf).
    apply bool_decide_eq_true in Hf. simpl in Hf. destruct Hf as (-> & -> & _).
    assert (has_edge G w t) as Hwt by done.
    split_and!; [by eapply moveDown_S_closed| |done].
    intros ->. by eapply moveDown_no_edge_into_v. }
  rewrite foldl_adjEdges.
  destruct (moveDown_release_edges w (g_edges G) auxDeg Q)
    as (deg' & new & Hrun & Hdeg' & Hndnew & Hnew).
  { intros t Ht. destruct (HcntS t Ht) as (HtS & _). rewrite Hdeg by done.
    pose proof (Hstep t). pose proof (moveDown_pending_nonneg G S (P ++ [w]) t).
    fold (cnt t). lia. }
  fold cnt in Hdeg', Hnew.
  exists deg', new. split; [exact Hrun|].
  assert (Hdeg4 : ∀ t, t ∈ S → deg' t = moveDown_pending G S (P ++ [w]) t).
  { intros t Ht. rewrite Hdeg', Hstep, Hdeg by done. done. }
  assert (Hnew' : ∀ t, t ∈ new → t ∈ S ∧ t ≠ v ∧ t ∉ P ++ w :: Q).
  { intros t Ht. apply Hnew in Ht as [Hc Hz]. destruct (HcntS t Hc) as (HtS & Htv & _).
    split_and!; [done|done|]. intros Hin. apply Hq in Hin; [|done|done].
    rewrite Hdeg', Hdeg, Hin in Hz by done. lia. }
  assert (Elist : (P ++ [w]) ++ Q ++ new = (P ++ w :: Q) ++ new).
  { by rewrite <- !app_assoc. }
  unfold moveDown_inv. rewrite Elist. split_and!.
  - apply NoDup_app. split_and!; [done| |done].
    intros x Hx Hx'. by destruct (Hnew' x Hx') as (_ & _ & ?).
  - set_solver.
  - intros x Hx. apply elem_of_app in Hx as [Hx|Hx]; [by apply Hsub|].
    by destruct (Hnew' x Hx).
  - done.
  - intros t HtS Htv. rewrite <- Hdeg4 by done. rewrite elem_of_app. split.
    + intros [Hin|Hin].
      * apply Hq in Hin; [|done|done]. rewrite Hdeg4, Hstep, Hin by done.
        pose proof (moveDown_pending_nonneg G S (P ++ [w]) t) as Hnn.
        rewrite Hstep, Hin in Hnn. specialize (Hcnt0 t). lia.
      * by apply Hnew in Hin as [_ ?].
    + intros Hz. destruct (decide (0 < cnt t)%Z) as [Hc|Hc].
      * right. by apply Hnew.
      * left. apply Hq; [done|done|].
        rewrite Hdeg4, Hstep in Hz by done. specialize (Hcnt0 t). lia.
  - intros x Hx. rewrite fn_lookup_insert_ne.
    + apply Hbase. destruct Hx as [Hx|Hx]; [left; set_solver|by right].
    + destruct Hx as [Hx| ->]; [set_solver|done].
  - intros w' Hw' Hw'v. apply elem_of_app in Hw' as [Hw'|Hw'].
    + assert (w' ≠ w) by (intros ->; done).
      rewrite fn_lookup_insert_ne by done.
      destruct (Hdone w' Hw' Hw'v) as [Hlow Hpred]. split; [done|].
      intros s Hs. destruct (decide (s = w)) as [->|Hsw].
      * exfalso. apply HwP.
        assert (moveDown_pending G S P w' = 0%Z) as Hz.
        { apply Hq; [apply Hsub; set_solver|done|set_solver]. }
        by apply (proj1 (moveDown_pending_zero G S P w') Hz w).
      * rewrite fn_lookup_insert_ne by done. by apply Hpred.
    + apply list_elem_of_singleton in Hw' as ->. rewrite fn_lookup_insert.
      assert (Hpreds : ∀ s, has_edge G s w →
                (level s ≤ moveDown_maxLevel w level (adjEdges G w))%Z).
      { intros s Hs. apply moveDown_maxLevel_spec; [done|].
        intros ->. by eapply moveDown_no_self. }
      split.
      * destruct (moveDown_S_pred w HwS Hwv) as (s & HsS & Hsw).
        assert (moveDown_pending G S P w = 0%Z) as Hz.
        { apply Hq; [done|done|set_solver]. }
        assert (s ∈ P) as HsP by (by apply (proj1 (moveDown_pending_zero G S P w) Hz s)).
        specialize (Hpreds s Hsw).
        destruct (decide (s = v)) as [->|Hsv].
        -- rewrite (Hbase v) in Hpreds by (by right).
           rewrite fn_lookup_insert in Hpreds. lia.
        -- destruct (Hdone s HsP Hsv) as [Hlow _]. lia.
      * intros s Hs. specialize (Hpreds s Hs).
        rewrite fn_lookup_insert_ne; [lia|]. intros ->. by eapply moveDown_no_self.
  - intros x. rewrite length_app. simpl.
    destruct (decide (x = w)) as [->|Hx].
    + rewrite fn_lookup_insert.
      assert (moveDown_maxLevel w level (adjEdges G w) ≤ M + Z.of_nat (length P))%Z;
        [|lia].
      apply moveDown_maxLevel_le; [lia|done].
    + rewrite fn_lookup_insert_ne by done. specialize (Hbound x). lia.
Qed.

Lemma topological_rtc a b : rtc (has_edge G) a b → (lev a ≤ lev b)%Z.
Proof.
  intros Hab. apply rtc_tc in Hab as [->|Hab]; [lia|].
  pose proof (topological_tc G lev a b Htop Hab). lia.
Qed.

Lemma moveDown_sub_length (l : list node) :
  NoDup l → (∀ x, x ∈ l → x ∈ S) → length l ≤ length S.
Proof. intros Hnd Hsub. apply submseteq_length, NoDup_submseteq; done. Qed.

Lemma moveDown_done P level auxDeg :
  moveDown_inv G lev u v S P [] M level auxDeg →
  (∀ x, x ∉ S → level x = lev x) ∧
  level v = (lev u + 1)%Z ∧
  (∀ w, w ∈ S → w ≠ v →
        (lev u + 1 < level w)%Z ∧ ∀ s, has_edge G s w → (level s < level w)%Z) ∧
  (∀ x, (level x ≤ M + Z.of_nat (length S))%Z).
Proof.
  intros (Hnd & Hv & Hsub & Hdeg & Hq & Hbase & Hdone & Hbound).
  rewrite app_nil_r in *.
  assert (Hall : ∀ k t, t ∈ S → Z.to_nat (lev t - lev v) < k → t ∈ P).
  { induction k as [|k IHk]; intros t Ht Hk; [lia|].
    destruct (decide (t = v)) as [->|Htv]; [done|].
    apply Hq; [done|done|]. apply moveDown_pending_zero. intros s Hst HsS.
    apply IHk; [done|].
    pose proof (Htop s t Hst). pose proof (topological_rtc v s (proj1 (HS s) HsS)). lia. }
  split_and!.
  - intros x Hx. rewrite Hbase.
    + rewrite fn_lookup_insert_ne; [done|]. intros <-. apply Hx, moveDown_v_in_S.
    + left. intros HxP. by apply Hx, Hsub.
  - rewrite Hbase by (by right). by rewrite fn_lookup_insert.
  - intros w Hw Hwv. apply Hdone; [|done].
    apply (Hall (1 + Z.to_nat (lev w - lev v))); [done|lia].
  - intros x. specialize (Hbound x).
    pose proof (moveDown_sub_length P Hnd Hsub). lia.
Qed.

Lemma moveDown_loop_spec : ∀ fuel P Q level auxDeg,
  moveDown_inv G lev u v S P Q M level auxDeg →
  length S ≤ length P + fuel →
  ∃ level' auxDeg',
    moveDown_loop fuel G level auxDeg Q = Some (level', auxDeg') ∧
    (∀ x, x ∉ S → level' x = lev x) ∧
    level' v = (lev u + 1)%Z ∧
    (∀ w, w ∈ S → w ≠ v →
          (lev u + 1 < level' w)%Z ∧ ∀ s, has_edge G s w → (level' s < level' w)%Z) ∧
    (∀ x, (level' x ≤ M + Z.of_nat (length S))%Z).
Proof.
  induction fuel as [|fuel IH]; intros P [|w Q] level auxDeg Hinv Hlen.
  - exists level, auxDeg. split; [done|]. by eapply moveDown_done.
  - exfalso. destruct Hinv as (Hnd & _ & Hsub & _).
    pose proof (moveDown_sub_length _ Hnd Hsub) as Hl.
    rewrite length_app in Hl. simpl in Hl. lia.
  - exists level, auxDeg. split; [done|]. by eapply moveDown_done.
  - destruct (moveDown_step P w Q level auxDeg Hinv) as (auxDeg' & new & Hrun & Hinv').
    cbn [moveDown_loop]. cbv zeta. rewrite Hrun.
    apply (IH (P ++ [w])); [done|]. rewrite length_app. simpl. lia.
Qed.

Lemma moveDown_spec fuel (visited : node → bool) (auxDeg : node → Z) :
  (∀ x, visited x = false) →
  (∀ x, (lev x ≤ M)%Z) →
  length S ≤ 1 + fuel →
  ∃ level' visited' auxDeg',
    moveDown fuel G v S (<[v := (lev u + 1)%Z]> lev) visited auxDeg
    = Some (level', visited', auxDeg') ∧
    (∀ x, visited' x = false) ∧
    (∀ x, x ∉ S → level' x = lev x) ∧
    level' v = (lev u + 1)%Z ∧
    (∀ w, w ∈ S → w ≠ v →
          (lev u + 1 < level' w)%Z ∧ ∀ s, has_edge G s w → (level' s < level' w)%Z) ∧
    (∀ x, (level' x ≤ M + Z.of_nat (length S))%Z).
Proof.
  intros Hclean HM Hfuel. unfold moveDown.
  set (visited1 := foldl (λ vis vi, <[vi := true]> vis) visited S).
  set (auxDeg1 := foldl (λ deg vi, <[vi := 0%Z]> deg) auxDeg S).
  set (auxDeg2 := foldl (moveDown_countPreds G visited1) auxDeg1 S).
  assert (Hvis1 : ∀ x, visited1 x = bool_decide (x ∈ S)).
  { intros x. unfold visited1. rewrite foldl_mark_visited, Hclean.
    destruct (decide (x ∈ S)); [by rewrite bool_decide_eq_true_2|
                                by rewrite bool_decide_eq_false_2]. }
  assert (Hdeg2 : ∀ t, t ∈ S → auxDeg2 t = moveDown_pending G S [] t).
  { intros t Ht. unfold auxDeg2, auxDeg1.
    rewrite moveDown_countPreds_fold by done. rewrite decide_True by done.
    rewrite foldl_zero_auxDeg, decide_True by done. rewrite Z.add_0_l.
    apply count_edges_ext. intros [a b] He. simpl. rewrite Hvis1.
    assert (has_edge G a b) as Hab by done.
    assert (a ≠ b) by (intros ->; by eapply moveDown_no_self).
    destruct (decide (b = t ∧ a ∈ S ∧ a ∉ [])) as [(-> & HaS & _)|Hno].
    - rewrite !bool_decide_eq_true_2; [done| |done|done].
      split_and!; [done|done|set_solver].
    - rewrite (bool_decide_eq_false_2 (b = t ∧ a ∈ S ∧ a ∉ [])) by done.
      apply andb_false_iff.
      destruct (decide (b = t)) as [->|]; [|left; apply bool_decide_eq_false_2; tauto].
      right. apply bool_decide_eq_false_2. intros HaS. apply Hno.
      split_and!; [done|done|set_solver]. }
  set (cnt := λ t, count_edges (λ e, bool_decide (e.1 = v ∧ e.2 = t ∧ t ≠ v)) (g_edges G)).
  assert (Hstep : ∀ t, moveDown_pending G S ([] ++ [v]) t
                       = (moveDown_pending G S [] t - cnt t)%Z).
  { intros t. apply moveDown_pending_step;
      [apply moveDown_v_in_S|set_solver|apply moveDown_no_self]. }
  simpl in Hstep.
  assert (HcntS : ∀ t, (0 < cnt t)%Z ↔ t ≠ v ∧ has_edge G v t).
  { intros t. unfold cnt. rewrite count_edges_pos. split.
    - intros ([a b] & He & Hf). apply bool_decide_eq_true in Hf. simpl in Hf.
      destruct Hf as (-> & -> & ?). done.
    - intros [? ?]. exists (v, t). split; [done|]. by apply bool_decide_eq_true_2. }
  rewrite foldl_adjEdges.
  destruct (moveDown_release_edges v (g_edges G) auxDeg2 [])
    as (deg' & new & Hrun & Hdeg' & Hndnew & Hnew).
  { intros t Ht. fold (cnt t) in Ht |- *. apply HcntS in Ht as [_ Hvt].
    rewrite Hdeg2 by (eapply moveDown_S_closed; [apply moveDown_v_in_S|done]).
    pose proof (Hstep t). pose proof (moveDown_pending_nonneg G S [v] t). lia. }
  fold cnt in Hdeg', Hnew. rewrite Hrun. simpl.
  assert (Hinv : moveDown_inv G lev u v S [v] new M (<[v := (lev u + 1)%Z]> lev) deg').
  { assert (HnewS : ∀ t, t ∈ new → t ≠ v ∧ t ∈ S).
    { intros t Ht. apply Hnew in Ht as [Hc _]. apply HcntS in Hc as [? ?].
      split; [done|]. eapply moveDown_S_closed; [apply moveDown_v_in_S|done]. }
    assert (Hdeg4 : ∀ t, t ∈ S → deg' t = moveDown_pending G S [v] t).
    { intros t Ht. by rewrite Hdeg', Hstep, Hdeg2. }
    split_and!.
    - simpl. apply NoDup_cons. split; [|done]. intros Hv. by apply HnewS in Hv as [? _].
    - set_solver.
    - intros x Hx. apply elem_of_cons in Hx as [->|Hx];
        [apply moveDown_v_in_S|by apply HnewS].
    - done.
    - intros t HtS Htv. simpl. rewrite elem_of_cons. split.
      + intros [?|Hin]; [done|]. rewrite <- Hdeg4 by done. by apply Hnew in Hin as [_ ?].
      + intros Hz. right. apply Hnew. rewrite Hdeg4 by done. split; [|done].
        apply HcntS. split; [done|].
        destruct (moveDown_S_pred t HtS Htv) as (s & HsS & Hst).
        assert (s ∈ [v]) as Hs
          by (by apply (proj1 (moveDown_pending_zero G S [v] t) Hz s)).
        by apply list_elem_of_singleton in Hs as ->.
    - done.
    - intros w Hw Hwv. by apply list_elem_of_singleton in Hw.
    - intros x. simpl. destruct (decide (x = v)) as [->|Hx].
      + rewrite fn_lookup_insert. specialize (HM u). lia.
      + rewrite fn_lookup_insert_ne by done. specialize (HM x). lia. }
  destruct (moveDown_loop_spec fuel [v] new _ deg' Hinv)
    as (level' & auxDeg' & Hloop & Hfinal); [simpl; lia|].
  rewrite Hloop. simpl. eexists _, _, _. split; [done|]. split; [|done].
  intros x. rewrite reset_visited_spec. destruct (decide (x ∈ S)); [done|].
  rewrite Hvis1. by apply bool_decide_eq_false_2.
Qed.

End moveDown.

(** *** tryEdge *)

Lemma Graph_wf_has_edge G a b :
  Graph_wf G → has_edge G a b → a < nodeIdCount G ∧ b < nodeIdCount G.
Proof.
  intros Hwf Hab. apply list_elem_of_lookup_1 in Hab as [e He]. by eapply Hwf.
Qed.

Lemma Graph_wf_newEdge G u v :
  Graph_wf G → u < nodeIdCount G → v < nodeIdCount G → Graph_wf (newEdge G u v).1.
Proof.
  intros Hwf Hu Hv e s t He. simpl in *.
  apply lookup_app_Some in He as [He|[_ He]]; [by eapply Hwf|].
  destruct (e - length (g_edges G)) as [|k]; simpl in He; [|done].
  by injection He as <- <-.
Qed.

Lemma NoDup_below_length (l : list node) (n : nat) :
  NoDup l → (∀ x, x ∈ l → x < n) → length l ≤ n.
Proof.
  intros Hnd Hlt. assert (length (seq 0 n) = n) as E by apply length_seq.
  rewrite <- E. clear E.
  apply submseteq_length, NoDup_submseteq; [done|].
  intros x Hx. apply elem_of_seq. specialize (Hlt x Hx). lia.
Qed.

Lemma try_inv_level_ge st x : try_inv st → (-1 ≤ t_level st x)%Z.
Proof.
  intros (_ & _ & _ & _ & Hset).
  destruct (decide (t_level st x = (-1)%Z)) as [->|Hx]; [done|].
  destruct (Hset x Hx) as [_ ?]. lia.
Qed.

Lemma try_inv_add G (u v : node) (level' : node → Z) (visited' : node → bool)
    (auxDeg' : node → Z) :
  Graph_wf G → u < nodeIdCount G → v < nodeIdCount G →
  (∀ x, visited' x = false) →
  (∀ a b, has_edge G a b → (level' a < level' b)%Z) →
  (level' u < level' v)%Z →
  (∀ a b, has_edge G a b → level' a ≠ (-1)%Z ∧ level' b ≠ (-1)%Z) →
  level' u ≠ (-1)%Z → level' v ≠ (-1)%Z →
  (∀ x, level' x ≠ (-1)%Z →
        x < nodeIdCount G ∧ (Z.of_nat (unset_in level' (nodeIdCount G)) < level' x)%Z) →
  try_inv (mkTryState (newEdge G u v).1 level' visited' auxDeg').
Proof.
  intros Hwf Hu Hv Hclean Htop Huv Hends Hlu Hlv Hset.
  split_and!; simpl.
  - by apply Graph_wf_newEdge.
  - intros a b Hab. apply has_edge_newEdge in Hab as [Hab|[-> ->]]; [by apply Htop|done].
  - done.
  - intros a b Hab. apply has_edge_newEdge in Hab as [Hab|[-> ->]]; [by apply Hends|done].
  - done.
Qed.

Lemma tryEdge_spec fuel st u v (M : Z) :
  try_inv st → u ≠ v →
  u < nodeIdCount (t_G st) → v < nodeIdCount (t_G st) →
  nodeIdCount (t_G st) ≤ fuel →
  (∀ x, (t_level st x ≤ M)%Z) →
  (numberOfNodes (t_G st) ≤ M)%Z →
  ∃ st' ok,
    tryEdge fuel st u v = Some (st', ok) ∧
    try_inv st' ∧
    (if ok then ¬ rtc (has_edge (t_G st)) v u else rtc (has_edge (t_G st)) v u) ∧
    t_G st' = (if ok then (newEdge (t_G st) u v).1 else t_G st) ∧
    (∀ x, (t_level st' x ≤ M + numberOfNodes (t_G st))%Z).
Proof.
  intros Hinv Hne Hu Hv Hfuel HM HnM.
  pose proof Hinv as (Hwf & Htop & Hclean & Hends & Hset).
  destruct st as [G level visited auxDeg]. unfold unset_count in Hset. simpl in *.
  fold (unset_in level (nodeIdCount G)) in Hset.
  unfold numberOfNodes in *.
  set (N := nodeIdCount G) in *.
  pose proof (unset_in_le level N) as Hunset_le.
  assert (Hnr_src : level v = (-1)%Z → ¬ rtc (has_edge G) v u).
  { intros Hl Hr. apply rtc_inv in Hr as [->|(y & Hvy & _)]; [done|].
    by apply Hends in Hvy as [? _]. }
  assert (Hnr_tgt : level u = (-1)%Z → ¬ rtc (has_edge G) v u).
  { intros Hl Hr. apply rtc_inv_r in Hr as [->|(y & _ & Hyu)]; [done|].
    by apply Hends in Hyu as [_ ?]. }
  unfold tryEdge, numberOfNodes. simpl. fold N.
  case_bool_decide as Hlu; [case_bool_decide as Hlv|case_bool_decide as Hlv].
  - (* neither level is set *)
    set (level1 := <[v := Z.of_nat N]> level).
    set (level' := <[u := (Z.of_nat N - 1)%Z]> level1).
    assert (E1 : S (unset_in level1 N) = unset_in level N)
      by (apply unset_in_set; [done|done|lia]).
    assert (E2 : S (unset_in level' N) = unset_in level1 N).
    { apply unset_in_set; [done| |lia]. unfold level1.
      by rewrite fn_lookup_insert_ne by done. }
    assert (Hsame : ∀ x, level x ≠ (-1)%Z → level' x = level x).
    { intros x Hx. unfold level', level1.
      rewrite !fn_lookup_insert_ne by congruence. done. }
    assert (Hlu' : level' u = (Z.of_nat N - 1)%Z)
      by (unfold level'; by rewrite fn_lookup_insert).
    assert (Hlv' : level' v = Z.of_nat N).
    { unfold level', level1. rewrite fn_lookup_insert_ne by done.
      by rewrite fn_lookup_insert. }
    eexists _, true. split; [done|]. simpl. split_and!; [|by apply Hnr_src|done|].
    + apply try_inv_add; try done.
      * intros a b Hab. destruct (Hends a b Hab) as [Ha Hb].
        rewrite !Hsame by done. by apply Htop.
      * lia.
      * intros a b Hab. destruct (Hends a b Hab) as [Ha Hb]. by rewrite !Hsame.
      * lia.
      * lia.
      * intros x Hx. fold N. destruct (decide (x = u)) as [->|Hxu]; [split; [done|lia]|].
        destruct (decide (x = v)) as [->|Hxv]; [split; [done|lia]|].
        assert (level' x = level x) as Ex.
        { unfold level', level1. by rewrite !fn_lookup_insert_ne by done. }
        rewrite Ex in Hx |- *. destruct (Hset x Hx). split; [done|lia].
    + intros x. fold level1 level'.
      destruct (decide (x = u)) as [->|Hxu]; [lia|].
      destruct (decide (x = v)) as [->|Hxv]; [lia|].
      unfold level', level1. rewrite !fn_lookup_insert_ne by done.
      specialize (HM x). lia.
  - (* only the level of v is set *)
    destruct (Hset v Hlv) as [_ Hvl].
    set (level' := <[u := (level v - 1)%Z]> level).
    assert (E1 : S (unset_in level' N) = unset_in level N)
      by (apply unset_in_set; [done|done|lia]).
    assert (Hsame : ∀ x, x ≠ u → level' x = level x).
    { intros x Hx. unfold level'. by rewrite fn_lookup_insert_ne. }
    assert (Hlu' : level' u = (level v - 1)%Z)
      by (unfold level'; by rewrite fn_lookup_insert).
    assert (Hnu : ∀ a b, has_edge G a b → a ≠ u ∧ b ≠ u).
    { intros a b Hab. destruct (Hends a b Hab). split; congruence. }
    eexists _, true. split; [done|]. simpl. split_and!; [|by apply Hnr_tgt|done|].
    + apply try_inv_add; try done.
      * intros a b Hab. destruct (Hnu a b Hab). rewrite !Hsame by done. by apply Htop.
      * rewrite Hlu', Hsame by done. lia.
      * intros a b Hab. destruct (Hnu a b Hab). rewrite !Hsame by done. by apply Hends.
      * lia.
      * by rewrite Hsame.
      * intros x Hx. fold N. destruct (decide (x = u)) as [->|Hxu]; [split; [done|lia]|].
        rewrite Hsame in Hx |- * by done. destruct (Hset x Hx). split; [done|lia].
    + intros x. fold level'. destruct (decide (x = u)) as [->|Hxu].
      * specialize (HM v). lia.
      * rewrite Hsame by done. specialize (HM x). lia.
  - (* only the level of u is set *)
    destruct (Hset u Hlu) as [_ Hul].
    set (level' := <[v := (level u + 1)%Z]> level).
    assert (E1 : S (unset_in level' N) = unset_in level N)
      by (apply unset_in_set; [done|done|lia]).
    assert (Hsame : ∀ x, x ≠ v → level' x = level x).
    { intros x Hx. unfold level'. by rewrite fn_lookup_insert_ne. }
    assert (Hlv' : level' v = (level u + 1)%Z)
      by (unfold level'; by rewrite fn_lookup_insert).
    assert (Hnv : ∀ a b, has_edge G a b → a ≠ v ∧ b ≠ v).
    { intros a b Hab. destruct (Hends a b Hab). split; congruence. }
    eexists _, true. split; [done|]. simpl. split_and!; [|by apply Hnr_src|done|].
    + apply try_inv_add; try done.
      * intros a b Hab. destruct (Hnv a b Hab). rewrite !Hsame by done. by apply Htop.
      * rewrite Hlv', Hsame by done. lia.
      * intros a b Hab. destruct (Hnv a b Hab). rewrite !Hsame by done. by apply Hends.
      * by rewrite Hsame.
      * lia.
      * intros x Hx. fold N. destruct (decide (x = v)) as [->|Hxv]; [split; [done|lia]|].
        rewrite Hsame in Hx |- * by done. destruct (Hset x Hx). split; [done|lia].
    + intros x. fold level'. destruct (decide (x = v)) as [->|Hxv].
      * specialize (HM u). lia.
      * rewrite Hsame by done. specialize (HM x). lia.
  - (* both levels are set *)
    destruct (Hset u Hlu) as [_ Hul].
    case_bool_decide as Hle.
    + destruct (reachable_spec G v u visited Hclean)
        as (r & visited' & succs & Hre & Hclean' & Hr & Hsuccs).
      rewrite Hre. destruct r.
      * eexists _, false. split; [done|]. simpl.
        split_and!; [|by apply Hr|done|intros x; specialize (HM x); lia].
        by split_and!.
      * destruct (Hsuccs eq_refl) as [Hnd Hmem].
        assert (Hnvu : ¬ rtc (has_edge G) v u) by (intros Hc; by apply Hr in Hc).
        assert (HsuccsN : ∀ x, x ∈ succs → x < N ∧ level x ≠ (-1)%Z).
        { intros x Hx. apply Hmem, rtc_inv_r in Hx as [<-|(y & _ & Hyx)]; [done|].
          split; [by eapply Graph_wf_has_edge|by apply Hends in Hyx as [_ ?]]. }
        assert (Hlen : length succs ≤ 1 + fuel).
        { pose proof (NoDup_below_length succs N Hnd (λ x Hx, proj1 (HsuccsN x Hx))). lia. }
        destruct (moveDown_spec G level u v succs M Htop Hmem Hnd ltac:(lia)
                    fuel visited' auxDeg Hclean' HM Hlen)
          as (level' & visited'' & auxDeg' & Hmd & Hclean'' & Hout & Hv' & Hin & Hbound).
        rewrite Hmd.
        assert (HvS : v ∈ succs) by apply Hmem, rtc_refl.
        assert (HuS : u ∉ succs) by (by rewrite Hmem).
        assert (Hlow : ∀ x, x ∈ succs → (level u + 1 ≤ level' x)%Z).
        { intros x Hx. destruct (decide (x = v)) as [->|Hxv]; [lia|].
          destruct (Hin x Hx Hxv). lia. }
        assert (Hiff : ∀ x, level' x = (-1)%Z ↔ level x = (-1)%Z).
        { intros x. destruct (decide (x ∈ succs)) as [Hx|Hx].
          - destruct (HsuccsN x Hx). specialize (Hlow x Hx). split; [lia|done].
          - by rewrite Hout. }
        assert (E : unset_in level' N = unset_in level N)
          by (apply unset_in_ext; intros; apply Hiff).
        eexists _, true. split; [done|]. simpl. split_and!; [|done|done|].
        -- apply try_inv_add; try done.
           ++ intros a b Hab. destruct (decide (b ∈ succs)) as [Hb|Hb].
              ** destruct (decide (b = v)) as [->|Hbv]; [|by apply (Hin b Hb Hbv)].
                 assert (a ∉ succs) as Ha.
                 { intros Ha. by apply (moveDown_no_edge_into_v G level v succs Htop Hmem a). }
                 rewrite Hv', Hout by done. pose proof (Htop a v Hab). lia.
              ** assert (a ∉ succs) as Ha.
                 { intros Ha. apply Hb. rewrite Hmem in Ha |- *. by eapply rtc_r. }
                 rewrite !Hout by done. by apply Htop.
           ++ rewrite Hv', Hout by done. lia.
           ++ intros a b Hab. rewrite !Hiff. by apply Hends.
           ++ by rewrite Hiff.
           ++ by rewrite Hiff.
           ++ intros x Hx. fold N. rewrite E. rewrite Hiff in Hx.
              destruct (Hset x Hx) as [HxN Hxl]. split; [done|].
              destruct (decide (x ∈ succs)) as [HxS|HxS].
              ** specialize (Hlow x HxS). lia.
              ** by rewrite Hout.
        -- intros x. specialize (Hbound x).
           pose proof (NoDup_below_length succs N Hnd (λ x Hx, proj1 (HsuccsN x Hx))). lia.
    + eexists _, true. split; [done|]. simpl. split_and!; [| |done|].
      * apply try_inv_add; try done. lia.
      * intros Hr. apply rtc_tc in Hr as [->|Hr]; [done|].
        pose proof (topological_tc G level v u Htop Hr). lia.
      * intros x. specialize (HM x). lia.
Qed.

Lemma tryEdge_nodeIdCount (G : Graph) (u v : node) (ok : bool) :
  nodeIdCount (if ok then (newEdge G u v).1 else G) = nodeIdCount G.
Proof. by destruct ok. Qed.

Lemma reduceCrossings_greedy_spec fuel (n : nat) edges : ∀ st num tried (M : Z),
  try_inv st →
  nodeIdCount (t_G st) = n →
  (∀ e, e ∈ edges → m_src e ≠ m_tgt e ∧ m_src e < n ∧ m_tgt e < n) →
  n ≤ fuel →
  (∀ x, (t_level st x ≤ M)%Z) →
  (Z.of_nat n ≤ M)%Z →
  ∃ st' oks,
    foldl (reduceCrossings_greedy_body fuel) (Some (st, num, tried)) edges
    = Some (st', (greedy_result (t_G st) num edges oks).2,
            tried ++ ((λ rce, (m_src rce, m_tgt rce)) <$> edges)) ∧
    length oks = length edges ∧
    greedy_outcomes (t_G st) edges oks ∧
    t_G st' = (greedy_result (t_G st) num edges oks).1 ∧
    try_inv st' ∧
    (∀ x, (t_level st' x ≤ M + Z.of_nat (length edges) * Z.of_nat n)%Z).
Proof.
  induction edges as [|e edges IH]; intros st num tried M Hinv Hn Hedges Hfuel HM HnM.
  - exists st, []. simpl. rewrite app_nil_r. split_and!; try done.
    intros x. specialize (HM x). lia.
  - destruct (Hedges e) as (Hne & Hsrc & Htgt); [set_solver|].
    destruct (tryEdge_spec fuel st (m_src e) (m_tgt e) M Hinv Hne)
      as (st1 & ok & Htry & Hinv1 & Hok & HG1 & HM1); [lia..|done|unfold numberOfNodes; lia|].
    assert (Hn1 : nodeIdCount (t_G st1) = n) by (by rewrite HG1, tryEdge_nodeIdCount).
    unfold numberOfNodes in HM1. rewrite Hn in HM1.
    destruct (IH st1 (RCCrossings_add num (if ok then m_cr e else m_crReverse e))
                 (tried ++ [(m_src e, m_tgt e)]) (M + Z.of_nat n)%Z Hinv1 Hn1)
      as (st' & oks & Hrun & Hlen & Hout & HG' & Hinv' & HM'); [|done|done|lia|].
    { intros e' He'. apply Hedges. set_solver. }
    exists st', (ok :: oks). cbn [foldl reduceCrossings_greedy_body]. rewrite Htry.
    cbn [greedy_result greedy_outcomes]. rewrite <- HG1. rewrite Hrun.
    split_and!.
    + by rewrite <- app_assoc.
    + simpl. by rewrite Hlen.
    + done.
    + done.
    + done.
    + done.
    + intros x. specialize (HM' x). simpl length. lia.
Qed.

(** X9. [tryEdge(u, v)] on two different nodes of a crossing reduction graph
    in the state that the calls keep (the levels that are set form a
    topological labeling and are larger than the number of nodes without a
    level, the ends of every edge have a level, no node is marked visited),
    with fuel for all nodes and levels that stay within the range of [int]
    when they grow by the number of nodes: the call returns and leaves such a
    state; it returns true exactly when [u] cannot be reached from [v], and
    then the graph has the new edge [u -> v], otherwise the graph is
    unchanged; no level grows by more than the number of nodes. *)
Theorem tryEdge_accepts_unreachable (fuel : nat) (st : TryState) (u v : node) (M : Z) :
  try_inv st → u ≠ v →
  u < nodeIdCount (t_G st) → v < nodeIdCount (t_G st) →
  nodeIdCount (t_G st) ≤ fuel →
  (∀ x, (t_level st x ≤ M)%Z) →
  (numberOfNodes (t_G st) ≤ M)%Z →
  (M + numberOfNodes (t_G st) ≤ INT_MAX)%Z →
  ∃ st' ok,
    tryEdge fuel st u v = Some (st', ok) ∧
    try_inv st' ∧
    (if ok then ¬ rtc (has_edge (t_G st)) v u else rtc (has_edge (t_G st)) v u) ∧
    t_G st' = (if ok then (newEdge (t_G st) u v).1 else t_G st) ∧
    (∀ x, (-1 ≤ t_level st' x ≤ M + numberOfNodes (t_G st))%Z) ∧
    (∀ x, (t_level st' x ≤ INT_MAX)%Z).
Proof.
  intros Hinv Hne Hu Hv Hfuel HM HnM Hmax.
  destruct (tryEdge_spec fuel st u v M Hinv Hne Hu Hv Hfuel HM HnM)
    as (st' & ok & Htry & Hinv' & Hok & HG & HM').
  exists st', ok. split_and!; try done.
  - intros x. split; [by apply try_inv_level_ge|apply HM'].
  - intros x. specialize (HM' x). lia.
Qed.

Lemma down3_try_inv : try_inv down3.
Proof.
  split_and!.
  - intros e s t He. destruct e as [|e]; simpl in He; [|done].
    injection He as <- <-. simpl. lia.
  - intros a b Hab. apply list_elem_of_singleton in Hab as [= -> ->]. simpl. lia.
  - done.
  - intros a b Hab. apply list_elem_of_singleton in Hab as [= -> ->]. done.
  - intros x Hx. do 3 (destruct x as [|x]; [simpl; split; [lia|vm_compute; done]|]).
    done.
Qed.

Lemma tryEdge_accepts_unreachable_witness :
  ∃ st' ok,
    tryEdge 3 down3 2 0 = Some (st', ok) ∧
    try_inv st' ∧
    (if ok then ¬ rtc (has_edge (t_G down3)) 0 2 else rtc (has_edge (t_G down3)) 0 2) ∧
    t_G st' = (if ok then (newEdge (t_G down3) 2 0).1 else t_G down3) ∧
    (∀ x, (-1 ≤ t_level st' x ≤ 3 + numberOfNodes (t_G down3))%Z) ∧
    (∀ x, (t_level st' x ≤ INT_MAX)%Z).
Proof.
  apply (tryEdge_accepts_unreachable 3 down3 2 0 3).
  - apply down3_try_inv.
  - done.
  - simpl. lia.
  - simpl. lia.
  - simpl. lia.
  - intros x. do 3 (destruct x as [|x]; [simpl; lia|]). simpl. lia.
  - unfold numberOfNodes. simpl. lia.
  - unfold numberOfNodes, INT_MAX. simpl. lia.
Defined.

Example tryEdge_accepts_unreachable_run :
  (λ r, (g_edges (t_G r.1), t_level r.1 <$> [0; 1; 2], r.2)) <$> tryEdge 3 down3 2 0
  = Some ([(0, 1); (2, 0)], [2; 3; 1]%Z, true).
Proof. reflexivity. Qed.

(** ** Preference edges *)

Lemma RCCrossings_le_spec x y :
  RCCrossings_le x y = true ↔
  (m_cnClusters x < m_cnClusters y)%Z ∨
  (m_cnClusters x = m_cnClusters y ∧ (m_cnEdges x ≤ m_cnEdges y)%Z).
Proof.
  unfold RCCrossings_le. case_bool_decide; rewrite bool_decide_eq_true; lia.
Qed.

Lemma RCCrossings_le_total x y :
  RCCrossings_le x y = false → RCCrossings_le y x = true.
Proof.
  rewrite <- not_true_iff_false, !RCCrossings_le_spec. lia.
Qed.

Lemma LocationRelationshipComparer_less_spec x y :
  LocationRelationshipComparer_less x y = true ↔
  RCCrossings_lt (RCEdge_weight y) (RCEdge_weight x) = true.
Proof.
  unfold LocationRelationshipComparer_less, LocationRelationshipComparer_compare,
    RCCrossings_compare.
  rewrite bool_decide_eq_true, RCCrossings_lt_spec. case_bool_decide; lia.
Qed.

Lemma LocationRelationshipComparer_less_false x y :
  LocationRelationshipComparer_less x y = false ↔
  RCCrossings_le (RCEdge_weight x) (RCEdge_weight y) = true.
Proof.
  rewrite <- not_true_iff_false, LocationRelationshipComparer_less_spec,
    RCCrossings_lt_spec, RCCrossings_le_spec. lia.
Qed.

Lemma LocationRelationshipComparer_swo :
  strict_weak_order LocationRelationshipComparer_less.
Proof.
  split_and!.
  - intros x. apply LocationRelationshipComparer_less_false, RCCrossings_le_spec. lia.
  - intros x y z. rewrite !LocationRelationshipComparer_less_spec, !RCCrossings_lt_spec. lia.
  - intros x y z. rewrite !LocationRelationshipComparer_less_false, !RCCrossings_le_spec. lia.
Qed.

(** Every pair of children gets one preference edge, directed so that [m_cr]
    is the smaller and [m_crReverse] the larger of the two counts. *)
Lemma locationRelationships_spec n cn e :
  e ∈ locationRelationships n cn ↔
  ∃ j k, j < k < n ∧
    e = if RCCrossings_le (cn j k) (cn k j)
        then mkRCEdge j k (cn j k) (cn k j)
        else mkRCEdge k j (cn k j) (cn j k).
Proof.
  unfold locationRelationships. rewrite list_elem_of_bind. split.
  - intros (j & He & Hj). apply list_elem_of_bind in He as (k & He & Hk).
    apply list_elem_of_singleton in He. apply elem_of_seq in Hj, Hk.
    exists j, k. split; [lia|done].
  - intros (j & k & Hjk & ->). exists j. split; [|apply elem_of_seq; lia].
    apply list_elem_of_bind. exists k. split; [set_solver|apply elem_of_seq; lia].
Qed.

Lemma locationRelationships_oriented n cn e :
  e ∈ locationRelationships n cn →
  m_cr e = cn (m_src e) (m_tgt e) ∧
  m_crReverse e = cn (m_tgt e) (m_src e) ∧
  RCCrossings_le (m_cr e) (m_crReverse e) = true ∧
  m_src e ≠ m_tgt e ∧ m_src e < n ∧ m_tgt e < n.
Proof.
  intros (j & k & Hjk & ->)%locationRelationships_spec.
  destruct (RCCrossings_le (cn j k) (cn k j)) eqn:Hle; simpl.
  - split_and!; [done|done|done|lia..].
  - split_and!; [done|done|by apply RCCrossings_le_total|lia..].
Qed.

(** C2. For every sorting routine, from a crossing reduction graph of [n]
    nodes in the state that [tryEdge] keeps, with fuel for [n] nodes and
    levels small enough to stay within the range of [int]: the loop returns;
    every pair of children [j < k] has a preference edge between them whose
    [m_cr] is the smaller and whose [m_crReverse] the larger of [cn(j,k)] and
    [cn(k,j)], directed as its [m_cr] says; the greedy loop hands the edges to
    [tryEdge] in the sorted order; no edge in that order has a larger weight
    [m_crReverse - m_cr] than an edge before it, so the first one has the
    largest.  Each edge is accepted exactly when its source cannot be reached
    from its target in the graph built so far; the graph afterwards is the
    graph before with the accepted edges, [numCrossings] is the sum of [m_cr]
    of the accepted and [m_crReverse] of the refused edges, and the state is
    again one that [tryEdge] keeps: [level] is a topological labeling. *)
Theorem reduceCrossings_preferences_order
    (quicksort : ∀ E : Type, (E → E → bool) → list E → list E)
    (fuel : nat) (st : TryState) (n : nat) (cn : nat → nat → RCCrossings) (M : Z) :
  sorts quicksort →
  try_inv st →
  nodeIdCount (t_G st) = n →
  n ≤ fuel →
  (∀ x, (t_level st x ≤ M)%Z) →
  (Z.of_nat n ≤ M)%Z →
  (M + Z.of_nat (length (locationRelationships n cn)) * Z.of_nat n ≤ INT_MAX)%Z →
  ∃ r sorted oks,
    reduceCrossings_preferences quicksort fuel st n cn = Some r ∧
    sorted = quicksort RCEdge LocationRelationshipComparer_less
                       (locationRelationships n cn) ∧
    (∀ j k, j < k < n →
       ∃ e, e ∈ sorted ∧
            ((m_src e = j ∧ m_tgt e = k) ∨ (m_src e = k ∧ m_tgt e = j)) ∧
            m_cr e = RCCrossings_min (cn j k) (cn k j) ∧
            m_crReverse e = RCCrossings_max (cn j k) (cn k j) ∧
            m_cr e = cn (m_src e) (m_tgt e)) ∧
    r.2 = (λ rce, (m_src rce, m_tgt rce)) <$> sorted ∧
    StronglySorted (λ x y, RCCrossings_le (RCEdge_weight y) (RCEdge_weight x) = true)
                   sorted ∧
    (∀ first rest, sorted = first :: rest →
       ∀ e, e ∈ sorted →
            RCCrossings_le (RCEdge_weight e) (RCEdge_weight first) = true) ∧
    length oks = length sorted ∧
    greedy_outcomes (t_G st) sorted oks ∧
    (t_G r.1.1, r.1.2) = greedy_result (t_G st) RCCrossings_zero sorted oks ∧
    try_inv r.1.1 ∧
    acyclic (t_G r.1.1) ∧
    (∀ x, (-1 ≤ t_level r.1.1 x ≤ INT_MAX)%Z).
Proof.
  intros (Hperm & Hsorted & _) Hinv Hn Hfuel HM HnM Hmax.
  set (sorted := quicksort RCEdge LocationRelationshipComparer_less
                           (locationRelationships n cn)).
  assert (Hp : sorted ≡ₚ locationRelationships n cn) by apply Hperm.
  assert (Hs : StronglySorted
                 (λ x y, RCCrossings_le (RCEdge_weight y) (RCEdge_weight x) = true)
                 sorted).
  { eapply StronglySorted_mono; [|apply Hsorted, LocationRelationshipComparer_swo].
    intros x y. simpl. by rewrite LocationRelationshipComparer_less_false. }
  destruct (reduceCrossings_greedy_spec fuel n sorted st RCCrossings_zero [] M Hinv Hn)
    as (st' & oks & Hrun & Hlen & Hout & HG' & Hinv' & HM'); [|done|done|done|].
  { intros e He. rewrite Hp in He.
    by apply locationRelationships_oriented in He as (_ & _ & _ & ? & ? & ?). }
  eexists _, sorted, oks. split; [exact Hrun|]. simpl.
  split_and!.
  - done.
  - intros j k Hjk.
    set (e := if RCCrossings_le (cn j k) (cn k j)
              then mkRCEdge j k (cn j k) (cn k j)
              else mkRCEdge k j (cn k j) (cn j k)).
    exists e. split.
    { rewrite Hp. apply locationRelationships_spec. by exists j, k. }
    unfold e, RCCrossings_min, RCCrossings_max.
    destruct (RCCrossings_le (cn j k) (cn k j)); simpl; split_and!; auto.
  - done.
  - done.
  - intros first rest E e He. rewrite E in Hs, He.
    apply StronglySorted_inv in Hs as [_ Hall]. rewrite Forall_forall in Hall.
    apply elem_of_cons in He as [->|He]; [|by apply Hall].
    apply RCCrossings_le_spec. lia.
  - done.
  - done.
  - rewrite HG'. by destruct (greedy_result _ _ _ _).
  - done.
  - destruct Hinv' as (_ & Htop & _). by eapply topological_acyclic.
  - intros x. split; [by apply try_inv_level_ge|].
    specialize (HM' x). rewrite (Permutation_length Hp) in HM'. lia.
Qed.

Lemma fresh3_try_inv : try_inv fresh3.
Proof.
  split_and!; try done.
  - intros a b Hab. by apply elem_of_nil in Hab.
  - intros a b Hab. by apply elem_of_nil in Hab.
Qed.

Lemma reduceCrossings_preferences_order_witness :
  ∃ r sorted oks,
    reduceCrossings_preferences insertion_sort 5 fresh3 3 cn3 = Some r ∧
    sorted = insertion_sort RCEdge LocationRelationshipComparer_less
                            (locationRelationships 3 cn3) ∧
    (∀ j k, j < k < 3 →
       ∃ e, e ∈ sorted ∧
            ((m_src e = j ∧ m_tgt e = k) ∨ (m_src e = k ∧ m_tgt e = j)) ∧
            m_cr e = RCCrossings_min (cn3 j k) (cn3 k j) ∧
            m_crReverse e = RCCrossings_max (cn3 j k) (cn3 k j) ∧
            m_cr e = cn3 (m_src e) (m_tgt e)) ∧
    r.2 = (λ rce, (m_src rce, m_tgt rce)) <$> sorted ∧
    StronglySorted (λ x y, RCCrossings_le (RCEdge_weight y) (RCEdge_weight x) = true)
                   sorted ∧
    (∀ first rest, sorted = first :: rest →
       ∀ e, e ∈ sorted →
            RCCrossings_le (RCEdge_weight e) (RCEdge_weight first) = true) ∧
    length oks = length sorted ∧
    greedy_outcomes (t_G fresh3) sorted oks ∧
    (t_G r.1.1, r.1.2) = greedy_result (t_G fresh3) RCCrossings_zero sorted oks ∧
    try_inv r.1.1 ∧
    acyclic (t_G r.1.1) ∧
    (∀ x, (-1 ≤ t_level r.1.1 x ≤ INT_MAX)%Z).
Proof.
  apply (reduceCrossings_preferences_order insertion_sort 5 fresh3 3 cn3 3).
  - apply insertion_sort_sorts.
  - apply fresh3_try_inv.
  - reflexivity.
  - lia.
  - intros x. simpl. lia.
  - lia.
  - vm_compute. discriminate.
Defined.

Example reduceCrossings_preferences_run :
  (λ r, (g_edges (t_G r.1.1), t_level r.1.1 <$> [0; 1; 2], r.1.2, r.2))
    <$> reduceCrossings_preferences insertion_sort 5 fresh3 3 cn3
  = Some ([(2, 0); (0, 1)], [3; 4; 2]%Z, mkRCCrossings 0 10,
          [(2, 0); (0, 1); (1, 2)]).
Proof. reflexivity. Qed.

(** ** Dummy nodes *)

Lemma split_Some G eH a b :
  g_edges G !! eH = Some (a, b) →
  split G eH
  = Some (mkGraph (S (nodeIdCount G))
                  (<[eH := (a, nodeIdCount G)]> (g_edges G) ++ [(nodeIdCount G, b)]),
          length (g_edges G)).
Proof. intros He. unfold split. by rewrite He. Qed.

Lemma split_lookup_old G eH a b h :
  h < length (g_edges G) → h ≠ eH →
  (<[eH := (a, nodeIdCount G)]> (g_edges G) ++ [(nodeIdCount G, b)]) !! h
  = g_edges G !! h.
Proof.
  intros Hh Hne. rewrite lookup_app_l by (by rewrite length_insert).
  by rewrite list_lookup_insert_ne.
Qed.

Lemma split_lookup_eH G eH a b :
  eH < length (g_edges G) →
  (<[eH := (a, nodeIdCount G)]> (g_edges G) ++ [(nodeIdCount G, b)]) !! eH
  = Some (a, nodeIdCount G).
Proof.
  intros Hh. rewrite lookup_app_l by (by rewrite length_insert).
  by apply list_lookup_insert_eq.
Qed.

Lemma split_lookup_new G eH a b :
  (<[eH := (a, nodeIdCount G)]> (g_edges G) ++ [(nodeIdCount G, b)])
    !! length (g_edges G)
  = Some (nodeIdCount G, b).
Proof.
  rewrite lookup_app_r by (by rewrite length_insert).
  by rewrite length_insert, Nat.sub_diag.
Qed.

Lemma split_wf G eH a b :
  Graph_wf G → g_edges G !! eH = Some (a, b) →
  Graph_wf (mkGraph (S (nodeIdCount G))
              (<[eH := (a, nodeIdCount G)]> (g_edges G) ++ [(nodeIdCount G, b)])).
Proof.
  intros Hwf He h s t. simpl. intros Hh.
  destruct (Hwf _ _ _ He) as [Ha Hb].
  pose proof (lookup_lt_Some _ _ _ He) as HeH.
  destruct (decide (h < length (g_edges G))) as [Hlt|Hge].
  - destruct (decide (h = eH)) as [->|Hne].
    + rewrite split_lookup_eH in Hh by done. injection Hh as <- <-. lia.
    + rewrite split_lookup_old in Hh by done.
      destruct (Hwf _ _ _ Hh). lia.
  - rewrite lookup_app_r in Hh by (rewrite length_insert; lia).
    rewrite length_insert in Hh.
    destruct (h - length (g_edges G)) as [|?] eqn:E; simpl in Hh; [|done].
    injection Hh as <- <-. lia.
Qed.

(** A chain that does not hold the split edge is a ranked path after the run
    as it was before. *)
Lemma ranked_path_frame G rank G' rank' chain : ∀ s t,
  Graph_wf G →
  (∀ h, h ∈ chain → g_edges G' !! h = g_edges G !! h) →
  (∀ x, x < nodeIdCount G → rank' x = rank x) →
  ranked_path G rank s chain t → ranked_path G' rank' s chain t.
Proof.
  induction chain as [|e chain IH]; intros s t Hwf Hedges Hrank Hp; [done|].
  destruct Hp as (m & He & Hr & Hp). exists m.
  destruct (Hwf _ _ _ He) as [Hs Hm].
  split_and!.
  - rewrite Hedges by set_solver. done.
  - by rewrite !Hrank.
  - apply IH; [done| |done|done]. intros h Hh. apply Hedges. set_solver.
Qed.

Lemma splitRun_spec k : ∀ G rank eH a b i0,
  Graph_wf G →
  g_edges G !! eH = Some (a, b) →
  rank a = (i0 - 1)%Z →
  rank b = (i0 + Z.of_nat k)%Z →
  ∃ G' rank' eH',
    splitRun G rank eH (seqZ i0 (Z.of_nat k)) = Some (G', rank', eH') ∧
    Graph_wf G' ∧
    nodeIdCount G' = nodeIdCount G + k ∧
    length (g_edges G') = length (g_edges G) + k ∧
    (∀ h, h < length (g_edges G) → h ≠ eH → g_edges G' !! h = g_edges G !! h) ∧
    (∀ x, x < nodeIdCount G → rank' x = rank x) ∧
    ranked_path G' rank' a (eH :: seq (length (g_edges G)) k) b ∧
    (∀ h s t, h ∈ seq (length (g_edges G)) k → g_edges G' !! h = Some (s, t) →
              nodeIdCount G ≤ s).
Proof.
  induction k as [|k IH]; intros G rank eH a b i0 Hwf He Ha Hb.
  - rewrite seqZ_nil by lia. simpl. eexists _, _, _. split; [done|].
    split_and!; try done; try lia.
    + exists b. split_and!; [done|lia|done].
    + intros h s t Hh. by apply elem_of_nil in Hh.
  - rewrite seqZ_cons by lia. simpl.
    rewrite (split_Some G eH a b He). simpl.
    unfold source. simpl. rewrite split_lookup_new. simpl.
    pose proof (lookup_lt_Some _ _ _ He) as HeH.
    destruct (Hwf _ _ _ He) as [HaN HbN].
    set (G1 := mkGraph (S (nodeIdCount G))
                 (<[eH := (a, nodeIdCount G)]> (g_edges G) ++ [(nodeIdCount G, b)])).
    set (rank1 := <[nodeIdCount G := i0]> rank).
    assert (Hwf1 : Graph_wf G1) by (by apply split_wf).
    assert (HL1 : length (g_edges G1) = S (length (g_edges G)))
      by (simpl; rewrite length_app, length_insert; simpl; lia).
    destruct (IH G1 rank1 (length (g_edges G)) (nodeIdCount G) b (Z.succ i0))
      as (G' & rank' & eH' & Hrun & Hwf' & HN' & HL' & Hold & Hrk & Hpath & Hnew).
    + done.
    + apply split_lookup_new.
    + unfold rank1. rewrite fn_lookup_insert. lia.
    + unfold rank1. rewrite fn_lookup_insert_ne by lia. lia.
    + replace (Z.pred (Z.of_nat (S k))) with (Z.of_nat k) by lia.
      rewrite Hrun. eexists _, _, _. split; [done|].
      assert (Hrk' : ∀ x, x < nodeIdCount G → rank' x = rank x).
      { intros x Hx. rewrite Hrk by (simpl; lia).
        unfold rank1. by rewrite fn_lookup_insert_ne by lia. }
      split_and!.
      * done.
      * rewrite HN'. simpl. lia.
      * rewrite HL', HL1. lia.
      * intros h Hh Hne. rewrite Hold by (rewrite ?HL1; lia).
        by apply split_lookup_old.
      * done.
      * exists (nodeIdCount G). split_and!.
        -- rewrite Hold by (rewrite ?HL1; lia). by apply split_lookup_eH.
        -- rewrite Hrk by (simpl; lia). unfold rank1. rewrite fn_lookup_insert.
           rewrite Hrk' by done. lia.
        -- rewrite HL1 in Hpath. exact Hpath.
      * intros h s t Hh Hht. simpl in Hh. apply elem_of_cons in Hh as [->|Hh].
        -- destruct Hpath as (m & Hm & _). rewrite Hm in Hht. by injection Hht as <- <-.
        -- rewrite HL1 in Hnew. specialize (Hnew h s t Hh Hht). simpl in Hnew. lia.
Qed.

Lemma ranked_path_valid G rank chain : ∀ s t h,
  ranked_path G rank s chain t → h ∈ chain → h < length (g_edges G).
Proof.
  induction chain as [|e chain IH]; intros s t h Hp Hh; [by apply elem_of_nil in Hh|].
  destruct Hp as (m & He & _ & Hp).
  apply elem_of_cons in Hh as [->|Hh]; [by eapply lookup_lt_Some|by eapply IH].
Qed.

Lemma split_handle G eH G1 eH1 :
  split G eH = Some (G1, eH1) →
  eH1 = length (g_edges G) ∧ length (g_edges G1) = S (length (g_edges G)).
Proof.
  unfold split. destruct (g_edges G !! eH) as [[s t]|]; [|done]. simpl.
  intros [= <- <-]. split; [done|]. simpl.
  rewrite length_app, length_insert. simpl. lia.
Qed.

Lemma createDummyNodes_split_fold e rs : ∀ H eH G' rank' eH',
  splitRun (eng_G H) (m_rank H) eH rs = Some (G', rank', eH') →
  ∃ H', foldl (createDummyNodes_split e) (Some (H, eH)) rs = Some (H', eH') ∧
    eng_G H' = G' ∧ m_rank H' = rank' ∧
    m_copyEdge H' e = m_copyEdge H e ++ seq (length (g_edges (eng_G H))) (length rs) ∧
    (∀ e', e' ≠ e → m_copyEdge H' e' = m_copyEdge H e') ∧
    m_copy H' = m_copy H ∧ m_topNode H' = m_topNode H ∧
    m_bottomNode H' = m_bottomNode H.
Proof.
  induction rs as [|i rs IH]; intros H eH G' rank' eH' Hrun.
  - simpl in Hrun. injection Hrun as <- <- <-. exists H. simpl.
    rewrite app_nil_r. done.
  - simpl in Hrun.
    destruct (split (eng_G H) eH) as [[G1 eH1]|] eqn:Hs; [|done]. simpl in Hrun.
    destruct (source G1 eH1) as [w|] eqn:Hw; [|done]. simpl in Hrun.
    destruct (split_handle _ _ _ _ Hs) as [-> HL1].
    set (H1 := set_split H G1
                 (<[e := m_copyEdge H e ++ [length (g_edges (eng_G H))]]> (m_copyEdge H))
                 (<[length (g_edges (eng_G H)) := Some e]> (m_origEdge H))
                 (<[w := ntDummy]> (eng_type H))
                 (<[w := i]> (m_rank H))).
    assert (Hstep : createDummyNodes_split e (Some (H, eH)) i
                    = Some (H1, length (g_edges (eng_G H)))).
    { unfold createDummyNodes_split. simpl. rewrite Hs. simpl. by rewrite Hw. }
    destruct (IH H1 _ G' rank' eH' Hrun)
      as (H' & Hfold & HG & Hrk & Hchain & Hother & Hcopy & Htop & Hbot).
    exists H'. cbn [foldl]. rewrite Hstep. split; [done|].
    split_and!; try done.
    + rewrite Hchain. unfold H1. simpl. rewrite fn_lookup_insert.
      rewrite HL1. by rewrite <- app_assoc.
    + intros e' Hne. rewrite Hother by done. unfold H1. simpl.
      by rewrite fn_lookup_insert_ne.
Qed.

Lemma createDummyNodes_splitTopBottom_fold rs : ∀ H eH G' rank' eH',
  splitRun (eng_G H) (m_rank H) eH rs = Some (G', rank', eH') →
  ∃ H', foldl createDummyNodes_splitTopBottom (Some (H, eH)) rs = Some (H', eH') ∧
    eng_G H' = G' ∧ m_rank H' = rank' ∧
    m_copyEdge H' = m_copyEdge H ∧
    m_copy H' = m_copy H ∧ m_topNode H' = m_topNode H ∧
    m_bottomNode H' = m_bottomNode H.
Proof.
  induction rs as [|i rs IH]; intros H eH G' rank' eH' Hrun.
  - simpl in Hrun. injection Hrun as <- <- <-. by exists H.
  - simpl in Hrun.
    destruct (split (eng_G H) eH) as [[G1 eH1]|] eqn:Hs; [|done]. simpl in Hrun.
    destruct (source G1 eH1) as [w|] eqn:Hw; [|done]. simpl in Hrun.
    set (H1 := set_split H G1 (m_copyEdge H) (m_origEdge H)
                 (<[w := ntClusterTopBottom]> (eng_type H))
                 (<[w := i]> (m_rank H))).
    assert (Hstep : createDummyNodes_splitTopBottom (Some (H, eH)) i = Some (H1, eH1)).
    { unfold createDummyNodes_splitTopBottom. simpl. rewrite Hs. simpl. by rewrite Hw. }
    destruct (IH H1 _ G' rank' eH' Hrun)
      as (H' & Hfold & HG & Hrk & Hchain & Hcopy & Htop & Hbot).
    exists H'. cbn [foldl]. rewrite Hstep. done.
Qed.

Lemma createDummyNodes_inv_valid CG H0 ends k H e h :
  createDummyNodes_inv CG H0 ends k H →
  e < length (cg_edges CG) → h ∈ m_copyEdge H e →
  h < length (g_edges (eng_G H)).
Proof.
  intros (_ & _ & _ & _ & _ & _ & _ & Hdone & Htodo) He Hh.
  destruct (decide (e < k)) as [Hlt|Hge].
  - destruct (Hdone e Hlt He) as [_ Hp]. by eapply ranked_path_valid.
  - destruct (Htodo e ltac:(lia) He) as (h' & Hc & Hl & _).
    rewrite Hc in Hh. apply list_elem_of_singleton in Hh as ->.
    by eapply lookup_lt_Some.
Qed.

Lemma createDummyNodes_edge_inv CG H0 ends k H :
  k < length (cg_edges CG) →
  createDummyNodes_inv CG H0 ends k H →
  ∃ H', createDummyNodes_edge H k = Some H' ∧
        createDummyNodes_inv CG H0 ends (S k) H'.
Proof.
  intros Hk Hinv.
  pose proof (λ e h, createDummyNodes_inv_valid _ _ _ _ _ e h Hinv) as Hvalid.
  destruct Hinv as (Hwf & HN & Hrk & Htop & Hbot & Hdisj & Hsrc & Hdone & Htodo).
  destruct (Htodo k ltac:(lia) Hk) as (h & Hc & Hl & Hspan).
  destruct (ends k) as [s t] eqn:Hends. simpl in Hspan.
  unfold createDummyNodes_edge. rewrite Hc. simpl. unfold source, target.
  rewrite Hl. simpl.
  destruct (decide (m_rank H t - m_rank H s < 1)%Z) as [?|_]; [lia|].
  destruct (decide (m_rank H t - m_rank H s < 2)%Z) as [Hone|Hmany].
  - exists H. split; [done|]. split_and!; try done.
    + intros e He1 He2. destruct (decide (e = k)) as [->|Hne].
      * rewrite Hc, Hends. split; [done|]. exists t. simpl.
        split_and!; [done|lia|done].
      * apply Hdone; [lia|done].
    + intros e He1 He2. apply Htodo; [lia|done].
  - set (kk := Z.to_nat (m_rank H t - m_rank H s - 1)).
    destruct (splitRun_spec kk (eng_G H) (m_rank H) h s t (m_rank H s + 1))
      as (G' & rank' & eH' & Hrun & Hwf' & HN' & HL' & Hold & Hrk' & Hpath & Hnew);
      [done|done|lia|lia|].
    replace (m_rank H t - m_rank H s - 1)%Z with (Z.of_nat kk) by lia.
    destruct (createDummyNodes_split_fold k _ H h G' rank' eH' Hrun)
      as (H' & Hfold & HG & HR & Hchain & Hother & Hcopy & Htop' & Hbot').
    rewrite Hfold. simpl. exists H'. split; [done|].
    rewrite length_seqZ, Nat2Z.id, Hc in Hchain. simpl in Hchain.
    assert (Hfresh : ∀ e h', e < length (cg_edges CG) → e ≠ k →
              h' ∈ m_copyEdge H e →
              g_edges G' !! h' = g_edges (eng_G H) !! h').
    { intros e h' He Hne Hh'. apply Hold; [by eapply Hvalid|].
      intros ->. apply Hne. apply (Hdisj e k h); [done|done|done|].
      rewrite Hc. set_solver. }
    split_and!.
    + by rewrite HG.
    + rewrite HG. lia.
    + intros x Hx. rewrite HR. rewrite Hrk' by lia. by apply Hrk.
    + congruence.
    + congruence.
    + intros e e' h' He He' Hh Hh'.
      destruct (decide (e = e')) as [|Hne]; [done|exfalso].
      destruct (decide (e = k)) as [->|Hek].
      * rewrite Hchain in Hh. rewrite Hother in Hh' by done.
        pose proof (Hvalid _ _ He' Hh') as Hlt.
        apply elem_of_cons in Hh as [->|Hh].
        -- apply Hne. apply (Hdisj k e' h); [done|done| |done]. rewrite Hc. set_solver.
        -- apply elem_of_seq in Hh. lia.
      * rewrite Hother in Hh by done.
        destruct (decide (e' = k)) as [->|He'k].
        -- rewrite Hchain in Hh'.
           pose proof (Hvalid _ _ He Hh) as Hlt.
           apply elem_of_cons in Hh' as [->|Hh'].
           ++ apply Hne. apply (Hdisj e k h); [done|done|done|]. rewrite Hc. set_solver.
           ++ apply elem_of_seq in Hh'. lia.
        -- rewrite Hother in Hh' by done. apply Hne. by eapply Hdisj.
    + intros e h' s' t' He Hh Hl'. rewrite HG in Hl'.
      destruct (decide (e = k)) as [->|Hek].
      * rewrite Hchain in Hh. rewrite Hends. simpl.
        apply elem_of_cons in Hh as [->|Hh].
        -- destruct Hpath as (m & Hm & _). rewrite Hm in Hl'. injection Hl' as <- <-.
           by left.
        -- right. specialize (Hnew _ _ _ Hh Hl'). lia.
      * rewrite Hother in Hh by done.
        rewrite (Hfresh e h' He Hek Hh) in Hl'. by eapply Hsrc.
    + intros e He1 He2. rewrite HG, HR.
      destruct (decide (e = k)) as [->|Hek].
      * rewrite Hchain, Hends. split; [done|]. exact Hpath.
      * rewrite Hother by done. destruct (Hdone e ltac:(lia) He2) as [Hnil Hp].
        split; [done|].
        eapply ranked_path_frame; [exact Hwf| |exact Hrk'|exact Hp].
        intros h' Hh'. by eapply Hfresh.
    + intros e He1 He2. rewrite HG, HR.
      destruct (Htodo e ltac:(lia) He2) as (he & Hce & Hle & Hse).
      exists he. rewrite Hother by lia.
      destruct (ends e) as [se te] eqn:Hee. simpl in *.
      destruct (Hwf _ _ _ Hle) as [? ?].
      split_and!; [done| |].
      * rewrite (Hfresh e he He2 ltac:(lia)); [done|]. rewrite Hce. set_solver.
      * rewrite !Hrk' by done. done.
Qed.

Lemma adjEntries_elem G w e :
  e ∈ adjEntries G w →
  ∃ s t, g_edges G !! e = Some (s, t) ∧ (s = w ∨ t = w).
Proof.
  unfold adjEntries. intros He. apply list_elem_of_bind in He as (e' & He & _).
  destruct (g_edges G !! e') as [[s t]|] eqn:E; [|by apply elem_of_nil in He].
  apply elem_of_app in He as [He|He].
  - destruct (decide (s = w)) as [->|]; [|by apply elem_of_nil in He].
    apply list_elem_of_singleton in He as ->. eauto.
  - destruct (decide (t = w)) as [->|]; [|by apply elem_of_nil in He].
    apply list_elem_of_singleton in He as ->. eauto.
Qed.

Lemma createDummyNodes_findTopBottom_inv CG H0 ends H c entries :
  createDummyNodes_inv CG H0 ends (length (cg_edges CG)) H →
  m_topNode H0 c < nodeIdCount (eng_G H0) →
  m_bottomNode H0 c < nodeIdCount (eng_G H0) →
  m_topNode H0 c ≠ m_bottomNode H0 c →
  (m_rank H0 (m_topNode H0 c) < m_rank H0 (m_bottomNode H0 c))%Z →
  (∀ e, e < length (cg_edges CG) → (ends e).1 ≠ m_topNode H0 c) →
  (∀ e, e ∈ entries →
        ∃ s t, g_edges (eng_G H) !! e = Some (s, t) ∧
               (s = m_topNode H c ∨ t = m_topNode H c)) →
  ∃ H', createDummyNodes_findTopBottom H (m_topNode H c) (m_bottomNode H c) entries
        = Some H' ∧
        createDummyNodes_inv CG H0 ends (length (cg_edges CG)) H'.
Proof.
  intros Hinv HtopN HbotN Htb Hranks Hends.
  pose proof (λ e h, createDummyNodes_inv_valid _ _ _ _ _ e h Hinv) as Hvalid.
  pose proof Hinv as (Hwf & HN & Hrk & Htop & Hbot & Hdisj & Hsrc & Hdone & Htodo).
  rewrite Htop, Hbot.
  induction entries as [|e entries IH]; intros Hentries; [by exists H|].
  cbn [createDummyNodes_findTopBottom].
  assert (IH' := IH ltac:(intros; apply Hentries; set_solver)). clear IH.
  destruct (decide (target (eng_G H) e = Some (m_bottomNode H0 c))) as [Htgt|_];
    [|exact IH'].
  rewrite !Hrk by done.
  destruct (decide (_ < 1)%Z) as [?|_]; [lia|].
  destruct (decide (_ < 2)%Z) as [_|Hmany]; [exact IH'|].
  destruct (Hentries e ltac:(set_solver)) as (s & t & Hl & Hst).
  unfold target in Htgt. rewrite Hl in Htgt. simpl in Htgt. injection Htgt as ->.
  destruct Hst as [->|Hst]; [|congruence].
  set (kk := Z.to_nat (m_rank H0 (m_bottomNode H0 c) - m_rank H0 (m_topNode H0 c) - 1)).
  destruct (splitRun_spec kk (eng_G H) (m_rank H) e (m_topNode H0 c) (m_bottomNode H0 c)
              (m_rank H0 (m_topNode H0 c) + 1))
    as (G' & rank' & eH' & Hrun & Hwf' & HN' & HL' & Hold & Hrk' & Hpath & Hnew);
    [done|done|rewrite Hrk by done; lia|rewrite Hrk by done; lia|].
  replace (m_rank H0 (m_bottomNode H0 c) - m_rank H0 (m_topNode H0 c) - 1)%Z
    with (Z.of_nat kk) by lia.
  destruct (createDummyNodes_splitTopBottom_fold _ H e G' rank' eH' Hrun)
    as (H' & Hfold & HG & HR & Hchain & Hcopy & Htop' & Hbot').
  rewrite Hfold. simpl. exists H'. split; [done|].
  assert (Hfresh : ∀ e' h', e' < length (cg_edges CG) → h' ∈ m_copyEdge H e' →
            g_edges G' !! h' = g_edges (eng_G H) !! h').
  { intros e' h' He' Hh'. apply Hold; [by eapply Hvalid|].
    intros ->. destruct (Hsrc e' e _ _ He' Hh' Hl) as [Heq|Hge]; [|lia].
    by apply (Hends e' He'). }
  split_and!.
  - by rewrite HG.
  - rewrite HG. lia.
  - intros x Hx. rewrite HR. rewrite Hrk' by lia. by apply Hrk.
  - congruence.
  - congruence.
  - rewrite Hchain. exact Hdisj.
  - intros e' h' s' t' He' Hh Hl'. rewrite Hchain in Hh. rewrite HG in Hl'.
    rewrite (Hfresh e' h' He' Hh) in Hl'. by eapply Hsrc.
  - intros e' He1 He2. rewrite HG, HR, Hchain.
    destruct (Hdone e' He1 He2) as [Hnil Hp]. split; [done|].
    eapply ranked_path_frame; [exact Hwf| |exact Hrk'|exact Hp].
    intros h' Hh'. by eapply Hfresh.
  - intros e' He1 He2. lia.
Qed.

Lemma createDummyNodes_cluster_inv CG H0 ends H c :
  createDummyNodes_inv CG H0 ends (length (cg_edges CG)) H →
  (c ≠ rootCluster CG →
   m_topNode H0 c < nodeIdCount (eng_G H0) ∧
   m_bottomNode H0 c < nodeIdCount (eng_G H0) ∧
   m_topNode H0 c ≠ m_bottomNode H0 c ∧
   (m_rank H0 (m_topNode H0 c) < m_rank H0 (m_bottomNode H0 c))%Z ∧
   ∀ e, e < length (cg_edges CG) → (ends e).1 ≠ m_topNode H0 c) →
  ∃ H', createDummyNodes_cluster CG H c = Some H' ∧
        createDummyNodes_inv CG H0 ends (length (cg_edges CG)) H'.
Proof.
  intros Hinv Hc. unfold createDummyNodes_cluster.
  destruct (decide (c = rootCluster CG)) as [|Hne]; [by exists H|].
  destruct (Hc Hne) as (? & ? & ? & ? & ?).
  eapply createDummyNodes_findTopBottom_inv; try done.
  intros e He. by apply adjEntries_elem.
Qed.

Lemma foldl_seq_inv {A} (f : A → nat → option A) (P : nat → A → Prop) (m : nat) :
  (∀ k a, k < m → P k a → ∃ a', f a k = Some a' ∧ P (S k) a') →
  ∀ a, P 0 a →
  ∃ a', foldl (λ acc e, a ← acc; f a e) (Some a) (seq 0 m) = Some a' ∧ P m a'.
Proof.
  intros Hstep.
  assert (∀ n k a, k + n = m → P k a →
            ∃ a', foldl (λ acc e, a ← acc; f a e) (Some a) (seq k n) = Some a' ∧ P m a')
    as Hgen.
  { induction n as [|n IH]; intros k a Hk Ha.
    - exists a. simpl. split; [done|]. by replace m with k by lia.
    - simpl. destruct (Hstep k a ltac:(lia) Ha) as (a1 & -> & Ha1).
      apply IH; [lia|done]. }
  intros a Ha. by apply Hgen.
Qed.

Lemma foldl_list_inv {A B} (f : A → B → option A) (P : A → Prop) (l : list B) :
  (∀ b a, b ∈ l → P a → ∃ a', f a b = Some a' ∧ P a') →
  ∀ a, P a →
  ∃ a', foldl (λ acc b, a ← acc; f a b) (Some a) l = Some a' ∧ P a'.
Proof.
  induction l as [|b l IH]; intros Hstep a Ha; [by exists a|].
  simpl. destruct (Hstep b a ltac:(set_solver) Ha) as (a1 & -> & Ha1).
  apply IH; [|done]. intros b' a' Hb'. apply Hstep. set_solver.
Qed.

Lemma chain_ends_single H e h s t :
  m_copyEdge H e = [h] → g_edges (eng_G H) !! h = Some (s, t) →
  chain_ends H e = (s, t).
Proof. intros Hc Hl. unfold chain_ends. rewrite Hc. simpl. by rewrite Hl. Qed.

Lemma createDummyNodes_pre_inv CG H :
  createDummyNodes_pre CG H →
  createDummyNodes_inv CG H (chain_ends H) 0 H.
Proof.
  intros (Hwf & Hsingle & Hinj & Hcl).
  split_and!; try done.
  - intros e e' h He He' Hh Hh'. apply Hinj; [done|done|].
    destruct (Hsingle e He) as (h1 & ? & ? & Hc1 & _).
    destruct (Hsingle e' He') as (h2 & ? & ? & Hc2 & _).
    rewrite Hc1, Hc2 in *.
    apply list_elem_of_singleton in Hh as ->. by apply list_elem_of_singleton in Hh' as ->.
  - intros e h s t He Hh Hl. left.
    destruct (Hsingle e He) as (h1 & s1 & t1 & Hc1 & Hl1 & _).
    rewrite Hc1 in Hh. apply list_elem_of_singleton in Hh as ->.
    rewrite (chain_ends_single _ _ _ _ _ Hc1 Hl1). simpl. congruence.
  - intros e He. lia.
  - intros e _ He.
    destruct (Hsingle e He) as (h1 & s1 & t1 & Hc1 & Hl1 & Hr).
    exists h1. rewrite (chain_ends_single _ _ _ _ _ Hc1 Hl1). simpl.
    split_and!; [done|done|lia].
Qed.

Lemma createDummyNodes_ranked CG H :
  createDummyNodes_pre CG H →
  ∃ H', ENG_createDummyNodes CG H = Some H' ∧
        createDummyNodes_inv CG H (chain_ends H) (length (cg_edges CG)) H'.
Proof.
  intros Hpre. pose proof (createDummyNodes_pre_inv _ _ Hpre) as Hinv.
  destruct Hpre as (_ & _ & _ & Hcl).
  unfold ENG_createDummyNodes.
  destruct (foldl_seq_inv (λ H' e, createDummyNodes_edge H' e)
              (createDummyNodes_inv CG H (chain_ends H)) (length (cg_edges CG)))
    with (a := H) as (H1 & -> & Hinv1); [|done|].
  { intros k a Hk Ha. by apply createDummyNodes_edge_inv. }
  simpl.
  apply (foldl_list_inv (λ H' c, createDummyNodes_cluster CG H' c)
           (createDummyNodes_inv CG H (chain_ends H) (length (cg_edges CG))));
    [|done].
  intros c a Hc Ha. apply createDummyNodes_cluster_inv; [done|].
  intros Hne. by apply Hcl.
Qed.

(** C1 (amended). When [createDummyNodes] is called on a nesting graph in
    which the chain of every original edge [e = (u,v)] is a single edge
    between the copies of [u] and [v] (in the direction [addEdge] gave it) that
    goes down by at least one rank, it returns, and afterwards the chain of [e]
    is a directed path along which the rank grows by exactly [1] with every
    edge: from the copy of [u] to the copy of [v], or, when the first edge was
    inserted reversed, from the copy of [v] to the copy of [u]. *)
Theorem createDummyNodes_chains (CG : ClusterGraph) (H : ENG) :
  createDummyNodes_pre CG H →
  (∀ e u v, cg_edges CG !! e = Some (u, v) →
            chain_ends H e = (m_copy H u, m_copy H v) ∨
            chain_ends H e = (m_copy H v, m_copy H u)) →
  ∃ H', ENG_createDummyNodes CG H = Some H' ∧
    ∀ e u v, cg_edges CG !! e = Some (u, v) →
      chain_ok (eng_G H') (m_rank H') (m_copyEdge H' e) (m_copy H u) (m_copy H v) ∨
      (chain_ends H e = (m_copy H v, m_copy H u) ∧
       chain_ok (eng_G H') (m_rank H') (m_copyEdge H' e) (m_copy H v) (m_copy H u)).
Proof.
  intros Hpre Hends.
  destruct (createDummyNodes_ranked CG H Hpre) as (H' & Hrun & Hinv).
  exists H'. split; [done|]. intros e u v He.
  destruct Hinv as (_ & _ & _ & _ & _ & _ & _ & Hdone & _).
  pose proof (lookup_lt_Some _ _ _ He) as Hlt.
  specialize (Hdone e Hlt Hlt).
  destruct (Hends e u v He) as [Heq|Heq]; rewrite Heq in Hdone; simpl in Hdone.
  - by left.
  - by right.
Qed.

Lemma createDummyNodes_chains_witness :
  ∃ H', ENG_createDummyNodes span_CG span_H = Some H' ∧
    ∀ e u v, cg_edges span_CG !! e = Some (u, v) →
      chain_ok (eng_G H') (m_rank H') (m_copyEdge H' e)
               (m_copy span_H u) (m_copy span_H v) ∨
      (chain_ends span_H e = (m_copy span_H v, m_copy span_H u) ∧
       chain_ok (eng_G H') (m_rank H') (m_copyEdge H' e)
                (m_copy span_H v) (m_copy span_H u)).
Proof.
  apply (createDummyNodes_chains span_CG span_H).
  - split_and!.
    + intros e s t. simpl.
      do 6 (destruct e as [|e]; [intros [= <- <-]; lia|]). done.
    + intros e He. simpl in He.
      do 3 (destruct e as [|e]; [eexists _, _, _; split_and!; [done|done|simpl; lia]|]).
      lia.
    + intros e e' He He'. simpl in He, He'.
      do 3 (destruct e as [|e]; [do 3 (destruct e' as [|e']; [done|]); lia|]).
      lia.
    + intros c Hc Hne. simpl in Hne.
      assert (c = 1) as -> by set_solver.
      split_and!; [simpl; lia|simpl; lia|done|simpl; lia|].
      intros e He. simpl in He.
      do 3 (destruct e as [|e]; [done|]). lia.
  - intros e u v He. simpl in He.
    do 3 (destruct e as [|e]; [injection He as <- <-; by left|]). done.
Defined.

Example createDummyNodes_chains_run :
  (λ H', (g_edges (eng_G H'), m_copyEdge H' <$> [0; 1; 2],
          m_rank H' <$> [7; 8; 9; 10; 11; 12]))
    <$> ENG_createDummyNodes span_CG span_H
  = Some ([(5, 1); (1, 6); (5, 12); (0, 7); (1, 8); (0, 9);
           (7, 1); (8, 2); (9, 10); (10, 11); (11, 2); (12, 6)],
          [[3; 6]; [4; 7]; [5; 8; 9; 10]],
          [1; 3; 1; 2; 3; 2]%Z).
Proof. reflexivity. Qed.

(** C1 as stated fails on a cyclic input. For the two edges 0 -> 1 and 1 -> 0
    the constructor inserts the second one reversed; after the ranking
    [createDummyNodes] leaves its chain as the single edge from the copy of 0
    to the copy of 1, which is no path from the copy of its source 1 to the
    copy of its target 0. *)
Lemma createDummyNodes_chain_reversed :
  ∃ H1 H2,
    ENG_adjacencyEdges cycle_CG cycle_H = Some H1 ∧
    ENG_createDummyNodes cycle_CG (set_rank H1 cycle_rank) = Some H2 ∧
    cg_edges cycle_CG !! 1 = Some (1, 0) ∧
    m_copyEdge H2 1 = [5] ∧
    g_edges (eng_G H2) !! 5 = Some (m_copy H2 0, m_copy H2 1) ∧
    chain_ok (eng_G H2) (m_rank H2) (m_copyEdge H2 1) (m_copy H2 0) (m_copy H2 1) ∧
    ¬ chain_ok (eng_G H2) (m_rank H2) (m_copyEdge H2 1) (m_copy H2 1) (m_copy H2 0).
Proof.
  eexists _, _. split; [reflexivity|]. split; [reflexivity|].
  split_and!; [done|done|done| |].
  - split; [done|]. exists 1. split_and!; [done|done|done].
  - intros [_ (m & Hm & _)]. discriminate Hm.
Qed.

(** * Further properties of the code *)

(** ** reachable and addEdge on distinct nodes *)

(** X1. Called with no node marked visited, [reachable(v, u, successors)]
    returns, leaves no node marked visited, and answers true exactly when [u]
    can be reached from [v] along edges of the graph; when it answers false,
    [successors] holds exactly the nodes that can be reached from [v], each
    once. *)
Theorem reachable_decides (G : Graph) (v u : node) (m_aeVisited : node → bool) :
  (∀ x, m_aeVisited x = false) →
  ∃ r visited' successors,
    reachable G v u m_aeVisited = Some (r, visited', successors) ∧
    (∀ x, visited' x = false) ∧
    (r = true ↔ rtc (has_edge G) v u) ∧
    (r = false → NoDup successors ∧ ∀ x, x ∈ successors ↔ rtc (has_edge G) v x).
Proof. apply reachable_spec. Qed.

Lemma reachable_decides_witness :
  ∃ r visited' successors,
    reachable nest3 1 0 (λ _, false) = Some (r, visited', successors) ∧
    (∀ x, visited' x = false) ∧
    (r = true ↔ rtc (has_edge nest3) 1 0) ∧
    (r = false → NoDup successors ∧ ∀ x, x ∈ successors ↔ rtc (has_edge nest3) 1 x).
Proof. apply (reachable_decides nest3 1 0 (λ _, false)). done. Defined.

Example reachable_decides_run :
  (λ r, (r.1.1, r.2)) <$> reachable nest3 1 0 (λ _, false) = Some (false, [1; 2]).
Proof. reflexivity. Qed.

(** X2. On distinct nodes [u] and [v], with [m_aeLevel] a topological labeling
    whose values lie within [-B .. B], where [3 * B + 1] is at most [INT_MAX]
    (so that the sums of [addEdge] stay within the range of [int]), and no node
    marked visited, [addEdge(u, v, addAlways)] returns; afterwards [m_aeLevel]
    is again a topological labeling, the graph is acyclic and no node is marked
    visited.  It returns [nullptr] exactly when [addAlways] is false and [u]
    can be reached from [v], and then the graph and the labeling are the ones
    before the call; an edge it returns is the new edge [u -> v], or [v -> u]
    when [addAlways] is true and [u] can be reached from [v].  No level
    decreases, and every level afterwards is at most [3 * B + 1]. *)
Theorem addEdge_distinct_topological (G : Graph) (m_aeLevel : node → Z)
    (m_aeVisited : node → bool) (u v : node) (addAlways : bool) (B : Z) :
  topological G m_aeLevel →
  (∀ x, m_aeVisited x = false) →
  u ≠ v →
  (∀ x, (- B ≤ m_aeLevel x ≤ B)%Z) →
  (3 * B + 1 ≤ INT_MAX)%Z →
  ∃ G' level' visited' r,
    addEdge G m_aeLevel m_aeVisited u v addAlways = Some (G', level', visited', r) ∧
    topological G' level' ∧
    acyclic G' ∧
    (∀ x, visited' x = false) ∧
    (r = None → G' = G ∧ level' = m_aeLevel) ∧
    (r = None ↔ addAlways = false ∧ rtc (has_edge G) v u) ∧
    (∀ e, r = Some e →
          e = length (g_edges G) ∧
          (g_edges G' = g_edges G ++ [(u, v)] ∨
           (g_edges G' = g_edges G ++ [(v, u)] ∧ addAlways = true ∧
            rtc (has_edge G) v u))) ∧
    (∀ x, (m_aeLevel x ≤ level' x ≤ 3 * B + 1)%Z) ∧
    nodeIdCount G' = nodeIdCount G.
Proof. apply addEdge_keeps_topological. Qed.

Lemma nest3_topological : topological nest3 (λ x, Z.of_nat (x `min` 2)).
Proof.
  intros a b Hab. unfold has_edge in Hab. simpl in Hab.
  repeat (apply elem_of_cons in Hab as [[= -> ->]|Hab]; [simpl; lia|]).
  by apply elem_of_nil in Hab.
Qed.

Lemma addEdge_distinct_topological_witness :
  ∃ G' level' visited' r,
    addEdge nest3 (λ x, Z.of_nat (x `min` 2)) (λ _, false) 2 0 true
      = Some (G', level', visited', r) ∧
    topological G' level' ∧
    acyclic G' ∧
    (∀ x, visited' x = false) ∧
    (r = None → G' = nest3 ∧ level' = (λ x, Z.of_nat (x `min` 2))) ∧
    (r = None ↔ true = false ∧ rtc (has_edge nest3) 0 2) ∧
    (∀ e, r = Some e →
          e = length (g_edges nest3) ∧
          (g_edges G' = g_edges nest3 ++ [(2, 0)] ∨
           (g_edges G' = g_edges nest3 ++ [(0, 2)] ∧ true = true ∧
            rtc (has_edge nest3) 0 2))) ∧
    (∀ x, (Z.of_nat (x `min` 2) ≤ level' x ≤ 3 * 2 + 1)%Z) ∧
    nodeIdCount G' = nodeIdCount nest3.
Proof.
  apply (addEdge_distinct_topological nest3 (λ x, Z.of_nat (x `min` 2)) (λ _, false)
           2 0 true 2).
  - apply nest3_topological.
  - done.
  - done.
  - intros x. lia.
  - unfold INT_MAX. lia.
Defined.

Example addEdge_distinct_topological_run :
  (λ r, (g_edges r.1.1.1, r.2)) <$>
    addEdge nest3 (λ x, Z.of_nat (x `min` 2)) (λ _, false) 2 0 true
  = Some ([(0, 1); (1, 2); (0, 2)], Some 2).
Proof. reflexivity. Qed.

(** ** The orchestrator returns *)

Section Orchestrator_termination.
Context {ENG : Type}.
Variable traverseTopDown traverseBottomUp : ENG → ENG * RCCrossings.
Variable storeCurrentPos restorePos permute : ENG → ENG.
Variable m_runs m_fails : Z.

Hypothesis nonneg_traverseTopDown : ∀ H, RCCrossings_nonneg (traverseTopDown H).2.
Hypothesis nonneg_traverseBottomUp : ∀ H, RCCrossings_nonneg (traverseBottomUp H).2.

Local Abbreviation sweeps :=
  (sweepLoop traverseTopDown traverseBottomUp storeCurrentPos m_fails).
Local Abbreviation runs :=
  (runLoop traverseTopDown traverseBottomUp storeCurrentPos permute m_runs m_fails).

Lemma sweepLoop_mono fuel : ∀ fuel' st st',
  fuel ≤ fuel' → sweeps fuel st = Some st' → sweeps fuel' st = Some st'.
Proof.
  induction fuel as [|fuel IH]; intros fuel' st st' Hle Hrun; [done|].
  destruct fuel' as [|fuel']; [lia|]. simpl in *.
  destruct (traverseTopDown (o_H st)) as [H1 new1].
  destruct (afterSweep storeCurrentPos m_fails st H1 new1) as [st1 [|]]; [done|].
  destruct (traverseBottomUp (o_H st1)) as [H2 new2].
  destruct (afterSweep storeCurrentPos m_fails st1 H2 new2) as [st2 [|]]; [done|].
  case_bool_decide; [|done]. apply IH; [lia|done].
Qed.

Lemma runLoop_mono fuel : ∀ fuel' i st st',
  fuel ≤ fuel' → runs fuel i st = Some st' → runs fuel' i st = Some st'.
Proof.
  induction fuel as [|fuel IH]; intros fuel' i st st' Hle Hrun; [done|].
  destruct fuel' as [|fuel']; [lia|]. simpl in *.
  destruct (sweeps fuel _) as [st1|] eqn:Hsw; [|done].
  rewrite (sweepLoop_mono fuel fuel' _ st1 ltac:(lia) Hsw). simpl in *.
  destruct (_ || _); [done|]. apply IH; [lia|done].
Qed.

(** A sweep that does not leave the loop lowers the count to beat, or leaves it
    and takes one from [nFails]. *)
Lemma afterSweep_measure st H new st' :
  RCCrossings_nonneg new →
  afterSweep storeCurrentPos m_fails st H new = (st', false) →
  (RCCrossings_lt (nCrossingsOld st') (nCrossingsOld st) = true ∧
   RCCrossings_nonneg (nCrossingsOld st')) ∨
  (nCrossingsOld st' = nCrossingsOld st ∧ nFails st' = (nFails st - 1)%Z).
Proof.
  intros Hnew. unfold afterSweep.
  destruct (RCCrossings_lt new (nCrossingsOld st)) eqn:Hlt.
  - destruct (RCCrossings_lt new (m_nCrossingsCluster st)).
    + destruct (RCCrossings_isZero new); intros [= <-]. by left.
    + intros [= <-]. by left.
  - intros [= <-]. by right.
Qed.

Lemma sweepLoop_terminates : ∀ (a b c : nat) st,
  RCCrossings_nonneg (nCrossingsOld st) →
  Z.to_nat (m_cnClusters (nCrossingsOld st)) = a →
  Z.to_nat (m_cnEdges (nCrossingsOld st)) = b →
  Z.to_nat (nFails st) = c →
  ∃ fuel st', sweeps fuel st = Some st'.
Proof.
  induction a as [a IHa] using lt_wf_ind.
  induction b as [b IHb] using lt_wf_ind.
  induction c as [c IHc] using lt_wf_ind.
  intros st Hold Ha Hb Hc.
  destruct (traverseTopDown (o_H st)) as [H1 new1] eqn:E1.
  destruct (afterSweep storeCurrentPos m_fails st H1 new1) as [st1 brk1] eqn:A1.
  destruct brk1.
  { exists 1, st1. simpl. by rewrite E1, A1. }
  destruct (traverseBottomUp (o_H st1)) as [H2 new2] eqn:E2.
  destruct (afterSweep storeCurrentPos m_fails st1 H2 new2) as [st2 brk2] eqn:A2.
  destruct brk2.
  { exists 1, st2. simpl. by rewrite E1, A1, E2, A2. }
  destruct (decide (0 < nFails st2)%Z) as [Hpos|Hneg]; cycle 1.
  { exists 1, st2. simpl. rewrite E1, A1, E2, A2. by rewrite bool_decide_eq_false_2. }
  assert (Hn1 : RCCrossings_nonneg new1)
    by (pose proof (nonneg_traverseTopDown (o_H st)) as Hn; by rewrite E1 in Hn).
  assert (Hn2 : RCCrossings_nonneg new2)
    by (pose proof (nonneg_traverseBottomUp (o_H st1)) as Hn; by rewrite E2 in Hn).
  pose proof (afterSweep_measure _ _ _ _ Hn1 A1) as M1.
  pose proof (afterSweep_measure _ _ _ _ Hn2 A2) as M2.
  assert (∃ fuel st', sweeps fuel st2 = Some st') as (fuel & st' & Hrun).
  { destruct Hold as [Ho1 Ho2].
    destruct M1 as [[L1 [N1 N1']]|[O1 F1]]; destruct M2 as [[L2 [N2 N2']]|[O2 F2]];
      rewrite ?RCCrossings_lt_spec in *.
    - destruct (decide (m_cnClusters (nCrossingsOld st2)
                        = m_cnClusters (nCrossingsOld st))) as [Heq|Hne].
      + eapply (IHb (Z.to_nat (m_cnEdges (nCrossingsOld st2)))); [lia|done|lia|done|done].
      + eapply (IHa (Z.to_nat (m_cnClusters (nCrossingsOld st2)))); [lia|done|done|done|done].
    - destruct (decide (m_cnClusters (nCrossingsOld st1)
                        = m_cnClusters (nCrossingsOld st))) as [Heq|Hne].
      + eapply (IHb (Z.to_nat (m_cnEdges (nCrossingsOld st2))));
          [rewrite O2; lia|by rewrite O2|rewrite O2; lia|done|done].
      + eapply (IHa (Z.to_nat (m_cnClusters (nCrossingsOld st2))));
          [rewrite O2; lia|by rewrite O2|done|done|done].
    - rewrite O1 in L2.
      destruct (decide (m_cnClusters (nCrossingsOld st2)
                        = m_cnClusters (nCrossingsOld st))) as [Heq|Hne].
      + eapply (IHb (Z.to_nat (m_cnEdges (nCrossingsOld st2)))); [lia|done|lia|done|done].
      + eapply (IHa (Z.to_nat (m_cnClusters (nCrossingsOld st2)))); [lia|done|done|done|done].
    - eapply (IHc (Z.to_nat (nFails st2))); [lia| | | |done].
      + rewrite O2, O1. done.
      + rewrite O2, O1. done.
      + rewrite O2, O1. done. }
  exists (S fuel), st'. simpl. rewrite E1, A1, E2, A2.
  by rewrite bool_decide_eq_true_2.
Qed.

Lemma runLoop_terminates : ∀ (n : nat) i st,
  RCCrossings_nonneg (nCrossingsOld st) →
  Z.to_nat (m_runs - i) ≤ n →
  ∃ fuel st', runs fuel i st = Some st'.
Proof.
  induction n as [|n IH]; intros i st Hold Hn.
  - destruct (sweepLoop_terminates _ _ _
                (mkOrchestrator (o_H st) (nCrossingsOld st) (m_nCrossingsCluster st)
                                (m_fails + 1) (o_log st)) Hold eq_refl eq_refl eq_refl)
      as (f1 & st1 & Hsw).
    exists (S f1), st1. simpl. rewrite Hsw. simpl.
    rewrite (bool_decide_eq_true_2 (m_runs ≤ i)%Z) by lia. by rewrite orb_true_r.
  - destruct (sweepLoop_terminates _ _ _
                (mkOrchestrator (o_H st) (nCrossingsOld st) (m_nCrossingsCluster st)
                                (m_fails + 1) (o_log st)) Hold eq_refl eq_refl eq_refl)
      as (f1 & st1 & Hsw).
    destruct (RCCrossings_isZero (m_nCrossingsCluster st1) || bool_decide (m_runs ≤ i)%Z)
      eqn:Hstop.
    + exists (S f1), st1. simpl. rewrite Hsw. simpl. by rewrite Hstop.
    + destruct (IH (i + 1)%Z
                  (mkOrchestrator (permute (o_H st1)) RCCrossings_infinity
                                  (m_nCrossingsCluster st1) (nFails st1)
                                  (o_log st1 ++ [EvPermute])))
        as (f2 & st2 & Hrun); [by split|lia|].
      exists (S (f1 `max` f2)), st2. simpl.
      rewrite (sweepLoop_mono f1 (f1 `max` f2) _ st1 ltac:(lia) Hsw). simpl.
      rewrite Hstop. by apply (runLoop_mono f2); [lia|].
Qed.
End Orchestrator_termination.

(** X3. When no sweep reports a negative number of crossings, the orchestrator
    returns: some number of loop iterations is enough, and every larger number
    gives the same result. *)
Theorem reduceCrossings_terminates {ENG : Type}
    (traverseTopDown traverseBottomUp : ENG → ENG * RCCrossings)
    (storeCurrentPos restorePos permute : ENG → ENG) (m_runs m_fails : Z) (H : ENG) :
  (∀ H, RCCrossings_nonneg (traverseTopDown H).2) →
  (∀ H, RCCrossings_nonneg (traverseBottomUp H).2) →
  ∃ fuel r, ∀ fuel', fuel ≤ fuel' →
    SugiyamaLayout_reduceCrossings traverseTopDown traverseBottomUp storeCurrentPos
      restorePos permute m_runs m_fails fuel' H = Some r.
Proof.
  intros Htd Hbu.
  destruct (runLoop_terminates traverseTopDown traverseBottomUp storeCurrentPos permute
              m_runs m_fails Htd Hbu (Z.to_nat (m_runs - 1)) 1%Z
              (mkOrchestrator H RCCrossings_infinity RCCrossings_infinity 0%Z []))
    as (fuel & st & Hrun); [by split|lia|].
  eexists fuel, _. intros fuel' Hle. unfold SugiyamaLayout_reduceCrossings.
  by rewrite (runLoop_mono _ _ _ _ _ _ fuel fuel' _ _ st Hle Hrun).
Qed.

Lemma reduceCrossings_terminates_witness :
  ∃ fuel r, ∀ fuel', fuel ≤ fuel' →
    SugiyamaLayout_reduceCrossings script_sweep script_sweep script_store
      script_restore script_permute 2 0 fuel' (0, 0, 0) = Some r.
Proof.
  apply (reduceCrossings_terminates script_sweep script_sweep script_store
           script_restore script_permute 2 0 (0, 0, 0)).
  - intros [[c s] [|[|[|t]]]]; split; simpl; lia.
  - intros [[c s] [|[|[|t]]]]; split; simpl; lia.
Defined.

(** ** lca on the cluster tree *)

Section lca.
Variable parent : cluster → option cluster.
Variable depth : cluster → nat.
Hypothesis parent_depth : ∀ c p, parent c = Some p → depth p < depth c.

Local Abbreviation anc := (cluster_ancestor parent).

Lemma cluster_ancestor_add k d c :
  anc (k + d) c = anc k c ≫= anc d.
Proof.
  induction d as [|d IH].
  - rewrite Nat.add_0_r. simpl. by destruct (anc k c).
  - rewrite Nat.add_succ_r. simpl. rewrite IH. by destruct (anc k c).
Qed.

Lemma cluster_ancestor_depth d : ∀ c x, anc d c = Some x → depth x + d ≤ depth c.
Proof.
  induction d as [|d IH]; intros c x Hx; simpl in Hx.
  - injection Hx as ->. lia.
  - destruct (anc d c) as [y|] eqn:Hy; [|done]. simpl in Hx.
    apply parent_depth in Hx. specialize (IH c y Hy). lia.
Qed.

Lemma cluster_ancestor_inj k k' c x :
  anc k c = Some x → anc k' c = Some x → k = k'.
Proof.
  assert (∀ a b, a < b → anc a c = Some x → anc b c = Some x → False) as Hlt.
  { intros a b Hab Ha Hb. replace b with (a + (b - a)) in Hb by lia.
    rewrite cluster_ancestor_add, Ha in Hb. simpl in Hb.
    apply cluster_ancestor_depth in Hb. lia. }
  intros Hk Hk'. destruct (Nat.lt_trichotomy k k') as [?|[?|?]]; [|done|];
    exfalso; eauto.
Qed.

Lemma cluster_ancestor_S_defined k c x :
  anc (S k) c = Some x → ∃ y, anc k c = Some y ∧ parent y = Some x.
Proof. simpl. destruct (anc k c) as [y|]; [|done]. simpl. eauto. Qed.

Lemma lca_pred_below c k x :
  anc k c = Some x → lca_pred parent c k = cluster_below parent c k.
Proof.
  destruct k as [|k]; [done|]. intros Hx.
  apply cluster_ancestor_S_defined in Hx as (y & Hy & _). simpl. by rewrite Hy.
Qed.

Variables (c1 c2 L : cluster) (i j : nat).
Hypothesis anc_c1 : anc i c1 = Some L.
Hypothesis anc_c2 : anc j c2 = Some L.
Hypothesis lowest : ∀ i' j', i' < i → j' < j → anc i' c1 ≠ anc j' c2.

(** Every common ancestor lies at or above [L] on both walks. *)
Lemma lca_minimal i' j' x :
  anc i' c1 = Some x → anc j' c2 = Some x → i ≤ i' ∧ j ≤ j'.
Proof.
  intros H1 H2.
  destruct (decide (i' < i)) as [Hi|Hi].
  - exfalso. pose proof anc_c1 as HL.
    replace i with (i' + (i - i')) in HL by lia.
    rewrite cluster_ancestor_add, H1 in HL. simpl in HL.
    assert (anc (j' + (i - i')) c2 = Some L) as HL2
      by (by rewrite cluster_ancestor_add, H2).
    pose proof (cluster_ancestor_inj _ _ _ _ HL2 anc_c2) as Hj.
    apply (lowest i' j'); [done|lia|congruence].
  - destruct (decide (j' < j)) as [Hj|Hj]; [|lia].
    exfalso. pose proof anc_c2 as HL.
    replace j with (j' + (j - j')) in HL by lia.
    rewrite cluster_ancestor_add, H2 in HL. simpl in HL.
    assert (anc (i' + (j - j')) c1 = Some L) as HL1
      by (by rewrite cluster_ancestor_add, H1).
    pose proof (cluster_ancestor_inj _ _ _ _ HL1 anc_c1) as Hi'. lia.
Qed.

Local Abbreviation marks := (lca_marks parent c1 c2).

Lemma lca_unmarked1 k1 k2 mark marked x :
  marks k1 k2 mark marked → anc k1 c1 = Some x → k1 < i ∨ k2 ≤ j → mark x = None.
Proof.
  intros (_ & _ & M3 & _) Hx Hk. destruct (mark x) as [p|] eqn:Hm; [|done]. exfalso.
  destruct (M3 x) as [(k & Hlt & Hk1)|(k & Hlt & Hk2)]; [congruence| |].
  - pose proof (cluster_ancestor_inj _ _ _ _ Hx Hk1). lia.
  - pose proof (lca_minimal _ _ _ Hx Hk2). lia.
Qed.

Lemma lca_unmarked2 k1 k2 mark marked y :
  marks k1 k2 mark marked → anc k2 c2 = Some y → k1 ≤ i ∨ k2 < j → mark y = None.
Proof.
  intros (_ & _ & M3 & _) Hy Hk. destruct (mark y) as [p|] eqn:Hm; [|done]. exfalso.
  destruct (M3 y) as [(k & Hlt & Hk1)|(k & Hlt & Hk2)]; [congruence| |].
  - pose proof (lca_minimal _ _ _ Hk1 Hy). lia.
  - pose proof (cluster_ancestor_inj _ _ _ _ Hy Hk2). lia.
Qed.

Lemma lca_marks_step1 k1 k2 mark marked x :
  marks k1 k2 mark marked → anc k1 c1 = Some x → mark x = None →
  marks (S k1) k2 (<[x := Some (lca_pred parent c1 k1)]> mark) (marked ++ [x]).
Proof.
  intros (M1 & M2 & M3 & M4) Hx Hm. split_and!.
  - intros k y Hk Hy. destruct (decide (y = x)) as [->|Hne].
    + rewrite fn_lookup_insert. by rewrite (cluster_ancestor_inj _ _ _ _ Hy Hx).
    + rewrite fn_lookup_insert_ne by done. apply M1; [|done].
      destruct (decide (k = k1)) as [->|]; [congruence|lia].
  - intros k y Hk Hy. destruct (decide (y = x)) as [->|Hne].
    + rewrite (M2 k x Hk Hy) in Hm. done.
    + rewrite fn_lookup_insert_ne by done. by apply M2.
  - intros y Hy. destruct (decide (y = x)) as [->|Hne].
    + left. exists k1. split; [lia|done].
    + rewrite fn_lookup_insert_ne in Hy by done.
      destruct (M3 y Hy) as [(k & ? & ?)|?]; [left; exists k; split; [lia|done]|by right].
  - intros y. rewrite elem_of_app, list_elem_of_singleton, <- M4.
    destruct (decide (y = x)) as [->|Hne].
    + rewrite fn_lookup_insert. split; [by right|done].
    + rewrite fn_lookup_insert_ne by done. split; [by left|by intros [?|?]].
Qed.

Lemma lca_marks_step2 k1 k2 mark marked y :
  marks k1 k2 mark marked → anc k2 c2 = Some y → mark y = None →
  marks k1 (S k2) (<[y := Some (lca_pred parent c2 k2)]> mark) (marked ++ [y]).
Proof.
  intros (M1 & M2 & M3 & M4) Hy Hm. split_and!.
  - intros k x Hk Hx. destruct (decide (x = y)) as [->|Hne].
    + rewrite (M1 k y Hk Hx) in Hm. done.
    + rewrite fn_lookup_insert_ne by done. by apply M1.
  - intros k x Hk Hx. destruct (decide (x = y)) as [->|Hne].
    + rewrite fn_lookup_insert. by rewrite (cluster_ancestor_inj _ _ _ _ Hx Hy).
    + rewrite fn_lookup_insert_ne by done. apply M2; [|done].
      destruct (decide (k = k2)) as [->|]; [congruence|lia].
  - intros x Hx. destruct (decide (x = y)) as [->|Hne].
    + right. exists k2. split; [lia|done].
    + rewrite fn_lookup_insert_ne in Hx by done.
      destruct (M3 x Hx) as [?|(k & ? & ?)]; [by left|right; exists k; split; [lia|done]].
  - intros x. rewrite elem_of_app, list_elem_of_singleton, <- M4.
    destruct (decide (x = y)) as [->|Hne].
    + rewrite fn_lookup_insert. split; [by right|done].
    + rewrite fn_lookup_insert_ne by done. split; [by left|by intros [?|?]].
Qed.

Lemma lca_marks_skip1 k1 k2 mark marked :
  marks k1 k2 mark marked → anc k1 c1 = None → marks (S k1) k2 mark marked.
Proof.
  intros (M1 & M2 & M3 & M4) Hx. split_and!; [|done| |done].
  - intros k x Hk Hkx. apply M1; [|done].
    destruct (decide (k = k1)) as [->|]; [congruence|lia].
  - intros x Hm. destruct (M3 x Hm) as [(k & ? & ?)|?]; [|by right].
    left. exists k. split; [lia|done].
Qed.

Lemma lca_marks_skip2 k1 k2 mark marked :
  marks k1 k2 mark marked → anc k2 c2 = None → marks k1 (S k2) mark marked.
Proof.
  intros (M1 & M2 & M3 & M4) Hx. split_and!; [done| | |done].
  - intros k x Hk Hkx. apply M2; [|done].
    destruct (decide (k = k2)) as [->|]; [congruence|lia].
  - intros x Hm. destruct (M3 x Hm) as [?|(k & ? & ?)]; [by left|].
    right. exists k. split; [lia|done].
Qed.

Lemma lca_loop_rounds u v : ∀ n k fuel mark marked,
  k + n = i `max` j → n < fuel → marks k k mark marked →
  ∃ mark' marked' sp spTo,
    lca_loop fuel parent u v mark marked
             (anc k c1) (lca_pred parent c1 k) (anc k c2) (lca_pred parent c2 k)
    = Some (L, mark', marked', sp, spTo) ∧
    (∀ x, mark' x ≠ None ↔ x ∈ marked') ∧
    (i ≤ j → spTo = v ∧ sp = lca_pred parent c2 j ∧
             mark' L = Some (lca_pred parent c1 i)) ∧
    (j < i → spTo = u ∧ sp = lca_pred parent c1 i ∧
             mark' L = Some (lca_pred parent c2 j)).
Proof.
  induction n as [|n IH]; intros k fuel mark marked Hk Hfuel Hm;
    (destruct fuel as [|fuel]; [lia|]).
  - rewrite Nat.add_0_r in Hk. cbn [lca_loop].
    destruct (decide (i ≤ j)) as [Hij|Hij].
    + assert (k = j) as -> by lia. rewrite anc_c2.
      destruct (anc j c1) as [x|] eqn:E1.
      * pose proof (lca_unmarked1 _ _ _ _ _ Hm E1 ltac:(lia)) as Hx. rewrite Hx.
        pose proof (lca_marks_step1 _ _ _ _ _ Hm E1 Hx) as (M1 & _ & _ & M4).
        rewrite (M1 i L ltac:(lia) anc_c1).
        eexists _, _, _, _. split; [done|]. split; [done|]. split; [|lia].
        intros _. split_and!; [done|done|]. by apply M1; [lia|].
      * pose proof (lca_marks_skip1 _ _ _ _ Hm E1) as (M1 & _ & _ & M4).
        rewrite (M1 i L ltac:(lia) anc_c1).
        eexists _, _, _, _. split; [done|]. split; [done|]. split; [|lia].
        intros _. split_and!; [done|done|]. by apply M1; [lia|].
    + assert (k = i) as -> by lia. rewrite anc_c1.
      pose proof Hm as (_ & M2 & _ & M4).
      rewrite (M2 j L ltac:(lia) anc_c2).
      eexists _, _, _, _. split; [done|]. split; [done|]. split; [lia|].
      intros _. split_and!; [done|done|]. by apply M2; [lia|].
  - cbn [lca_loop].
    destruct (anc k c1) as [x|] eqn:E1.
    + pose proof (lca_unmarked1 _ _ _ _ _ Hm E1 ltac:(lia)) as Hx. rewrite Hx.
      pose proof (lca_marks_step1 _ _ _ _ _ Hm E1 Hx) as Hm1.
      destruct (anc k c2) as [y|] eqn:E2.
      * pose proof (lca_unmarked2 _ _ _ _ _ Hm1 E2 ltac:(lia)) as Hy. rewrite Hy.
        pose proof (lca_marks_step2 _ _ _ _ _ Hm1 E2 Hy) as Hm2.
        specialize (IH (S k) fuel _ _ ltac:(lia) ltac:(lia) Hm2).
        simpl in IH. rewrite E1, E2 in IH. exact IH.
      * pose proof (lca_marks_skip2 _ _ _ _ Hm1 E2) as Hm2.
        specialize (IH (S k) fuel _ _ ltac:(lia) ltac:(lia) Hm2).
        simpl in IH. rewrite E1, E2 in IH. exact IH.
    + pose proof (lca_marks_skip1 _ _ _ _ Hm E1) as Hm1.
      destruct (anc k c2) as [y|] eqn:E2.
      * pose proof (lca_unmarked2 _ _ _ _ _ Hm1 E2 ltac:(lia)) as Hy. rewrite Hy.
        pose proof (lca_marks_step2 _ _ _ _ _ Hm1 E2 Hy) as Hm2.
        specialize (IH (S k) fuel _ _ ltac:(lia) ltac:(lia) Hm2).
        simpl in IH. rewrite E1, E2 in IH. exact IH.
      * pose proof (lca_marks_skip2 _ _ _ _ Hm1 E2) as Hm2.
        specialize (IH (S k) fuel _ _ ltac:(lia) ltac:(lia) Hm2).
        simpl in IH. rewrite E1, E2 in IH. exact IH.
Qed.
End lca.

Lemma lca_reset_marks (l : list cluster) : ∀ (mark : cluster → option cluster) x,
  foldl (λ m c, <[c := None]> m) mark l x = if decide (x ∈ l) then None else mark x.
Proof.
  induction l as [|c l IH]; intros mark x; simpl.
  - done.
  - rewrite IH. destruct (decide (x ∈ l)) as [Hin|Hnin].
    + by rewrite decide_True by set_solver.
    + destruct (decide (x = c)) as [->|Hne].
      * rewrite fn_lookup_insert. by rewrite decide_True by set_solver.
      * rewrite fn_lookup_insert_ne by done. by rewrite decide_False by set_solver.
Qed.

(** X4. On a cluster tree (every parent is less deep than its child), with
    every marked cluster listed in [m_markedClustersTree]: when [L] is the
    lowest common ancestor of the clusters of [u] and [v], [i] and [j] steps
    above them, [lca(u, v)] returns [L] after [max(i, j) + 1] rounds of its
    loop; the witness clusters read off afterwards are the cluster below [L]
    on the walk from [u] (as [cFrom]) and the one below [L] on the walk from
    [v] (as [cTo]), where a walk of no steps gives [L] itself; and the marked
    clusters are again the listed ones. *)
Theorem lca_lowest_common_ancestor (fuel : nat) (CG : ClusterGraph) (H : ENG)
    (u v : node) (depth : cluster → nat) (i j : nat) (L : cluster) :
  (∀ c, m_mark H c ≠ None → c ∈ m_markedClustersTree H) →
  (∀ c p, cg_parent CG c = Some p → depth p < depth c) →
  cluster_ancestor (cg_parent CG) i (clusterOf CG u) = Some L →
  cluster_ancestor (cg_parent CG) j (clusterOf CG v) = Some L →
  (∀ i' j', i' < i → j' < j →
     cluster_ancestor (cg_parent CG) i' (clusterOf CG u)
     ≠ cluster_ancestor (cg_parent CG) j' (clusterOf CG v)) →
  i `max` j < fuel →
  ∃ H', ENG_lca fuel CG H u v = Some (H', L) ∧
        ENG_witnesses H' L v
        = Some (cluster_below (cg_parent CG) (clusterOf CG u) i,
                cluster_below (cg_parent CG) (clusterOf CG v) j) ∧
        (∀ c, m_mark H' c ≠ None ↔ c ∈ m_markedClustersTree H') ∧
        eng_G H' = eng_G H ∧ same_arrays H H'.
Proof.
  intros Hlisted Hdepth Hi Hj Hlow Hfuel. unfold ENG_lca.
  set (mark0 := foldl (λ m c, <[c := None]> m) (m_mark H) (m_markedClustersTree H)).
  assert (Hclean : ∀ x, mark0 x = None).
  { intros x. unfold mark0. rewrite lca_reset_marks.
    destruct (decide (x ∈ m_markedClustersTree H)) as [|Hnin]; [done|].
    destruct (m_mark H x) eqn:Hm; [|done]. exfalso. apply Hnin, Hlisted. congruence. }
  destruct (lca_loop_rounds (cg_parent CG) depth Hdepth _ _ L i j Hi Hj Hlow u v
              (i `max` j) 0 fuel mark0 [])
    as (mark' & marked' & sp & spTo & Hrun & Hmarked & Hle & Hgt); [lia|lia| |].
  { split_and!.
    - intros k x Hk. lia.
    - intros k x Hk. lia.
    - intros x Hx. by rewrite Hclean in Hx.
    - intros x. rewrite Hclean. split; [done|]. intros Hx. by apply elem_of_nil in Hx. }
  simpl in Hrun. rewrite Hrun. simpl. eexists. split; [done|].
  split_and!; [|done|done|done].
  unfold ENG_witnesses. simpl.
  rewrite <- (lca_pred_below (cg_parent CG) _ _ _ Hi).
  rewrite <- (lca_pred_below (cg_parent CG) _ _ _ Hj).
  destruct (decide (i ≤ j)) as [Hij|Hij].
  - destruct (Hle Hij) as (-> & -> & ->). simpl. by rewrite decide_True.
  - destruct (Hgt ltac:(lia)) as (-> & -> & ->). simpl.
    rewrite decide_False; [done|]. intros [= ->].
    destruct (lca_minimal (cg_parent CG) depth Hdepth _ _ L i j Hi Hj Hlow 0 0
                (clusterOf CG v)); [done|done|lia].
Qed.

Lemma lca_lowest_common_ancestor_witness :
  ∃ H', ENG_lca 2 siblings_CG siblings_H 0 1 = Some (H', 0) ∧
        ENG_witnesses H' 0 1
        = Some (cluster_below (cg_parent siblings_CG) (clusterOf siblings_CG 0) 1,
                cluster_below (cg_parent siblings_CG) (clusterOf siblings_CG 1) 1) ∧
        (∀ c, m_mark H' c ≠ None ↔ c ∈ m_markedClustersTree H') ∧
        eng_G H' = eng_G siblings_H ∧ same_arrays siblings_H H'.
Proof.
  apply (lca_lowest_common_ancestor 2 siblings_CG siblings_H 0 1
           (λ c, match c with 0 => 0 | _ => 1 end) 1 1 0).
  - done.
  - intros [|c] p; simpl; [done|]. intros [= <-]. lia.
  - reflexivity.
  - reflexivity.
  - intros i' j' Hi' Hj'. assert (i' = 0) as -> by lia. assert (j' = 0) as -> by lia.
    done.
  - simpl. lia.
Defined.

Example lca_lowest_common_ancestor_run :
  (λ r, (r.2, ENG_witnesses r.1 r.2 1)) <$> ENG_lca 2 siblings_CG siblings_H 0 1
  = Some (0, Some (1, 2)).
Proof. reflexivity. Qed.

(** ** The seed of m_aeLevel *)

Lemma assignAeLevel_number_app l1 l2 st :
  assignAeLevel_number (l1 ++ l2) st
  = assignAeLevel_number l2 (assignAeLevel_number l1 st).
Proof. unfold assignAeLevel_number. by rewrite foldl_app. Qed.

Lemma assignAeLevel_number_count l : ∀ st,
  (assignAeLevel_number l st).2 = (st.2 + Z.of_nat (length l))%Z.
Proof.
  induction l as [|x l IH]; intros st; simpl; [lia|].
  unfold assignAeLevel_number in *. rewrite IH. simpl. lia.
Qed.

Lemma assignAeLevel_number_other l x : ∀ st,
  x ∉ l → (assignAeLevel_number l st).1 x = st.1 x.
Proof.
  induction l as [|y l IH]; intros st Hx; simpl; [done|].
  unfold assignAeLevel_number in *. rewrite IH by set_solver. simpl.
  rewrite fn_lookup_insert_ne; [done|set_solver].
Qed.

Lemma assignAeLevel_number_lookup l : ∀ st k x,
  NoDup l → l !! k = Some x →
  (assignAeLevel_number l st).1 x = (st.2 + Z.of_nat k)%Z.
Proof.
  induction l as [|y l IH]; intros st k x Hnd Hk; [done|].
  apply NoDup_cons in Hnd as [Hy Hnd].
  destruct k as [|k]; simpl in Hk.
  - injection Hk as ->. simpl.
    pose proof (assignAeLevel_number_other l x (<[x:=st.2]> st.1, (st.2 + 1)%Z) Hy) as Ho.
    unfold assignAeLevel_number in *. rewrite Ho. simpl.
    rewrite fn_lookup_insert. lia.
  - simpl. unfold assignAeLevel_number in *. rewrite (IH _ k x Hnd Hk). simpl. lia.
Qed.

Lemma before_number (l : list node) x y st :
  NoDup l → before l x y →
  ((assignAeLevel_number l st).1 x < (assignAeLevel_number l st).1 y)%Z.
Proof.
  intros Hnd (l1 & l2 & l3 & ->).
  rewrite (assignAeLevel_number_lookup _ st (length l1) x Hnd).
  - rewrite (assignAeLevel_number_lookup _ st (length l1 + S (length l2)) y Hnd); [lia|].
    rewrite lookup_app_r by lia.
    replace (length l1 + S (length l2) - length l1) with (S (length l2)) by lia.
    simpl. rewrite lookup_app_r by lia. by rewrite Nat.sub_diag.
  - rewrite lookup_app_r by lia. by rewrite Nat.sub_diag.
Qed.

Lemma before_embed {A} (l a b : list A) x y :
  before l x y → before (a ++ l ++ b) x y.
Proof.
  intros (l1 & l2 & l3 & ->). exists (a ++ l1), l2, (l3 ++ b).
  by repeat first [rewrite <- app_assoc | progress simpl].
Qed.

Section assignAeLevel.
Variables (T : ClusterTree) (H : ENG) (depth : cluster → nat).
Hypothesis children_depth : ∀ c child, child ∈ ct_children T c → depth child < depth c.

Local Abbreviation order fuel := (assignAeLevel_order fuel T H).

Lemma ENG_assignAeLevel_order fuel : ∀ c st,
  depth c < fuel →
  ENG_assignAeLevel fuel T H c st = Some (assignAeLevel_number (order fuel c) st).
Proof.
  induction fuel as [|fuel IH]; intros c [level count] Hd; [lia|].
  cbn [ENG_assignAeLevel assignAeLevel_order].
  change (m_topNode H c :: ?l) with ([m_topNode H c] ++ l).
  rewrite !assignAeLevel_number_app.
  change (assignAeLevel_number [m_topNode H c] (level, count))
    with (<[m_topNode H c := count]> level, (count + 1)%Z).
  set (st1 := (<[m_topNode H c := count]> level, (count + 1)%Z)).
  assert (foldl (λ st v, (<[m_copy H v := st.2]> st.1, (st.2 + 1)%Z)) st1 (ct_nodes T c)
          = assignAeLevel_number (m_copy H <$> ct_nodes T c) st1) as ->.
  { unfold assignAeLevel_number. generalize st1.
    induction (ct_nodes T c) as [|v l IHl]; intros st; [done|]. simpl. apply IHl. }
  destruct (assignAeLevel_number (m_copy H <$> ct_nodes T c) st1) as [level2 count2] eqn:E2.
  assert (∀ l st, (∀ child, child ∈ l → depth child < fuel) →
            foldl (λ acc child, st' ← acc; ENG_assignAeLevel fuel T H child st') (Some st) l
            = Some (assignAeLevel_number (l ≫= order fuel) st)) as Hkids.
  { induction l as [|child l IHl]; intros st Hl; [done|].
    simpl. rewrite IH by (apply Hl; set_solver).
    rewrite assignAeLevel_number_app. apply IHl. intros ch Hch. apply Hl. set_solver. }
  rewrite Hkids; cycle 1.
  { intros child Hch. apply children_depth in Hch. lia. }
  simpl. by destruct (assignAeLevel_number _ (level2, count2)).
Qed.

Lemma order_S fuel c :
  order (S fuel) c
  = m_topNode H c :: (m_copy H <$> ct_nodes T c)
      ++ (ct_children T c ≫= order fuel) ++ [m_bottomNode H c].
Proof. done. Qed.

Lemma order_ends fuel c :
  ∃ l, order (S fuel) c = m_topNode H c :: l ++ [m_bottomNode H c].
Proof. simpl. eexists. by rewrite app_assoc. Qed.

Lemma order_before fuel : ∀ c d,
  depth c < fuel → rtc (λ a b, b ∈ ct_children T a) c d →
  (∀ v, v ∈ ct_nodes T d →
        before (order fuel c) (m_topNode H d) (m_copy H v) ∧
        before (order fuel c) (m_copy H v) (m_bottomNode H d)) ∧
  (∀ d', d' ∈ ct_children T d →
        before (order fuel c) (m_topNode H d) (m_topNode H d') ∧
        before (order fuel c) (m_bottomNode H d') (m_bottomNode H d) ∧
        before (order fuel c) (m_topNode H d') (m_bottomNode H d')).
Proof.
  induction fuel as [|fuel IH]; intros c d Hd Hrtc; [lia|].
  inversion Hrtc as [|? c' ? Hstep Hrest]; subst.
  - split.
    + intros v Hv. apply (list_elem_of_fmap_2 (m_copy H)) in Hv.
      apply list_elem_of_split in Hv as (p & s & Hps). simpl. rewrite Hps. split.
      * exists [], p, (s ++ (ct_children T d ≫= order fuel) ++ [m_bottomNode H d]).
        by repeat first [rewrite <- app_assoc | progress simpl].
      * exists (m_topNode H d :: p), (s ++ (ct_children T d ≫= order fuel)), [].
        by repeat first [rewrite <- app_assoc | progress simpl].
    + intros d' Hd'. pose proof (children_depth _ _ Hd') as Hdd.
      destruct fuel as [|fuel]; [lia|].
      pose proof Hd' as Hsplit. apply list_elem_of_split in Hsplit as (k1 & k2 & Hk).
      destruct (order_ends fuel d') as (mid & Hmid).
      rewrite (order_S (S fuel) d), Hk, bind_app, bind_cons, Hmid.
      set (k1' := k1 ≫= assignAeLevel_order (S fuel) T H).
      set (k2' := k2 ≫= assignAeLevel_order (S fuel) T H).
      set (cp := m_copy H <$> ct_nodes T d).
      split_and!.
      * exists [], (cp ++ k1'), (mid ++ [m_bottomNode H d'] ++ k2' ++ [m_bottomNode H d]).
        by repeat first [rewrite <- app_assoc | progress simpl].
      * exists (m_topNode H d :: cp ++ k1' ++ m_topNode H d' :: mid), k2', [].
        simpl. rewrite <- !app_assoc. by repeat first [rewrite <- app_assoc | progress simpl].
      * exists (m_topNode H d :: cp ++ k1'), mid, (k2' ++ [m_bottomNode H d]).
        simpl. rewrite <- !app_assoc. by repeat first [rewrite <- app_assoc | progress simpl].
  - pose proof (children_depth _ _ Hstep) as Hdc.
    destruct (IH c' d ltac:(lia) Hrest) as [IHv IHc].
    apply list_elem_of_split in Hstep as (k1 & k2 & Hk).
    assert (∀ x y, before (order fuel c') x y → before (order (S fuel) c) x y) as Hemb.
    { intros x y Hb. cbn [assignAeLevel_order]. rewrite Hk, bind_app, bind_cons.
      apply (before_embed _ (m_topNode H c :: (m_copy H <$> ct_nodes T c)
                              ++ (k1 ≫= order fuel))
                            ((k2 ≫= order fuel) ++ [m_bottomNode H c])) in Hb.
      simpl in Hb. rewrite <- !app_assoc in Hb. by repeat first [rewrite <- app_assoc | progress simpl]. }
    split.
    + intros v Hv. destruct (IHv v Hv). split; by apply Hemb.
    + intros d' Hd'. destruct (IHc d' Hd') as (? & ? & ?). split_and!; by apply Hemb.
Qed.
End assignAeLevel.

Lemma containmentEdges_nodes CG H (nodes : list node) : ∀ G a b,
  has_edge
    (foldl (λ G v,
              let vH := m_copy H v in
              let c := clusterOf CG v in
              let G := (newEdge G (m_topNode H c) vH).1 in
              (newEdge G vH (m_bottomNode H c)).1) G nodes) a b →
  has_edge G a b ∨
  ∃ v, v ∈ nodes ∧
       ((a = m_topNode H (clusterOf CG v) ∧ b = m_copy H v) ∨
        (a = m_copy H v ∧ b = m_bottomNode H (clusterOf CG v))).
Proof.
  induction nodes as [|v nodes IH]; intros G a b Hab; [by left|].
  cbn -[newEdge] in Hab. apply IH in Hab as [Hab|(w & Hw & Hab)].
  - apply has_edge_newEdge in Hab as [Hab|[-> ->]].
    + apply has_edge_newEdge in Hab as [Hab|[-> ->]]; [by left|].
      right. exists v. split; [set_solver|by left].
    + right. exists v. split; [set_solver|by right].
  - right. exists w. split; [set_solver|done].
Qed.

Lemma containmentEdges_clusters CG H (clusters : list cluster) : ∀ G,
  (∀ c, c ∈ clusters → c ≠ rootCluster CG → is_Some (cg_parent CG c)) →
  ∃ G',
    foldl (λ acc c,
             G ← acc;
             if decide (c ≠ rootCluster CG) then
               u ← cg_parent CG c;
               let G := (newEdge G (m_topNode H u) (m_topNode H c)).1 in
               let G := (newEdge G (m_bottomNode H c) (m_bottomNode H u)).1 in
               Some (newEdge G (m_topNode H c) (m_bottomNode H c)).1
             else Some G)
          (Some G) clusters = Some G' ∧
    ∀ a b, has_edge G' a b →
      has_edge G a b ∨
      ∃ c u, c ∈ clusters ∧ c ≠ rootCluster CG ∧ cg_parent CG c = Some u ∧
             ((a = m_topNode H u ∧ b = m_topNode H c) ∨
              (a = m_bottomNode H c ∧ b = m_bottomNode H u) ∨
              (a = m_topNode H c ∧ b = m_bottomNode H c)).
Proof.
  induction clusters as [|c clusters IH]; intros G Hpar.
  - exists G. split; [done|]. by left.
  - cbn -[newEdge]. destruct (decide (c ≠ rootCluster CG)) as [Hne|Heq].
    + destruct (Hpar c ltac:(set_solver) Hne) as [u Hu]. rewrite Hu. cbn -[newEdge].
      destruct (IH (newEdge (newEdge (newEdge G (m_topNode H u) (m_topNode H c)).1
                                     (m_bottomNode H c) (m_bottomNode H u)).1
                            (m_topNode H c) (m_bottomNode H c)).1)
        as (G' & Hrun & Hedges); [intros; apply Hpar; set_solver|].
      exists G'. split; [done|]. intros a b Hab.
      apply Hedges in Hab as [Hab|(c' & u' & ? & ? & ? & ?)].
      * apply has_edge_newEdge in Hab as [Hab|[-> ->]];
          [|right; exists c, u; split_and!; [set_solver|done|done|by right; right]].
        apply has_edge_newEdge in Hab as [Hab|[-> ->]];
          [|right; exists c, u; split_and!; [set_solver|done|done|by right; left]].
        apply has_edge_newEdge in Hab as [Hab|[-> ->]]; [by left|].
        right. exists c, u. split_and!; [set_solver|done|done|by left].
      * right. exists c', u'. split_and!; [set_solver|done|done|done].
    + destruct (IH G) as (G' & Hrun & Hedges); [intros; apply Hpar; set_solver|].
      exists G'. split; [done|]. intros a b Hab.
      apply Hedges in Hab as [Hab|(c' & u' & ? & ? & ? & ?)]; [by left|].
      right. exists c', u'. split_and!; [set_solver|done|done|done].
Qed.

(** X5. With enough recursion depth for the cluster tree, [assignAeLevel]
    started at the root with [count = 0] numbers the nodes of the nesting
    graph [0, 1, 2, ...] in the order top of the cluster, its vertices, its
    child clusters (recursively), bottom of the cluster.  When these nodes are
    pairwise different, the labeling is topological for the containment edges
    the constructor has created before: it is the seed of the topological
    labeling that [addEdge] maintains. *)
Theorem assignAeLevel_seed_topological (fuel : nat) (CG : ClusterGraph)
    (nodes : list node) (T : ClusterTree) (H : ENG) (depth : cluster → nat) :
  (∀ c child, child ∈ ct_children T c → depth child < depth c) →
  depth (rootCluster CG) < fuel →
  ClusterTree_of CG nodes T →
  NoDup (assignAeLevel_order fuel T H (rootCluster CG)) →
  g_edges (eng_G H) = [] →
  ∃ level G',
    ENG_assignAeLevel fuel T H (rootCluster CG) (λ _, (-1)%Z, 0%Z)
    = Some (level, Z.of_nat (length (assignAeLevel_order fuel T H (rootCluster CG)))) ∧
    (∀ k x, assignAeLevel_order fuel T H (rootCluster CG) !! k = Some x →
            level x = Z.of_nat k) ∧
    (∀ x, x ∉ assignAeLevel_order fuel T H (rootCluster CG) → level x = (-1)%Z) ∧
    ENG_containmentEdges CG nodes H = Some G' ∧
    topological G' level.
Proof.
  intros Hdepth Hfuel [Hnodes Hclusters] Hnd Hempty.
  set (l := assignAeLevel_order fuel T H (rootCluster CG)) in *.
  rewrite (ENG_assignAeLevel_order T H depth Hdepth fuel _ _ Hfuel). fold l.
  destruct (containmentEdges_clusters CG H (cg_clusters CG)
              (foldl (λ G v,
                        let vH := m_copy H v in
                        let c := clusterOf CG v in
                        let G := (newEdge G (m_topNode H c) vH).1 in
                        (newEdge G vH (m_bottomNode H c)).1) (eng_G H) nodes))
    as (G' & Hrun & Hedges).
  { intros c Hc Hne. destruct (Hclusters c Hc Hne) as (u & -> & _). done. }
  exists (assignAeLevel_number l (λ _, (-1)%Z, 0%Z)).1, G'.
  split_and!.
  - rewrite (surjective_pairing (assignAeLevel_number l _)). f_equal. f_equal.
    rewrite assignAeLevel_number_count. simpl. lia.
  - intros k x Hk. rewrite (assignAeLevel_number_lookup l _ k x Hnd Hk). simpl. lia.
  - intros x Hx. by rewrite assignAeLevel_number_other.
  - exact Hrun.
  - intros a b Hab.
    assert (before l a b) as Hb; [|by apply before_number].
    apply Hedges in Hab as [Hab|(c & u & Hc & Hne & Hu & Hab)].
    + apply containmentEdges_nodes in Hab as [Hab|(v & Hv & Hab)].
      { unfold has_edge in Hab. rewrite Hempty in Hab. by apply elem_of_nil in Hab. }
      destruct (Hnodes v Hv) as [Hin Hrtc].
      destruct (order_before T H depth Hdepth fuel _ _ Hfuel Hrtc) as [Hv' _].
      destruct (Hv' v Hin) as [? ?].
      by destruct Hab as [[-> ->]|[-> ->]].
    + destruct (Hclusters c Hc Hne) as (u' & Hu' & Hin & Hrtc).
      assert (u' = u) as -> by congruence.
      destruct (order_before T H depth Hdepth fuel _ _ Hfuel Hrtc) as [_ Hc'].
      destruct (Hc' c Hin) as (? & ? & ?).
      by destruct Hab as [[-> ->]|[[-> ->]|[-> ->]]].
Qed.

Lemma assignAeLevel_seed_topological_witness :
  ∃ level G',
    ENG_assignAeLevel 2 siblings_T siblings_H0 (rootCluster siblings_CG) (λ _, (-1)%Z, 0%Z)
    = Some (level,
            Z.of_nat (length (assignAeLevel_order 2 siblings_T siblings_H0
                                (rootCluster siblings_CG)))) ∧
    (∀ k x, assignAeLevel_order 2 siblings_T siblings_H0 (rootCluster siblings_CG) !! k
            = Some x → level x = Z.of_nat k) ∧
    (∀ x, x ∉ assignAeLevel_order 2 siblings_T siblings_H0 (rootCluster siblings_CG) →
          level x = (-1)%Z) ∧
    ENG_containmentEdges siblings_CG [0; 1] siblings_H0 = Some G' ∧
    topological G' level.
Proof.
  apply (assignAeLevel_seed_topological 2 siblings_CG [0; 1] siblings_T siblings_H0
           (λ c, match c with 0 => 1 | _ => 0 end)).
  - intros [|[|[|c]]] child Hc; simpl in Hc; try by apply elem_of_nil in Hc.
    assert (child = 1 ∨ child = 2) as [-> | ->] by set_solver; simpl; lia.
  - simpl. lia.
  - split.
    + intros v Hv. assert (v = 0 ∨ v = 1) as [-> | ->] by set_solver; simpl.
      * split; [set_solver|]. apply rtc_once. simpl. set_solver.
      * split; [set_solver|]. apply rtc_once. simpl. set_solver.
    + intros c Hc Hne. simpl in Hc, Hne.
      assert (c = 1 ∨ c = 2) as [-> | ->] by set_solver;
        (exists 0; split_and!; [done|simpl; set_solver|apply rtc_refl]).
  - simpl. repeat (apply NoDup_cons; split; [set_solver|]). apply NoDup_nil_2.
  - done.
Defined.

Example assignAeLevel_seed_run :
  (λ st, (st.1 <$> [2; 4; 0; 5; 6; 1; 7; 3], st.2))
    <$> ENG_assignAeLevel 2 siblings_T siblings_H0 0 (λ _, (-1)%Z, 0%Z)
  = Some ([0; 1; 2; 3; 4; 5; 6; 7]%Z, 8%Z) ∧
  g_edges <$> ENG_containmentEdges siblings_CG [0; 1] siblings_H0
  = Some [(4, 0); (0, 5); (6, 1); (1, 7); (2, 4); (5, 3); (4, 5); (2, 6); (7, 3); (6, 7)].
Proof. split; reflexivity. Qed.

(** ** simplifyAdjacencies keeps the weights *)

Lemma adj_weight_perm u v (l l' : list Adjacency) :
  l ≡ₚ l' → adj_weight u v l = adj_weight u v l'.
Proof.
  induction 1 as [|a l l' _ IH|a b l|l1 l2 l3 _ IH1 _ IH2]; simpl.
  - done.
  - by rewrite IH.
  - destruct (decide (m_u b = u ∧ m_v b = v)), (decide (m_u a = u ∧ m_v a = v)); lia.
  - congruence.
Qed.

Lemma adj_weight_nonneg u v (l : list Adjacency) :
  (∀ a, a ∈ l → (0 ≤ m_weight a)%Z) → (0 ≤ adj_weight u v l)%Z.
Proof.
  induction l as [|a l IH]; intros Hl; simpl; [lia|].
  assert (0 ≤ m_weight a)%Z by (apply Hl; set_solver).
  assert (0 ≤ adj_weight u v l)%Z by (apply IH; intros; apply Hl; set_solver).
  destruct (decide (m_u a = u ∧ m_v a = v)); lia.
Qed.

(** As long as the weights are not negative and the total weight between a
    vertex and a tree node is at most [INT_MAX], the sums of the loop stay
    within the range of [int]. *)
Lemma adj_weight_loop u v rest : ∀ it,
  (∀ a, a ∈ it :: rest → (0 ≤ m_weight a)%Z) →
  (∀ u' v', (adj_weight u' v' (it :: rest) ≤ INT_MAX)%Z) →
  adj_weight u v (simplifyAdjacencies_loop it rest) = adj_weight u v (it :: rest).
Proof.
  induction rest as [|nx rest IH]; intros it Hpos Hmax; [done|].
  cbn [simplifyAdjacencies_loop]. case_bool_decide as Hsame.
  - destruct Hsame as [Eu Ev].
    assert (0 ≤ m_weight it)%Z by (apply Hpos; set_solver).
    assert (0 ≤ m_weight nx)%Z by (apply Hpos; set_solver).
    assert (Hrest : ∀ u' v', (0 ≤ adj_weight u' v' rest)%Z).
    { intros u' v'. apply adj_weight_nonneg. intros; apply Hpos; set_solver. }
    assert (Hw : int_wrap (m_weight it + m_weight nx) = (m_weight it + m_weight nx)%Z).
    { apply int_wrap_id. specialize (Hmax (m_u it) (m_v it)). simpl in Hmax.
      rewrite <- Eu, <- Ev in Hmax. rewrite !decide_True in Hmax by done.
      specialize (Hrest (m_u it) (m_v it)). lia. }
    rewrite Hw.
    assert (Hsum : ∀ u' v',
              adj_weight u' v'
                (mkAdjacency (m_u it) (m_v it) (m_weight it + m_weight nx) :: rest)
              = adj_weight u' v' (it :: nx :: rest)).
    { intros u' v'. simpl. rewrite <- Eu, <- Ev.
      destruct (decide (m_u it = u' ∧ m_v it = v')); lia. }
    rewrite IH.
    + apply Hsum.
    + intros a Ha. apply elem_of_cons in Ha as [->|Ha]; [simpl; lia|].
      apply Hpos. set_solver.
    + intros u' v'. rewrite Hsum. apply Hmax.
  - change (adj_weight u v (it :: simplifyAdjacencies_loop nx rest))
      with (if decide (m_u it = u ∧ m_v it = v)
            then (m_weight it + adj_weight u v (simplifyAdjacencies_loop nx rest))%Z
            else adj_weight u v (simplifyAdjacencies_loop nx rest)).
    rewrite IH; [done| |].
    + intros a Ha. apply Hpos. set_solver.
    + intros u' v'. specialize (Hmax u' v'). simpl in Hmax.
      assert (0 ≤ m_weight it)%Z by (apply Hpos; set_solver).
      simpl. destruct (decide (m_u it = u' ∧ m_v it = v')); lia.
Qed.

Lemma simplifyAdjacencies_loop_from rest : ∀ it a,
  a ∈ simplifyAdjacencies_loop it rest →
  ∃ b, b ∈ it :: rest ∧ m_u a = m_u b ∧ m_v a = m_v b.
Proof.
  induction rest as [|nx rest IH]; intros it a Ha.
  - apply list_elem_of_singleton in Ha as ->. exists it. set_solver.
  - cbn [simplifyAdjacencies_loop] in Ha. case_bool_decide as Hsame.
    + apply IH in Ha as (b & Hb & Eu & Ev).
      apply elem_of_cons in Hb as [->|Hb]; [exists it|exists b]; set_solver.
    + apply elem_of_cons in Ha as [->|Ha]; [exists it; set_solver|].
      apply IH in Ha as (b & Hb & Eu & Ev). exists b. set_solver.
Qed.

(** X6. [simplifyAdjacencies(adjs)] merges the entries between the same vertex
    and tree node into one that carries the sum of their weights.  For a list
    whose weights are not negative and whose total weight between any vertex
    and tree node is at most [INT_MAX] (so that no sum leaves the range of
    [int]): for every vertex and tree node the total weight in the list is the
    one before, no two entries left are between the same vertex and tree
    node, every entry left is between a vertex and a tree node of an entry
    before, and the list is in strictly increasing order of the comparer's
    key. *)
Theorem simplifyAdjacencies_merges_weights
    (quicksort : ∀ E : Type, (E → E → bool) → list E → list E)
    (h : gmap ptr LHTreeNode) (adjs : list Adjacency) :
  sorts quicksort →
  adj_distinct h adjs →
  (∀ a, a ∈ adjs → (0 ≤ m_weight a)%Z) →
  (∀ u v, (adj_weight u v adjs ≤ INT_MAX)%Z) →
  (∀ u v, adj_weight u v (ENGLayer_simplifyAdjacencies_list quicksort h adjs)
          = adj_weight u v adjs) ∧
  NoDup ((λ a, (m_u a, m_v a)) <$> ENGLayer_simplifyAdjacencies_list quicksort h adjs) ∧
  (∀ a, a ∈ ENGLayer_simplifyAdjacencies_list quicksort h adjs →
        ∃ b, b ∈ adjs ∧ m_u a = m_u b ∧ m_v a = m_v b) ∧
  StronglySorted (λ x y, key_lt (adjKey h x) (adjKey h y))
                 (ENGLayer_simplifyAdjacencies_list quicksort h adjs).
Proof.
  intros Hsorts Hd Hpos Hmax.
  pose proof (simplifyAdjacencies_list_sorted quicksort Hsorts h adjs Hd) as Hs.
  destruct Hsorts as (Hperm & _ & _).
  specialize (Hperm _ (AdjacencyComparer_less h) adjs).
  split_and!; [| | |done].
  - intros u v. unfold ENGLayer_simplifyAdjacencies_list.
    destruct adjs as [|a0 adjs]; [done|].
    rewrite <- (adj_weight_perm u v _ _ Hperm).
    destruct (quicksort Adjacency (AdjacencyComparer_less h) (a0 :: adjs))
      as [|it rest]; [done|].
    apply adj_weight_loop.
    + intros a Ha. apply Hpos. by rewrite <- Hperm.
    + intros u' v'. rewrite (adj_weight_perm u' v' _ _ Hperm). apply Hmax.
  - induction Hs as [|a l Hs IH Hall]; [constructor|].
    rewrite fmap_cons. apply NoDup_cons. split; [|done].
    intros Hin. apply list_elem_of_fmap in Hin as (b & Hab & Hb).
    rewrite Forall_forall in Hall. specialize (Hall b Hb).
    injection Hab as Eu Ev.
    rewrite (adjKey_same h a b Eu Ev) in Hall. by apply key_lt_irrefl in Hall.
  - intros a Ha. unfold ENGLayer_simplifyAdjacencies_list in Ha.
    destruct adjs as [|a0 adjs]; [by apply elem_of_nil in Ha|].
    destruct (quicksort Adjacency (AdjacencyComparer_less h) (a0 :: adjs))
      as [|it rest] eqn:Hq; [by apply elem_of_nil in Ha|].
    apply simplifyAdjacencies_loop_from in Ha as (b & Hb & ? & ?).
    exists b. split; [by rewrite <- Hperm|done].
Qed.

Lemma simplifyAdjacencies_merges_weights_witness :
  (∀ u v, adj_weight u v (ENGLayer_simplifyAdjacencies_list insertion_sort adj_layer
                            [mkAdjacency 20 3 1; mkAdjacency 20 2 1; mkAdjacency 20 3 1])
          = adj_weight u v [mkAdjacency 20 3 1; mkAdjacency 20 2 1; mkAdjacency 20 3 1]) ∧
  NoDup ((λ a, (m_u a, m_v a)) <$>
         ENGLayer_simplifyAdjacencies_list insertion_sort adj_layer
           [mkAdjacency 20 3 1; mkAdjacency 20 2 1; mkAdjacency 20 3 1]) ∧
  (∀ a, a ∈ ENGLayer_simplifyAdjacencies_list insertion_sort adj_layer
              [mkAdjacency 20 3 1; mkAdjacency 20 2 1; mkAdjacency 20 3 1] →
        ∃ b, b ∈ [mkAdjacency 20 3 1; mkAdjacency 20 2 1; mkAdjacency 20 3 1] ∧
             m_u a = m_u b ∧ m_v a = m_v b) ∧
  StronglySorted (λ x y, key_lt (adjKey adj_layer x) (adjKey adj_layer y))
                 (ENGLayer_simplifyAdjacencies_list insertion_sort adj_layer
                    [mkAdjacency 20 3 1; mkAdjacency 20 2 1; mkAdjacency 20 3 1]).
Proof.
  apply (simplifyAdjacencies_merges_weights insertion_sort adj_layer).
  - apply insertion_sort_sorts.
  - destruct (adj_layer_distinct 1 _ eq_refl) as [Hup _]. exact Hup.
  - intros a Ha. repeat (apply elem_of_cons in Ha as [->|Ha]; [simpl; lia|]).
    by apply elem_of_nil in Ha.
  - intros u v. unfold INT_MAX. simpl.
    repeat match goal with |- context [decide ?P] => destruct (decide P) end; lia.
Defined.

Example simplifyAdjacencies_merges_weights_run :
  ENGLayer_simplifyAdjacencies_list insertion_sort adj_layer
    [mkAdjacency 20 3 1; mkAdjacency 20 2 1; mkAdjacency 20 3 1]
  = [mkAdjacency 20 2 1; mkAdjacency 20 3 2].
Proof. reflexivity. Qed.

(** ** assignPos numbers the leaves *)

(** X7. [assignPos] numbers the leaves below a tree node from left to right:
    when the tree below [vNode] is within reach and its leaves stand for
    pairwise different vertices, the call returns, the [k]-th leaf gets the
    position [count + k], [count] grows by the number of leaves, and no other
    vertex changes its position. *)
Theorem assignPos_numbers_leaves (fuel : nat) (h : gmap ptr LHTreeNode) (vNode : ptr)
    (m_pos : gmap node Z) (count : Z) (l : list node) :
  LHT_leaves fuel h vNode = Some l →
  NoDup l →
  ∃ m_pos',
    ExtendedNestingGraph_assignPos fuel h vNode (m_pos, count)
    = Some (m_pos', (count + Z.of_nat (length l))%Z) ∧
    (∀ k v, l !! k = Some v → m_pos' !! v = Some (count + Z.of_nat k)%Z) ∧
    (∀ v, v ∉ l → m_pos' !! v = m_pos !! v).
Proof.
  intros Hl Hnd. rewrite assignPos_leaves, Hl. simpl.
  exists (assignPos_number l (m_pos, count)).1. split_and!.
  - rewrite (surjective_pairing (assignPos_number l _)). f_equal. f_equal.
    by rewrite assignPos_number_count.
  - intros k v Hk. by rewrite (assignPos_number_lookup l _ k v Hnd Hk).
  - intros v Hv. by rewrite assignPos_number_other.
Qed.

Lemma assignPos_numbers_leaves_witness :
  ∃ m_pos',
    ExtendedNestingGraph_assignPos 3 aux_layer 1 (∅, 0%Z)
    = Some (m_pos', (0 + Z.of_nat (length [10; 11; 12]))%Z) ∧
    (∀ k v, [10; 11; 12] !! k = Some v → m_pos' !! v = Some (0 + Z.of_nat k)%Z) ∧
    (∀ v, v ∉ [10; 11; 12] → m_pos' !! v = (∅ : gmap node Z) !! v).
Proof.
  apply (assignPos_numbers_leaves 3 aux_layer 1 ∅ 0 [10; 11; 12]).
  - reflexivity.
  - repeat (apply NoDup_cons; split; [set_solver|]). apply NoDup_nil_2.
Defined.

(** ** The length of a chain *)

Lemma ranked_path_length G rank chain : ∀ s t,
  ranked_path G rank s chain t →
  rank t = (rank s + Z.of_nat (length chain))%Z.
Proof.
  induction chain as [|e chain IH]; intros s t Hp; simpl in Hp.
  - subst. simpl. lia.
  - destruct Hp as (m & _ & Hm & Hp). rewrite (IH _ _ Hp), Hm. simpl length. lia.
Qed.

(** X8. [createDummyNodes] gives no node of the graph a new rank, and the
    chain of an original edge has afterwards as many edges as its single edge
    spanned ranks before: an edge that spans [k] ranks gets [k - 1] dummies. *)
Theorem createDummyNodes_chain_length (CG : ClusterGraph) (H : ENG) :
  createDummyNodes_pre CG H →
  ∃ H', ENG_createDummyNodes CG H = Some H' ∧
    (∀ x, x < nodeIdCount (eng_G H) → m_rank H' x = m_rank H x) ∧
    ∀ e, e < length (cg_edges CG) →
      Z.of_nat (length (m_copyEdge H' e))
      = (m_rank H (chain_ends H e).2 - m_rank H (chain_ends H e).1)%Z.
Proof.
  intros Hpre.
  destruct (createDummyNodes_ranked CG H Hpre) as (H' & Hrun & Hinv).
  exists H'. split; [done|].
  destruct Hinv as (_ & _ & Hrk & _ & _ & _ & _ & Hdone & _).
  split; [done|]. intros e He.
  destruct (Hdone e He He) as [_ Hp].
  apply ranked_path_length in Hp.
  destruct Hpre as (Hwf & Hsingle & _).
  destruct (Hsingle e He) as (h1 & s1 & t1 & Hc1 & Hl1 & _).
  rewrite (chain_ends_single _ _ _ _ _ Hc1 Hl1) in *. simpl in *.
  destruct (Hwf _ _ _ Hl1) as [Hs Ht].
  rewrite !Hrk in Hp by done. lia.
Qed.

Lemma createDummyNodes_chain_length_witness :
  ∃ H', ENG_createDummyNodes span_CG span_H = Some H' ∧
    (∀ x, x < nodeIdCount (eng_G span_H) → m_rank H' x = m_rank span_H x) ∧
    ∀ e, e < length (cg_edges span_CG) →
      Z.of_nat (length (m_copyEdge H' e))
      = (m_rank span_H (chain_ends span_H e).2 - m_rank span_H (chain_ends span_H e).1)%Z.
Proof.
  apply (createDummyNodes_chain_length span_CG span_H).
  split_and!.
  - intros e s t. simpl.
    do 6 (destruct e as [|e]; [intros [= <- <-]; lia|]). done.
  - intros e He. simpl in He.
    do 3 (destruct e as [|e]; [eexists _, _, _; split_and!; [done|done|simpl; lia]|]).
    lia.
  - intros e e' He He'. simpl in He, He'.
    do 3 (destruct e as [|e]; [do 3 (destruct e' as [|e']; [done|]); lia|]).
    lia.
  - intros c Hc Hne. simpl in Hne.
    assert (c = 1) as -> by set_solver.
    split_and!; [simpl; lia|simpl; lia|done|simpl; lia|].
    intros e He. simpl in He.
    do 3 (destruct e as [|e]; [done|]). lia.
Defined.
